(** * Jet-cone and underlying-event geometry of [antinucleiInJets.cxx]

    A shallow embedding of the geometric helpers of the struct
    [AntinucleiInJets] (PWGLF/Tasks/Nuspex/antinucleiInJets.cxx):
    [getPerpendicularAxis], [getDeltaPhi], [getCorrectedPt] and the
    underlying-event loop of [processData].

    Arithmetic model.  A C++ [double] is read as a real number of [R]:
    the operators [+ - * /], [std::sqrt] and [std::fabs] are the exact
    ones of the reals, a comparison is the decidable order of [R] turned
    into a [bool].  Rounding, infinities and NaN are outside the model;
    where the source can take the square root of a negative number (NaN
    in C++, [0] for [sqrt] of [R]) the statements below either do not
    depend on that value or exclude the input by a hypothesis.  The one
    division whose divisor can be zero on a track row, crossed over
    findable TPC rows, is modelled with the infinities and NaN it gives
    ([divCounts]).  An [int] is 32 bits wide ([wrapInt]). *)

From Stdlib Require Import Reals Lra Lia ZArith List String Bool Sorted.
Import ListNotations.

Open Scope R_scope.

(** ** Comparisons of doubles, as booleans *)

Module Dbl.

Definition ltb (x y : R) : bool := if Rlt_dec x y then true else false.
Definition leb (x y : R) : bool := if Rle_dec x y then true else false.
Definition gtb (x y : R) : bool := ltb y x.
Definition geb (x y : R) : bool := leb y x.
Definition eqb (x y : R) : bool := if Req_dec_T x y then true else false.
Definition neqb (x y : R) : bool := negb (eqb x y).

End Dbl.

(** ** Diagnostics

    [LOGP(severity, format, args...)] appends one entry to the log.  Only
    a [fatal] entry would stop the process; the helpers below emit [warn]
    and [error] entries. *)

Inductive Severity := warn | error | fatal.

Record LogEntry := LOGP {
  log_severity : Severity;
  log_format : string;
  log_args : list R
}.

Definition Log := list LogEntry.

Definition is_fatal (e : LogEntry) : bool :=
  match log_severity e with fatal => true | _ => false end.

Definition is_error (e : LogEntry) : bool :=
  match log_severity e with error => true | _ => false end.

(** ** [TVector3] *)

Record TVector3 := mkTVector3 { fX : R; fY : R; fZ : R }.

(** [u.SetXYZ(x, y, z)] overwrites the three components of [u]. *)
Definition SetXYZ (u : TVector3) (x y z : R) : TVector3 := mkTVector3 x y z.

Definition zeroVector : TVector3 := mkTVector3 0 0 0.

(** ** [getPerpendicularAxis]

    The out-parameter [u] is threaded through: the function takes its
    value at the call and returns its value at the return, next to the
    diagnostics emitted. *)

(** The coefficients of the quadratic of the general case and its
    discriminant, as the local variables [a], [b], [c] and [delta]. *)
Definition quad_a (p : TVector3) : R := fX p * fX p + fY p * fY p.
Definition quad_b (p : TVector3) : R := 2 * fX p * (fZ p * fZ p).
Definition quad_c (p : TVector3) : R :=
  (fZ p * fZ p) * (fZ p * fZ p)
  - (fY p * fY p) * (fY p * fY p) - (fX p * fX p) * (fY p * fY p).
Definition quad_delta (p : TVector3) : R :=
  quad_b p * quad_b p - 4 * quad_a p * quad_c p.

Definition invalidInputFormat : string :=
  "Invalid input in getPerpendicularAxis: delta = {}, a = {}".

Definition getPerpendicularAxis (p u : TVector3) (sign : R)
  : TVector3 * Log :=
  let px := fX p in
  let py := fY p in
  let pz := fZ p in
  let px2 := px * px in
  let py2 := py * py in
  let pz2 := pz * pz in
  let pz4 := pz2 * pz2 in
  (* px and py are both zero *)
  if Dbl.eqb px 0 && Dbl.eqb py 0 then (SetXYZ u 0 0 0, [])
  (* protection 1 *)
  else if Dbl.eqb px 0 && Dbl.neqb py 0 then
    let ux := sign * sqrt (py2 - pz4 / py2) in
    let uy := - pz2 / py in
    (SetXYZ u ux uy pz, [])
  (* protection 2 *)
  else if Dbl.eqb py 0 && Dbl.neqb px 0 then
    let ux := - pz2 / px in
    let uy := sign * sqrt (px2 - pz4 / px2) in
    (SetXYZ u ux uy pz, [])
  else
    (* general case *)
    let a := px2 + py2 in
    let b := 2 * px * pz2 in
    let c := pz4 - py2 * py2 - px2 * py2 in
    let delta := b * b - 4 * a * c in
    if Dbl.ltb delta 0 || Dbl.eqb a 0 then
      (SetXYZ u 0 0 0, [LOGP warn invalidInputFormat [delta; a]])
    else
      let ux := (- b + sign * sqrt delta) / (2 * a) in
      let uy := (- pz2 - px * ux) / py in
      (SetXYZ u ux uy pz, []).

(** The two calls of [processData]:
    [getPerpendicularAxis(jetAxis, ueAxis1, +1)] and
    [getPerpendicularAxis(jetAxis, ueAxis2, -1)], each on a fresh
    [TVector3(0, 0, 0)]. *)
Definition ueAxis1 (jetAxis : TVector3) : TVector3 :=
  fst (getPerpendicularAxis jetAxis zeroVector 1).
Definition ueAxis2 (jetAxis : TVector3) : TVector3 :=
  fst (getPerpendicularAxis jetAxis zeroVector (-1)).

(** ** [getDeltaPhi] *)

(** Modelled from the spec: the constants [PI] and [TwoPI] of
    [o2::constants::math] are not part of the file; [PI] is the real
    number pi, [TwoPI] is twice that. *)
Definition TwoPI : R := 2 * PI.

(** Modelled from the spec: [TVector2::Phi_0_2pi] is a ROOT function; it
    normalizes an angle into [[0, 2pi)] by adding or subtracting [2pi]
    until the value is in range, which on the reals is the reduction
    modulo [2pi] below (see [Phi_0_2pi_ge], [Phi_0_2pi_lt] and
    [Phi_0_2pi_id] for the three cases of that loop). *)
Definition Phi_0_2pi (x : R) : R := x - IZR (Zfloor (x / TwoPI)) * TwoPI.

Definition getDeltaPhi (a1 a2 : R) : R :=
  let deltaPhi := 0 in
  let phi1 := Phi_0_2pi a1 in
  let phi2 := Phi_0_2pi a2 in
  let diff := Rabs (phi1 - phi2) in
  let deltaPhi := if Dbl.leb diff PI then diff else deltaPhi in
  let deltaPhi := if Dbl.gtb diff PI then TwoPI - diff else deltaPhi in
  deltaPhi.

(** The reduction as the specification words it: normalize both angles,
    take the absolute difference, fold it back when it exceeds pi. *)
Definition AngularMetric_spec (a b : R) : R :=
  let d := Rabs (Phi_0_2pi a - Phi_0_2pi b) in
  if Rlt_dec PI d then 2 * PI - d else d.

(** ** [getCorrectedPt]

    The response matrix is a ROOT [TH2], reached through a pointer that
    may be null: an [option].  Of the histogram classes only what the
    function calls is modelled.  A [TAxis] finds bin [0] below its range
    and bin [fNbins + 1] at or above it (ROOT's underflow and overflow
    bins); inside the range the bin comes from the binning of the axis,
    a field here.  [GetRandom] draws from the global generator [gRandom],
    whose state of type [Rng] is passed in and out. *)

Section Histograms.

Variable Rng : Type.

Record TH1D := mkTH1D {
  GetEntries : R;
  GetRandom : Rng -> R * Rng
}.

Record TAxis := mkTAxis {
  fNbins : Z;
  fXmin : R;
  fXmax : R;
  binInRange : R -> Z
}.

(** Modelled from the spec: [TAxis::FindBin] is ROOT code, not part of
    the file.  An input outside the calibrated range is located in no bin
    of the range: below [fXmin] it gets the underflow index [0], at or
    above [fXmax] the overflow index [fNbins + 1]. *)
Definition FindBin (ax : TAxis) (x : R) : Z :=
  if Dbl.ltb x (fXmin ax) then 0%Z
  else if negb (Dbl.ltb x (fXmax ax)) then (fNbins ax + 1)%Z
  else binInRange ax x.

(** An axis of [n] bins of one width on [[lo, hi)]. *)
Definition fixedBins (n : Z) (lo hi : R) : TAxis :=
  mkTAxis n lo hi (fun x => (1 + Zfloor (IZR n * (x - lo) / (hi - lo)))%Z).

Record TH2 := mkTH2 {
  GetXaxis : TAxis;
  ProjectionY : Z -> Z -> TH1D
}.

Definition GetNbinsX (h : TH2) : Z := fNbins (GetXaxis h).

Definition nullMatrixFormat : string :=
  "Response matrix is null. Returning uncorrected pt.".
Definition binOutOfRangeFormat : string :=
  "Bin index out of range: binX = {}".

Definition getCorrectedPt (ptRec : R) (responseMatrix : option TH2)
  (gRandom : Rng) : R * Rng * Log :=
  match responseMatrix with
  | None => (ptRec, gRandom, [LOGP error nullMatrixFormat []])
  | Some h =>
    let binX := FindBin (GetXaxis h) ptRec in
    if (binX <? 1)%Z || (binX >? GetNbinsX h)%Z then
      (* Return uncorrected pt if bin index is invalid *)
      (ptRec, gRandom, [LOGP error binOutOfRangeFormat [IZR binX]])
    else
      let proj := ProjectionY h binX binX in
      (* add a protection in case the projection is empty *)
      if Dbl.eqb (GetEntries proj) 0 then (ptRec, gRandom, [])
      else
        let (deltaPt, gRandom') := GetRandom proj gRandom in
        let ptGen := ptRec + deltaPt in
        (ptGen, gRandom', [])
  end.

End Histograms.

Arguments GetEntries {Rng} _.
Arguments GetRandom {Rng} _ _.
Arguments mkTH1D {Rng} _ _.
Arguments mkTH2 {Rng} _ _.
Arguments GetXaxis {Rng} _.
Arguments ProjectionY {Rng} _ _ _.
Arguments GetNbinsX {Rng} _.
Arguments getCorrectedPt {Rng} _ _ _.

(** ** Jets and the background subtraction *)

Record PseudoJet := mkPseudoJet {
  jet_px : R;
  jet_py : R;
  jet_pz : R;
  jet_pt : R;
  jet_eta : R;
  jet_area : R
}.

(** Modelled from the spec: [JetBkgSubUtils::doRhoAreaSub] (PWGJE/Core)
    is called by [processData] and is not part of the file.  The
    specification gives the transverse momentum of the jet it returns:
    [pt_sub = pt_raw - area * density]; the weighted density
    [rhoMParam] does not enter that formula. *)
Definition doRhoAreaSub_pt (jet : PseudoJet) (rhoParam rhoMParam : R) : R :=
  jet_pt jet - jet_area jet * rhoParam.

(** [double coneRadius = std::sqrt(jet.area() / PI)] *)
Definition coneRadiusOf (jet : PseudoJet) : R := sqrt (jet_area jet / PI).

(** [TVector3 jetAxis(jet.px(), jet.py(), jet.pz())] *)
Definition jetAxisOf (jet : PseudoJet) : TVector3 :=
  mkTVector3 (jet_px jet) (jet_py jet) (jet_pz jet).

(** ** Quotients of counts

    [static_cast<double>(n) / static_cast<double>(d)] for two integer
    counts.  The division of doubles is total: a divisor of zero gives
    an infinity with the sign of the dividend, and no number (NaN) when
    the dividend is zero as well.  An ordered comparison with NaN is
    false. *)

Inductive Quotient :=
  | finite (x : R)
  | plusInfinity
  | minusInfinity
  | notANumber.

Definition divCounts (n d : Z) : Quotient :=
  if (d =? 0)%Z then
    if (0 <? n)%Z then plusInfinity
    else if (n <? 0)%Z then minusInfinity
    else notANumber
  else finite (IZR n / IZR d).

(** [q < bound], for a bound that is a number. *)
Definition Quotient_ltb (q : Quotient) (bound : R) : bool :=
  match q with
  | finite x => Dbl.ltb x bound
  | minusInfinity => true
  | plusInfinity | notANumber => false
  end.

(** ** Tracks, configuration and track selection *)

Record Track := mkTrack {
  isPVContributor : bool;
  hasITS : bool;
  itsNCls : Z;
  hasTPC : bool;
  tpcNClsCrossedRows : Z;
  tpcNClsFindable : Z;
  tpcChi2NCl : R;
  itsChi2NCl : R;
  eta : R;
  phi : R;
  pt : R;
  sign : Z;
  dcaXY : R;
  dcaZ : R;
  hasTOF : bool;
  tpcNSigmaPr : R;
  tofNSigmaPr : R;
  tpcNSigmaDe : R;
  tofNSigmaDe : R;
  tpcNSigmaHe : R
}.

(** The [Configurable]s read by the code modelled here. *)
Record Config := mkConfig {
  minJetPt : R;
  requirePvContributor : bool;
  applyItsPid : bool;
  minItsNclusters : Z;
  minTpcNcrossedRows : Z;
  minTpcNcrossedRowsOverFindable : R;
  maxChiSquareTpc : R;
  maxChiSquareIts : R;
  minPt : R;
  minEta : R;
  maxEta : R;
  maxDcaxy : R;
  maxDcaz : R;
  minNsigmaTpc : R;
  maxNsigmaTpc : R;
  ptMaxItsPidProt : R;
  ptMaxItsPidDeut : R;
  ptMaxItsPidHel : R;
  nSigmaItsMin : R;
  nSigmaItsMax : R
}.

Definition passedTrackSelection (cfg : Config) (track : Track) : bool :=
  if requirePvContributor cfg && negb (isPVContributor track) then false
  else if negb (hasITS track) then false
  else if (itsNCls track <? minItsNclusters cfg)%Z then false
  else if negb (hasTPC track) then false
  else if (tpcNClsCrossedRows track <? minTpcNcrossedRows cfg)%Z then false
  else if Quotient_ltb
            (divCounts (tpcNClsCrossedRows track) (tpcNClsFindable track))
            (minTpcNcrossedRowsOverFindable cfg) then false
  else if Dbl.gtb (tpcChi2NCl track) (maxChiSquareTpc cfg) then false
  else if Dbl.gtb (itsChi2NCl track) (maxChiSquareIts cfg) then false
  else if Dbl.ltb (eta track) (minEta cfg) || Dbl.gtb (eta track) (maxEta cfg)
       then false
  else if Dbl.ltb (pt track) (minPt cfg) then false
  else true.

Definition isHighPurityAntiproton (track : Track) : bool :=
  let nsigmaTPCPr := tpcNSigmaPr track in
  let nsigmaTOFPr := tofNSigmaPr track in
  let pt := pt track in
  let ptThreshold := 0.5 in
  let nsigmaMaxPr := 2 in
  if Dbl.ltb pt ptThreshold && Dbl.ltb (Rabs nsigmaTPCPr) nsigmaMaxPr then true
  else if Dbl.geb pt ptThreshold && Dbl.ltb (Rabs nsigmaTPCPr) nsigmaMaxPr
          && hasTOF track && Dbl.ltb (Rabs nsigmaTOFPr) nsigmaMaxPr then true
  else false.

(** ** The histogram registry

    [registryData.fill(HIST(name), x, y)] adds one entry to the histogram
    [name]; the registry is the sequence of the fills made so far. *)

Record Fill := mkFill { fill_hist : string; fill_values : list R }.

Definition Registry := list Fill.

Definition fill (registry : Registry) (name : string) (values : list R)
  : Registry :=
  registry ++ [mkFill name values].

(** How many entries histogram [name] holds. *)
Definition entries (name : string) (registry : Registry) : nat :=
  count_occ string_dec (map fill_hist registry) name.

(** ** The underlying-event loop of [processData]

    [TVector3::Eta], [TVector3::Phi] (ROOT) and
    [ITSResponse::nSigmaITS] (PID response) are functions of libraries;
    the loop is modelled for any such functions. *)

Inductive PID := Proton | Deuteron | Helium3.

Section UnderlyingEvent.

Variable Eta : TVector3 -> R.
Variable Phi : TVector3 -> R.
Variable nSigmaITS : PID -> Track -> R.
Variable cfg : Config.

(** The distance of a direction [(eta, phi)] to an axis direction in the
    pseudorapidity-azimuth plane, and the test of one cone: the loop
    leaves a cone out when [deltaR > coneRadius]. *)
Definition deltaR (eta phi axisEta axisPhi : R) : R :=
  let deltaEta := eta - axisEta in
  let deltaPhi := getDeltaPhi phi axisPhi in
  sqrt (deltaEta * deltaEta + deltaPhi * deltaPhi).

Definition insideCone (eta phi axisEta axisPhi coneRadius : R) : bool :=
  negb (Dbl.gtb (deltaR eta phi axisEta axisPhi) coneRadius).

(** Lines 688-694: the condition under which the loop skips the track. *)
Definition outsideUeCones (coneRadius : R) (ueAxis1 ueAxis2 : TVector3)
  (track : Track) : bool :=
  let deltaEtaUe1 := eta track - Eta ueAxis1 in
  let deltaPhiUe1 := getDeltaPhi (phi track) (Phi ueAxis1) in
  let deltaRUe1 :=
    sqrt (deltaEtaUe1 * deltaEtaUe1 + deltaPhiUe1 * deltaPhiUe1) in
  let deltaEtaUe2 := eta track - Eta ueAxis2 in
  let deltaPhiUe2 := getDeltaPhi (phi track) (Phi ueAxis2) in
  let deltaRUe2 :=
    sqrt (deltaEtaUe2 * deltaEtaUe2 + deltaPhiUe2 * deltaPhiUe2) in
  Dbl.gtb deltaRUe1 coneRadius && Dbl.gtb deltaRUe2 coneRadius.

(** One iteration of [for (auto const& track : tracks)] (lines 682-765);
    a [continue] returns the registry as it stands. *)
Definition ueTrack (coneRadius : R) (ueAxis1 ueAxis2 : TVector3)
  (track : Track) (registryData : Registry) : Registry :=
  (* get corresponding track and apply track selection criteria *)
  if negb (passedTrackSelection cfg track) then registryData
  else if outsideUeCones coneRadius ueAxis1 ueAxis2 track then registryData
  else
    (* variables *)
    let nsigmaTPCPr := tpcNSigmaPr track in
    let nsigmaTOFPr := tofNSigmaPr track in
    let nsigmaTPCDe := tpcNSigmaDe track in
    let nsigmaTOFDe := tofNSigmaDe track in
    let nsigmaTPCHe := tpcNSigmaHe track in
    let pt := pt track in
    let dcaxy := dcaXY track in
    let dcaz := dcaZ track in
    (* fill DCA distribution for antiprotons *)
    let registryData :=
      if (sign track <? 0)%Z && isHighPurityAntiproton track
         && Dbl.ltb (Rabs dcaz) (maxDcaz cfg)
      then fill registryData "antiproton_dca_ue" [pt; dcaxy]
      else registryData in
    (* DCA selections *)
    if Dbl.gtb (Rabs dcaxy) (maxDcaxy cfg) || Dbl.gtb (Rabs dcaz) (maxDcaz cfg)
    then registryData
    else
      (* particle identification using the ITS cluster size *)
      let passedItsPidProt := false in
      let passedItsPidDeut := false in
      let passedItsPidHel := false in
      let passedItsPidProt :=
        if Dbl.gtb (nSigmaITS Proton track) (nSigmaItsMin cfg)
           && Dbl.ltb (nSigmaITS Proton track) (nSigmaItsMax cfg)
        then true else passedItsPidProt in
      let passedItsPidDeut :=
        if Dbl.gtb (nSigmaITS Deuteron track) (nSigmaItsMin cfg)
           && Dbl.ltb (nSigmaITS Deuteron track) (nSigmaItsMax cfg)
        then true else passedItsPidDeut in
      let passedItsPidHel :=
        if Dbl.gtb (nSigmaITS Helium3 track) (nSigmaItsMin cfg)
           && Dbl.ltb (nSigmaITS Helium3 track) (nSigmaItsMax cfg)
        then true else passedItsPidHel in
      let passedItsPidProt :=
        if negb (applyItsPid cfg) then true else passedItsPidProt in
      let passedItsPidDeut :=
        if negb (applyItsPid cfg) then true else passedItsPidDeut in
      let passedItsPidHel :=
        if negb (applyItsPid cfg) then true else passedItsPidHel in
      let passedItsPidProt :=
        if Dbl.gtb pt (ptMaxItsPidProt cfg) then true else passedItsPidProt in
      let passedItsPidDeut :=
        if Dbl.gtb pt (ptMaxItsPidDeut cfg) then true else passedItsPidDeut in
      let passedItsPidHel :=
        if Dbl.gtb (2 * pt) (ptMaxItsPidHel cfg) then true
        else passedItsPidHel in
      (* antimatter *)
      let registryData :=
        if (sign track <? 0)%Z then
          let registryData :=
            if passedItsPidProt then
              let registryData :=
                fill registryData "antiproton_ue_tpc" [pt; nsigmaTPCPr] in
              if Dbl.gtb nsigmaTPCPr (minNsigmaTpc cfg)
                 && Dbl.ltb nsigmaTPCPr (maxNsigmaTpc cfg) && hasTOF track
              then fill registryData "antiproton_ue_tof" [pt; nsigmaTOFPr]
              else registryData
            else registryData in
          let registryData :=
            if passedItsPidDeut then
              let registryData :=
                fill registryData "antideuteron_ue_tpc" [pt; nsigmaTPCDe] in
              if Dbl.gtb nsigmaTPCDe (minNsigmaTpc cfg)
                 && Dbl.ltb nsigmaTPCDe (maxNsigmaTpc cfg) && hasTOF track
              then fill registryData "antideuteron_ue_tof" [pt; nsigmaTOFDe]
              else registryData
            else registryData in
          if passedItsPidHel then
            fill registryData "antihelium3_ue_tpc" [2 * pt; nsigmaTPCHe]
          else registryData
        else registryData in
      (* matter *)
      if (sign track >? 0)%Z then
        let registryData :=
          if passedItsPidDeut && Dbl.gtb nsigmaTPCDe (minNsigmaTpc cfg)
             && Dbl.ltb nsigmaTPCDe (maxNsigmaTpc cfg) && hasTOF track
          then fill registryData "deuteron_ue_tof" [pt; nsigmaTOFDe]
          else registryData in
        (* helium3 *)
        if passedItsPidHel then
          fill registryData "helium3_ue_tpc" [2 * pt; nsigmaTPCHe]
        else registryData
      else registryData.

(** The loop over the tracks of the event, for one accepted jet. *)
Fixpoint ueLoop (coneRadius : R) (ueAxis1 ueAxis2 : TVector3)
  (tracks : list Track) (registryData : Registry) : Registry :=
  match tracks with
  | [] => registryData
  | track :: rest =>
    ueLoop coneRadius ueAxis1 ueAxis2 rest
      (ueTrack coneRadius ueAxis1 ueAxis2 track registryData)
  end.

(** The loop as [processData] runs it for the accepted jet [jet]: the
    cone radius and the two axes come from the jet. *)
Definition ueLoopOfJet (jet : PseudoJet) (tracks : list Track)
  (registryData : Registry) : Registry :=
  ueLoop (coneRadiusOf jet) (ueAxis1 (jetAxisOf jet)) (ueAxis2 (jetAxisOf jet))
    tracks registryData.

End UnderlyingEvent.

(** The jet-pt threshold of [processData] (lines 586-589): the
    background-subtracted pt goes through [getCorrectedPt] and the jet is
    skipped when the result is below [minJetPt]. *)
Definition jetBelowThreshold {Rng : Type} (cfg : Config) (jet : PseudoJet)
  (rhoPerp rhoMPerp : R) (responseMatrix : option (TH2 Rng)) (gRandom : Rng)
  : bool * Rng * Log :=
  let jetMinusBkg_pt := doRhoAreaSub_pt jet rhoPerp rhoMPerp in
  let '(ptCorrected, gRandom', log) :=
    getCorrectedPt jetMinusBkg_pt responseMatrix gRandom in
  (Dbl.ltb ptCorrected (minJetPt cfg), gRandom', log).

(** ** Sample objects

    A response matrix of ten bins of width [10] on [[0, 100)]: the
    projections of bins [1] to [5] are empty, those of the other bins
    hold three entries and draw the offset [1/2], moving the generator
    (a counter) on by one. *)
Definition sampleProjection (binX : Z) : TH1D nat :=
  if (binX <=? 5)%Z then mkTH1D 0 (fun g => (0, g))
  else mkTH1D 3 (fun g => (1 / 2, S g)).

Definition sampleMatrix : TH2 nat :=
  mkTH2 (fixedBins 10 0 100) (fun firstybin _ => sampleProjection firstybin).

(** The configuration with the default value of every [Configurable],
    and a negative track that passes the selections. *)
Definition defaultConfig : Config :=
  {| minJetPt := 10;
     requirePvContributor := false;
     applyItsPid := true;
     minItsNclusters := 5;
     minTpcNcrossedRows := 80;
     minTpcNcrossedRowsOverFindable := 8 / 10;
     maxChiSquareTpc := 4;
     maxChiSquareIts := 36;
     minPt := 3 / 10;
     minEta := - (8 / 10);
     maxEta := 8 / 10;
     maxDcaxy := 5 / 100;
     maxDcaz := 5 / 100;
     minNsigmaTpc := - 3;
     maxNsigmaTpc := 3;
     ptMaxItsPidProt := 1;
     ptMaxItsPidDeut := 1;
     ptMaxItsPidHel := 1;
     nSigmaItsMin := - 2;
     nSigmaItsMax := 2 |}.

Definition sampleTrack : Track :=
  {| isPVContributor := true;
     hasITS := true;
     itsNCls := 7;
     hasTPC := true;
     tpcNClsCrossedRows := 120;
     tpcNClsFindable := 130;
     tpcChi2NCl := 2;
     itsChi2NCl := 5;
     eta := 0;
     phi := 0;
     pt := 2;
     sign := -1;
     dcaXY := 1 / 100;
     dcaZ := 1 / 100;
     hasTOF := true;
     tpcNSigmaPr := 0;
     tofNSigmaPr := 0;
     tpcNSigmaDe := 0;
     tofNSigmaDe := 0;
     tpcNSigmaHe := 0 |}.

(** ** Track rows with the further columns the other functions read

    A row of [FullNucleiTracks] carries, next to the columns of [Track],
    the ITS cluster map and the momentum components; [energy] is the
    energy of the track under a mass hypothesis. *)

Record FullTrack := mkFullTrack {
  row : Track;
  itsClusterMap : Z;
  px : R;
  py : R;
  pz : R;
  energy : R -> R
}.

(** The value of an [int] expression: 32 bits, two's complement. *)
Definition wrapInt (z : Z) : Z := ((z + 2 ^ 31) mod 2 ^ 32 - 2 ^ 31)%Z.

(** [a << ibit] on [int].  C++ defines the shift for a count from [0] to
    [31]; for any other count the result is undefined, and is taken here
    as the x86-64 target computes it, with the count modulo [32].  The
    statements below keep to the counts from [0] to [31]. *)
Definition shiftLeftInt (a ibit : Z) : Z :=
  wrapInt (Z.shiftl a (ibit mod 32)).

(** [track.itsClusterMap() & (1 << ibit)], converted to [bool]; the
    cluster map is a [uint8_t], promoted to [int] for the [&]. *)
Definition hasITSHit (track : FullTrack) (layer : Z) : bool :=
  let ibit := (layer - 1)%Z in
  negb (Z.land (itsClusterMap track) (shiftLeftInt 1 ibit) =? 0)%Z.

(** [std::pow(track.pt(), 1.1)] is reached with [pt >= 0.1] only, where
    it is the power function [Rpower] of the reals. *)
Definition passedTrackSelectionForJetReconstruction (track : FullTrack)
  : bool :=
  let minTpcCr := 70%Z in
  let minCrFindable := 0.8 in
  let maxChi2Tpc := 4 in
  let maxChi2Its := 36 in
  let maxPseudorapidity := 0.8 in
  let minPtTrack := 0.1 in
  let dcaxyMaxTrackPar0 := 0.0105 in
  let dcaxyMaxTrackPar1 := 0.035 in
  let dcaxyMaxTrackPar2 := 1.1 in
  let dcazMaxTrack := 2 in
  if negb (hasITS (row track)) then false
  else if negb (hasITSHit track 1) && negb (hasITSHit track 2)
          && negb (hasITSHit track 3) then false
  else if negb (hasTPC (row track)) then false
  else if (tpcNClsCrossedRows (row track) <? minTpcCr)%Z then false
  else if Quotient_ltb
            (divCounts (tpcNClsCrossedRows (row track))
               (tpcNClsFindable (row track))) minCrFindable
       then false
  else if Dbl.gtb (tpcChi2NCl (row track)) maxChi2Tpc then false
  else if Dbl.gtb (itsChi2NCl (row track)) maxChi2Its then false
  else if Dbl.ltb (eta (row track)) (- maxPseudorapidity)
          || Dbl.gtb (eta (row track)) maxPseudorapidity then false
  else if Dbl.ltb (pt (row track)) minPtTrack then false
  else if Dbl.gtb (Rabs (dcaXY (row track)))
            (dcaxyMaxTrackPar0
             + dcaxyMaxTrackPar1 / Rpower (pt (row track)) dcaxyMaxTrackPar2)
       then false
  else if Dbl.gtb (Rabs (dcaZ (row track))) dcazMaxTrack then false
  else true.

(** ** The particles handed to the jet finder *)

(** A [fastjet::PseudoJet] built from a four-momentum, with its user
    index. *)
Record FjParticle := mkFjParticle {
  fj_px : R;
  fj_py : R;
  fj_pz : R;
  fj_E : R;
  user_index : Z
}.

(** The loop over the reconstructed tracks of [processData] (lines
    552-563), from the values [id] and [fjParticles] have when it is
    entered. *)
Fixpoint collectParticles (MassPionCharged : R) (tracks : list FullTrack)
  (id : Z) (fjParticles : list FjParticle) : Z * list FjParticle :=
  match tracks with
  | [] => (id, fjParticles)
  | track :: rest =>
    let id := (id + 1)%Z in
    if negb (passedTrackSelectionForJetReconstruction track) then
      collectParticles MassPionCharged rest id fjParticles
    else
      (* 4-momentum representation of a particle *)
      let fourMomentum :=
        mkFjParticle (px track) (py track) (pz track)
          (energy track MassPionCharged) id in
      collectParticles MassPionCharged rest id (fjParticles ++ [fourMomentum])
  end.

(** [tracks.iteratorAt(i)]: the row at position [i] of the table; no row
    outside of it. *)
Definition iteratorAt {A : Type} (table : list A) (i : Z) : option A :=
  if (i <? 0)%Z then None else nth_error table (Z.to_nat i).

(** ** Event rejection *)

(** [shouldRejectEvent]: [dis(gen)] draws an integer from [0] to [99] and
    moves the generator on; the state of the generator is passed in and
    out. *)
Definition shouldRejectEvent {Gen : Type} (rejectionPercentage : Z)
  (dis : Gen -> Z * Gen) (gen : Gen) : bool * Gen :=
  let (randomNumber, gen') := dis gen in
  if (randomNumber >? rejectionPercentage)%Z then (false, gen') (* accept event *)
  else (true, gen') (* reject event *).

(** The hundred values the distribution [dis(0, 99)] can give. *)
Definition drawValues : list Z := map Z.of_nat (seq 0 100).

(** ** The loop over the jet constituents of [processData] *)

Section JetConstituents.

Variable nSigmaITS : PID -> Track -> R.
Variable cfg : Config.

(** One iteration of the loop over [jetConstituents] (lines 605-679),
    for the track behind the constituent. *)
Definition jetTrack (track : Track) (registryData : Registry) : Registry :=
  (* get corresponding track and apply track selection criteria *)
  if negb (passedTrackSelection cfg track) then registryData
  else
    (* variables *)
    let nsigmaTPCPr := tpcNSigmaPr track in
    let nsigmaTOFPr := tofNSigmaPr track in
    let nsigmaTPCDe := tpcNSigmaDe track in
    let nsigmaTOFDe := tofNSigmaDe track in
    let nsigmaTPCHe := tpcNSigmaHe track in
    let pt := pt track in
    let dcaxy := dcaXY track in
    let dcaz := dcaZ track in
    (* fill DCA distribution for antiprotons *)
    let registryData :=
      if (sign track <? 0)%Z && isHighPurityAntiproton track
         && Dbl.ltb (Rabs dcaz) (maxDcaz cfg)
      then fill registryData "antiproton_dca_jet" [pt; dcaxy]
      else registryData in
    (* DCA selections *)
    if Dbl.gtb (Rabs dcaxy) (maxDcaxy cfg) || Dbl.gtb (Rabs dcaz) (maxDcaz cfg)
    then registryData
    else
      (* particle identification using the ITS cluster size *)
      let passedItsPidProt := false in
      let passedItsPidDeut := false in
      let passedItsPidHel := false in
      let passedItsPidProt :=
        if Dbl.gtb (nSigmaITS Proton track) (nSigmaItsMin cfg)
           && Dbl.ltb (nSigmaITS Proton track) (nSigmaItsMax cfg)
        then true else passedItsPidProt in
      let passedItsPidDeut :=
        if Dbl.gtb (nSigmaITS Deuteron track) (nSigmaItsMin cfg)
           && Dbl.ltb (nSigmaITS Deuteron track) (nSigmaItsMax cfg)
        then true else passedItsPidDeut in
      let passedItsPidHel :=
        if Dbl.gtb (nSigmaITS Helium3 track) (nSigmaItsMin cfg)
           && Dbl.ltb (nSigmaITS Helium3 track) (nSigmaItsMax cfg)
        then true else passedItsPidHel in
      let passedItsPidProt :=
        if negb (applyItsPid cfg) then true else passedItsPidProt in
      let passedItsPidDeut :=
        if negb (applyItsPid cfg) then true else passedItsPidDeut in
      let passedItsPidHel :=
        if negb (applyItsPid cfg) then true else passedItsPidHel in
      let passedItsPidProt :=
        if Dbl.gtb pt (ptMaxItsPidProt cfg) then true else passedItsPidProt in
      let passedItsPidDeut :=
        if Dbl.gtb pt (ptMaxItsPidDeut cfg) then true else passedItsPidDeut in
      let passedItsPidHel :=
        if Dbl.gtb (2 * pt) (ptMaxItsPidHel cfg) then true
        else passedItsPidHel in
      (* antimatter *)
      let registryData :=
        if (sign track <? 0)%Z then
          let registryData :=
            if passedItsPidProt then
              let registryData :=
                fill registryData "antiproton_jet_tpc" [pt; nsigmaTPCPr] in
              if Dbl.gtb nsigmaTPCPr (minNsigmaTpc cfg)
                 && Dbl.ltb nsigmaTPCPr (maxNsigmaTpc cfg) && hasTOF track
              then fill registryData "antiproton_jet_tof" [pt; nsigmaTOFPr]
              else registryData
            else registryData in
          let registryData :=
            if passedItsPidDeut then
              let registryData :=
                fill registryData "antideuteron_jet_tpc" [pt; nsigmaTPCDe] in
              if Dbl.gtb nsigmaTPCDe (minNsigmaTpc cfg)
                 && Dbl.ltb nsigmaTPCDe (maxNsigmaTpc cfg) && hasTOF track
              then fill registryData "antideuteron_jet_tof" [pt; nsigmaTOFDe]
              else registryData
            else registryData in
          if passedItsPidHel then
            fill registryData "antihelium3_jet_tpc" [2 * pt; nsigmaTPCHe]
          else registryData
        else registryData in
      (* matter *)
      if (sign track >? 0)%Z then
        let registryData :=
          if passedItsPidDeut && Dbl.gtb nsigmaTPCDe (minNsigmaTpc cfg)
             && Dbl.ltb nsigmaTPCDe (maxNsigmaTpc cfg) && hasTOF track
          then fill registryData "deuteron_jet_tof" [pt; nsigmaTOFDe]
          else registryData in
        if passedItsPidHel then
          fill registryData "helium3_jet_tpc" [2 * pt; nsigmaTPCHe]
        else registryData
      else registryData.

(** The loop: each constituent is looked up in [tracks] by its user
    index.  The indices are positions in [tracks]; a constituent whose
    index is no position of the table has no track to look at and is
    passed over. *)
Fixpoint jetLoop (tracks : list FullTrack) (jetConstituents : list FjParticle)
  (registryData : Registry) : Registry :=
  match jetConstituents with
  | [] => registryData
  | particle :: rest =>
    match iteratorAt tracks (user_index particle) with
    | Some track => jetLoop tracks rest (jetTrack (row track) registryData)
    | None => jetLoop tracks rest registryData
    end
  end.

End JetConstituents.

(** The histogram of the underlying event that mirrors a histogram of
    the jet. *)
Definition ueHistOf (name : string) : string :=
  if string_dec name "antiproton_dca_jet" then "antiproton_dca_ue"
  else if string_dec name "antiproton_jet_tpc" then "antiproton_ue_tpc"
  else if string_dec name "antiproton_jet_tof" then "antiproton_ue_tof"
  else if string_dec name "antideuteron_jet_tpc" then "antideuteron_ue_tpc"
  else if string_dec name "antideuteron_jet_tof" then "antideuteron_ue_tof"
  else if string_dec name "antihelium3_jet_tpc" then "antihelium3_ue_tpc"
  else if string_dec name "deuteron_jet_tof" then "deuteron_ue_tof"
  else if string_dec name "helium3_jet_tpc" then "helium3_ue_tpc"
  else name.

Definition asUeFill (f : Fill) : Fill :=
  mkFill (ueHistOf (fill_hist f)) (fill_values f).

(** The histograms the two loops fill. *)
Definition jetHists : list string :=
  ["antiproton_dca_jet"%string; "antiproton_jet_tpc"%string; "antiproton_jet_tof"%string;
   "antideuteron_jet_tpc"%string; "antideuteron_jet_tof"%string; "antihelium3_jet_tpc"%string;
   "deuteron_jet_tof"%string; "helium3_jet_tpc"%string].

Definition ueHists : list string :=
  ["antiproton_dca_ue"%string; "antiproton_ue_tpc"%string; "antiproton_ue_tof"%string;
   "antideuteron_ue_tpc"%string; "antideuteron_ue_tof"%string; "antihelium3_ue_tpc"%string;
   "deuteron_ue_tof"%string; "helium3_ue_tpc"%string].

(** ** [processData] *)

Record Collision := mkCollision { sel8 : bool; posZ : R }.

(** A jet as the jet finder returns it: its kinematics and area, and its
    constituents. *)
Record Jet := mkJet {
  asPseudoJet : PseudoJet;
  constituents : list FjParticle
}.

(** The [Configurable]s of the event loop. *)
Record EventConfig := mkEventConfig {
  rejectEvents : bool;
  rejectionPercentage : Z;
  zVtx : R;
  rJet : R;
  deltaEtaEdge : R;
  minNsigmaTof : R;
  maxNsigmaTof : R
}.

(** What a call of [processData] reads and writes besides its
    arguments: the registry, the generator of [shouldRejectEvent], the
    generator [gRandom] of ROOT, and the log. *)
Record DataState (Gen Rng : Type) := mkDataState {
  registryData : Registry;
  gen : Gen;
  gRandom : Rng;
  logged : Log
}.

Arguments mkDataState {Gen Rng} _ _ _ _.
Arguments registryData {Gen Rng} _.
Arguments gen {Gen Rng} _.
Arguments gRandom {Gen Rng} _.
Arguments logged {Gen Rng} _.

(** The values a histogram received, in the order of the fills. *)
Definition fillsOf (name : string) (registry : Registry) : list (list R) :=
  map fill_values
    (filter (fun f => if string_dec (fill_hist f) name then true else false)
       registry).

Section ProcessData.

Variables Gen Rng : Type.

(** Library parts: the integer distribution of [shouldRejectEvent]; the
    functions of [TVector3]; the ITS response; the mass of the charged
    pion; the jet finder ([sorted_by_pt] of the inclusive jets of the
    anti-kt clustering with resolution [rJet]); the background
    estimator and subtractor of [JetBkgSubUtils]. *)
Variable dis : Gen -> Z * Gen.
Variables Eta Phi : TVector3 -> R.
Variable nSigmaITS : PID -> Track -> R.
Variable MassPionCharged : R.
Variable clusterJets : R -> list FjParticle -> list Jet.
Variable estimateRhoPerpCone : list FjParticle -> list Jet -> R * R.
Variable doRhoAreaSub : PseudoJet -> R -> R -> PseudoJet.

Variable cfg : Config.
Variable ecfg : EventConfig.
Variable responseMatrix : option (TH2 Rng).

(** One iteration of the loop over the reconstructed jets (lines
    579-766); the flag [isAtLeastOneJetSelected] goes along with the
    state. *)
Definition processJet (tracks : list FullTrack) (rhoPerp rhoMPerp : R)
  (jet : Jet) (st : DataState Gen Rng * bool) : DataState Gen Rng * bool :=
  let (s, isAtLeastOneJetSelected) := st in
  (* jet must be fully contained in the acceptance *)
  if Dbl.gtb (Rabs (jet_eta (asPseudoJet jet)) + rJet ecfg)
             (maxEta cfg - deltaEtaEdge ecfg)
  then st
  else
    (* jet pt must be larger than threshold *)
    let jetForSub := asPseudoJet jet in
    let jetMinusBkg := doRhoAreaSub jetForSub rhoPerp rhoMPerp in
    let '(ptCorrected, gRandom', log1) :=
      getCorrectedPt (jet_pt jetMinusBkg) responseMatrix (gRandom s) in
    if Dbl.ltb ptCorrected (minJetPt cfg) then
      (mkDataState (registryData s) (gen s) gRandom' (logged s ++ log1),
       isAtLeastOneJetSelected)
    else
      let isAtLeastOneJetSelected := true in
      (* perpendicular cone *)
      let coneRadius := sqrt (jet_area (asPseudoJet jet) / PI) in
      let jetAxis :=
        mkTVector3 (jet_px (asPseudoJet jet)) (jet_py (asPseudoJet jet))
          (jet_pz (asPseudoJet jet)) in
      let ueAxis1 := mkTVector3 0 0 0 in
      let ueAxis2 := mkTVector3 0 0 0 in
      let (ueAxis1, log2) := getPerpendicularAxis jetAxis ueAxis1 1 in
      let (ueAxis2, log3) := getPerpendicularAxis jetAxis ueAxis2 (-1) in
      (* get jet constituents *)
      let jetConstituents := constituents jet in
      (* loop over jet constituents *)
      let registry :=
        jetLoop nSigmaITS cfg tracks jetConstituents (registryData s) in
      (* underlying event *)
      let registry :=
        ueLoop Eta Phi nSigmaITS cfg coneRadius ueAxis1 ueAxis2
          (map row tracks) registry in
      (mkDataState registry (gen s) gRandom'
         (logged s ++ log1 ++ log2 ++ log3),
       isAtLeastOneJetSelected).

Definition processData (collision : Collision) (tracks : list FullTrack)
  (s : DataState Gen Rng) : DataState Gen Rng :=
  let rejection :=
    if rejectEvents ecfg then
      (* event counter: before event rejection *)
      let registry := fill (registryData s) "number_of_rejected_events" [0.5] in
      let (rejected, gen') :=
        shouldRejectEvent (rejectionPercentage ecfg) dis (gen s) in
      if rejected then
        (true, mkDataState registry gen' (gRandom s) (logged s))
      else
        (* event counter: after event rejection *)
        (false,
         mkDataState (fill registry "number_of_rejected_events" [1.5]) gen'
           (gRandom s) (logged s))
    else (false, s) in
  let (rejected, s) := rejection in
  if rejected then s
  else
    (* event counter: before event selection *)
    let registry := fill (registryData s) "number_of_events_data" [0.5] in
    (* event selection *)
    if negb (sel8 collision) || Dbl.gtb (Rabs (posZ collision)) (zVtx ecfg)
    then mkDataState registry (gen s) (gRandom s) (logged s)
    else
      (* event counter: after event selection *)
      let registry := fill registry "number_of_events_data" [1.5] in
      (* loop over reconstructed tracks *)
      let (id, fjParticles) :=
        collectParticles MassPionCharged tracks (-1) [] in
      (* reject empty events *)
      if (List.length fjParticles <? 1)%nat
      then mkDataState registry (gen s) (gRandom s) (logged s)
      else
        let registry := fill registry "number_of_events_data" [2.5] in
        (* cluster particles using the anti-kt algorithm *)
        let jets := clusterJets (rJet ecfg) fjParticles in
        let (rhoPerp, rhoMPerp) := estimateRhoPerpCone fjParticles jets in
        (* loop over reconstructed jets *)
        let isAtLeastOneJetSelected := false in
        let (s', isAtLeastOneJetSelected) :=
          fold_left (fun st jet => processJet tracks rhoPerp rhoMPerp jet st)
            jets
            (mkDataState registry (gen s) (gRandom s) (logged s),
             isAtLeastOneJetSelected) in
        if isAtLeastOneJetSelected then
          mkDataState
            (fill (registryData s') "number_of_events_data" [3.5])
            (gen s') (gRandom s') (logged s')
        else s'.

End ProcessData.

(** ** Calibration histograms from the CCDB

    [init] fetches the reweighting maps and the response matrix.  The
    functions that do it log with string arguments and also at level
    [info]. *)

Inductive LogLevel := info | severity (s : Severity).

Record Message := LOGPs {
  msg_level : LogLevel;
  msg_format : string;
  msg_arg : string
}.

Section Calibration.

Variable Rng : Type.

(** A [TObject] of a [TList]: its name and, when its class inherits from
    [TH2F], the histogram it is. *)
Record TObject := mkTObject {
  GetName : string;
  asTH2F : option (TH2 Rng)
}.

(** [obj->InheritsFrom(TH2F::Class())] *)
Definition InheritsFromTH2F (obj : TObject) : bool :=
  match asTH2F obj with Some _ => true | None => false end.

Definition TList := list TObject.

(** [l->FindObject(name)]: the first object of the list with that name,
    null when there is none. *)
Definition FindObject (l : TList) (name : string) : option TObject :=
  find (fun obj => String.eqb (GetName obj) name) l.

(** The three histogram pointers of the struct.  A [static_cast] keeps
    the object pointed to, whatever its class. *)
Record Members := mkMembers {
  twoDweightsAntipJet : option TObject;
  twoDweightsAntipUe : option TObject;
  responseMatrix : option TObject
}.

(** [ccdbObj->get<TList>(path)]: the list stored under [path], null when
    there is none. *)
Variable ccdbGet : string -> option TList.

Definition getPtUnfoldingHistogram (filepath histoNamePtUnfolding : string)
  (m : Members) : Members * list Message :=
  match ccdbGet filepath with
  | None =>
    (m, [LOGPs (severity error) "Could not open the file {}" filepath])
  | Some l =>
    let obj := FindObject l histoNamePtUnfolding in
    match obj with
    | None =>
      (m, [LOGPs (severity error) "Could not find a valid TH2F histogram {}"
             histoNamePtUnfolding])
    | Some o =>
      if negb (InheritsFromTH2F o) then
        (m, [LOGPs (severity error) "Could not find a valid TH2F histogram {}"
               histoNamePtUnfolding])
      else
        (mkMembers (twoDweightsAntipJet m) (twoDweightsAntipUe m) obj,
         [LOGPs info "Opened histogram {}" histoNamePtUnfolding])
    end
  end.

Definition getReweightingHistograms
  (filepath histname_antip_jet histname_antip_ue : string) (m : Members)
  : Members * list Message :=
  match ccdbGet filepath with
  | None =>
    (m, [LOGPs (severity error) "Could not open the file {}" filepath])
  | Some l =>
    let m :=
      mkMembers (FindObject l (histname_antip_jet ++ "_antiproton"))
        (twoDweightsAntipUe m) (responseMatrix m) in
    match twoDweightsAntipJet m with
    | None =>
      (m, [LOGPs (severity error) "Could not open histogram {}"
             (histname_antip_jet ++ "_antiproton")])
    | Some _ =>
      let m :=
        mkMembers (twoDweightsAntipJet m)
          (FindObject l (histname_antip_ue ++ "_antiproton"))
          (responseMatrix m) in
      match twoDweightsAntipUe m with
      | None =>
        (m, [LOGPs (severity error) "Could not open histogram {}"
               (histname_antip_ue ++ "_antiproton")])
      | Some _ =>
        (m, [LOGPs info "Opened histogram {}"
               (histname_antip_jet ++ "_antiproton");
             LOGPs info "Opened histogram {}"
               (histname_antip_ue ++ "_antiproton")])
      end
    end
  end.

(** The [Configurable]s of the calibration. *)
Record CalibConfig := mkCalibConfig {
  applyReweighting : bool;
  pathToFile : string;
  histoNameWeightAntipJet : string;
  histoNameWeightAntipUe : string;
  applyPtUnfolding : bool;
  pathToFilePtUnfolding : string;
  histoNamePtUnfolding : string
}.

(** The part of [init] that sets the three pointers (lines 146-158);
    [m] holds what the pointers hold when [init] is entered. *)
Definition init_calibration (c : CalibConfig) (m : Members)
  : Members * list Message :=
  let (m, log1) :=
    if applyReweighting c then
      getReweightingHistograms (pathToFile c) (histoNameWeightAntipJet c)
        (histoNameWeightAntipUe c) m
    else (mkMembers None None (responseMatrix m), []) in
  let (m, log2) :=
    if applyPtUnfolding c then
      getPtUnfoldingHistogram (pathToFilePtUnfolding c) (histoNamePtUnfolding c)
        m
    else (mkMembers (twoDweightsAntipJet m) (twoDweightsAntipUe m) None, []) in
  (m, log1 ++ log2).

(** The response matrix as [getCorrectedPt] receives it. *)
Definition responseMatrixOf (m : Members) : option (TH2 Rng) :=
  match responseMatrix m with
  | Some obj => asTH2F obj
  | None => None
  end.

End Calibration.

Arguments GetName {Rng} _.
Arguments asTH2F {Rng} _.
Arguments mkTObject {Rng} _ _.
Arguments InheritsFromTH2F {Rng} _.
Arguments FindObject {Rng} _ _.
Arguments mkMembers {Rng} _ _ _.
Arguments twoDweightsAntipJet {Rng} _.
Arguments twoDweightsAntipUe {Rng} _.
Arguments responseMatrix {Rng} _.
Arguments getPtUnfoldingHistogram {Rng} _ _ _ _.
Arguments getReweightingHistograms {Rng} _ _ _ _ _.
Arguments init_calibration {Rng} _ _ _.
Arguments responseMatrixOf {Rng} _.

(** The histograms [init] adds to [registryData] when [doprocessData] is
    set (lines 185-214), by name. *)
Definition bookedData : list string :=
  ["number_of_events_data"%string; "number_of_rejected_events"%string;
   "antiproton_jet_tpc"%string; "antiproton_jet_tof"%string;
   "antiproton_ue_tpc"%string; "antiproton_ue_tof"%string;
   "antiproton_dca_jet"%string; "antiproton_dca_ue"%string;
   "antideuteron_jet_tpc"%string; "antideuteron_jet_tof"%string;
   "antideuteron_ue_tpc"%string; "antideuteron_ue_tof"%string;
   "deuteron_jet_tof"%string; "deuteron_ue_tof"%string;
   "antihelium3_jet_tpc"%string; "antihelium3_ue_tpc"%string;
   "helium3_jet_tpc"%string; "helium3_ue_tpc"%string].

(** ** The perpendicular cones in [processQC] *)

Section QualityControl.

Variables Eta Phi : TVector3 -> R.

(** One iteration of the loop over particles in perpendicular cones
    (lines 848-867), on the two accumulators and the registry. *)
Definition qcUeTrack (coneRadius : R) (ueAxis1 ueAxis2 : TVector3)
  (track : FullTrack) (st : R * R * Registry) : R * R * Registry :=
  let '(nParticlesPerp, ptPerp, registryQC) := st in
  if negb (passedTrackSelectionForJetReconstruction track) then st
  else
    let deltaEtaUe1 := eta (row track) - Eta ueAxis1 in
    let deltaPhiUe1 := getDeltaPhi (phi (row track)) (Phi ueAxis1) in
    let deltaRUe1 :=
      sqrt (deltaEtaUe1 * deltaEtaUe1 + deltaPhiUe1 * deltaPhiUe1) in
    let deltaEtaUe2 := eta (row track) - Eta ueAxis2 in
    let deltaPhiUe2 := getDeltaPhi (phi (row track)) (Phi ueAxis2) in
    let deltaRUe2 :=
      sqrt (deltaEtaUe2 * deltaEtaUe2 + deltaPhiUe2 * deltaPhiUe2) in
    if Dbl.gtb deltaRUe1 coneRadius && Dbl.gtb deltaRUe2 coneRadius then st
    else
      let ptPerp := ptPerp + pt (row track) in
      let nParticlesPerp := nParticlesPerp + 1 in
      let registryQC :=
        fill registryQC "deltaEta_deltaPhi_ue" [deltaEtaUe1; deltaPhiUe1] in
      let registryQC :=
        fill registryQC "deltaEta_deltaPhi_ue" [deltaEtaUe2; deltaPhiUe2] in
      let registryQC :=
        fill registryQC "eta_phi_ue" [eta (row track); phi (row track)] in
      (nParticlesPerp, ptPerp, registryQC).

(** The loop with the three fills that follow it (lines 846-871);
    [nConstituents] is [jetConstituents.size()]. *)
Definition qcUeLoop (coneRadius : R) (ueAxis1 ueAxis2 : TVector3)
  (nConstituents : nat) (tracks : list FullTrack) (registryQC : Registry)
  : Registry :=
  let nParticlesPerp := 0 in
  let ptPerp := 0 in
  let '(nParticlesPerp, ptPerp, registryQC) :=
    fold_left (fun st track => qcUeTrack coneRadius ueAxis1 ueAxis2 track st)
      tracks (nParticlesPerp, ptPerp, registryQC) in
  let registryQC := fill registryQC "NchUE" [0.5 * nParticlesPerp] in
  let registryQC :=
    fill registryQC "NchJet" [INR nConstituents - 0.5 * nParticlesPerp] in
  fill registryQC "sumPtUE" [0.5 * ptPerp].

(** The tracks the loop counts. *)
Definition inPerpCones (coneRadius : R) (ueAxis1 ueAxis2 : TVector3)
  (track : FullTrack) : bool :=
  passedTrackSelectionForJetReconstruction track
  && negb (outsideUeCones Eta Phi coneRadius ueAxis1 ueAxis2 (row track)).

End QualityControl.

(** ** The systematic variations of [processSystematicsData] *)

Definition nSystematics : nat := 10.
Definition itsNclustersSyst : list Z := [5; 6; 5; 4; 5; 3; 5; 6; 3; 4]%Z.
Definition tpcNcrossedRowsSyst : list R :=
  [100; 85; 80; 110; 95; 90; 105; 95; 100; 105].
Definition dcaxySyst : list R :=
  [0.05; 0.07; 0.10; 0.03; 0.06; 0.15; 0.08; 0.04; 0.09; 0.10].
Definition dcazSyst : list R :=
  [0.1; 0.15; 0.3; 0.075; 0.12; 0.18; 0.2; 0.1; 0.15; 0.2].

Section Systematics.

Variable nSigmaITS : PID -> Track -> R.
Variable cfg : Config.

(** The body of [for (int i = 0; i < nSystematics; i++)] in the loop
    over the jet constituents (lines 1379-1431), for the track behind the
    constituent; [i] runs below [nSystematics], inside the arrays. *)
Definition systTrack (track : Track) (i : nat) (registryData : Registry)
  : Registry :=
  (* variables *)
  let nsigmaTPCPr := tpcNSigmaPr track in
  let nsigmaTOFPr := tofNSigmaPr track in
  let nsigmaTPCDe := tpcNSigmaDe track in
  let nsigmaTOFDe := tofNSigmaDe track in
  let pt := pt track in
  let dcaxy := dcaXY track in
  let dcaz := dcaZ track in
  if requirePvContributor cfg && negb (isPVContributor track) then registryData
  else if negb (hasITS track) then registryData
  else if (itsNCls track <? nth i itsNclustersSyst 0)%Z then registryData
  else if negb (hasTPC track) then registryData
  else if Dbl.ltb (IZR (tpcNClsCrossedRows track)) (nth i tpcNcrossedRowsSyst 0)
       then registryData
  else if Quotient_ltb
            (divCounts (tpcNClsCrossedRows track) (tpcNClsFindable track))
            (minTpcNcrossedRowsOverFindable cfg) then registryData
  else if Dbl.gtb (tpcChi2NCl track) (maxChiSquareTpc cfg) then registryData
  else if Dbl.gtb (itsChi2NCl track) (maxChiSquareIts cfg) then registryData
  else if Dbl.ltb (eta track) (minEta cfg) || Dbl.gtb (eta track) (maxEta cfg)
       then registryData
  else if Dbl.ltb pt (minPt cfg) then registryData
  else if Dbl.gtb (Rabs dcaxy) (nth i dcaxySyst 0) then registryData
  else if Dbl.gtb (Rabs dcaz) (nth i dcazSyst 0) then registryData
  else
    let passedItsPidProt := false in
    let passedItsPidDeut := false in
    let passedItsPidProt :=
      if Dbl.gtb (nSigmaITS Proton track) (nSigmaItsMin cfg)
         && Dbl.ltb (nSigmaITS Proton track) (nSigmaItsMax cfg)
      then true else passedItsPidProt in
    let passedItsPidDeut :=
      if Dbl.gtb (nSigmaITS Deuteron track) (nSigmaItsMin cfg)
         && Dbl.ltb (nSigmaITS Deuteron track) (nSigmaItsMax cfg)
      then true else passedItsPidDeut in
    let passedItsPidProt :=
      if negb (applyItsPid cfg) then true else passedItsPidProt in
    let passedItsPidDeut :=
      if negb (applyItsPid cfg) then true else passedItsPidDeut in
    let passedItsPidProt :=
      if Dbl.gtb pt (ptMaxItsPidProt cfg) then true else passedItsPidProt in
    let passedItsPidDeut :=
      if Dbl.gtb pt (ptMaxItsPidDeut cfg) then true else passedItsPidDeut in
    (* antimatter *)
    if (sign track <? 0)%Z then
      let registryData :=
        if passedItsPidProt then
          let registryData :=
            fill registryData "antiproton_tpc_syst" [pt; nsigmaTPCPr; INR i] in
          if Dbl.gtb nsigmaTPCPr (minNsigmaTpc cfg)
             && Dbl.ltb nsigmaTPCPr (maxNsigmaTpc cfg) && hasTOF track
          then fill registryData "antiproton_tof_syst" [pt; nsigmaTOFPr; INR i]
          else registryData
        else registryData in
      if passedItsPidDeut then
        let registryData :=
          fill registryData "antideuteron_tpc_syst" [pt; nsigmaTPCDe; INR i] in
        if Dbl.gtb nsigmaTPCDe (minNsigmaTpc cfg)
           && Dbl.ltb nsigmaTPCDe (maxNsigmaTpc cfg) && hasTOF track
        then fill registryData "antideuteron_tof_syst" [pt; nsigmaTOFDe; INR i]
        else registryData
      else registryData
    else registryData.

(** The ten variations for one constituent. *)
Definition systVariations (track : Track) (registryData : Registry)
  : Registry :=
  fold_left (fun registry i => systTrack track i registry)
    (seq 0 nSystematics) registryData.

End Systematics.

(** The configuration whose thresholds on the ITS clusters and the TPC
    crossed rows are those of variation [i]. *)
Definition variedConfig (cfg : Config) (i : nat) : Config :=
  {| minJetPt := minJetPt cfg;
     requirePvContributor := requirePvContributor cfg;
     applyItsPid := applyItsPid cfg;
     minItsNclusters := nth i itsNclustersSyst 0%Z;
     minTpcNcrossedRows :=
       nth i [100; 85; 80; 110; 95; 90; 105; 95; 100; 105]%Z 0%Z;
     minTpcNcrossedRowsOverFindable := minTpcNcrossedRowsOverFindable cfg;
     maxChiSquareTpc := maxChiSquareTpc cfg;
     maxChiSquareIts := maxChiSquareIts cfg;
     minPt := minPt cfg;
     minEta := minEta cfg;
     maxEta := maxEta cfg;
     maxDcaxy := nth i dcaxySyst 0;
     maxDcaz := nth i dcazSyst 0;
     minNsigmaTpc := minNsigmaTpc cfg;
     maxNsigmaTpc := maxNsigmaTpc cfg;
     ptMaxItsPidProt := ptMaxItsPidProt cfg;
     ptMaxItsPidDeut := ptMaxItsPidDeut cfg;
     ptMaxItsPidHel := ptMaxItsPidHel cfg;
     nSigmaItsMin := nSigmaItsMin cfg;
     nSigmaItsMax := nSigmaItsMax cfg |}.

(** ** Statements on a registry

    A statement of a loop body as what it does to the registry:
    [registry.fill(...)], [if (c) statement], and one statement after
    another.  A [continue] is [skip] in place of the rest of the body. *)

Definition Statement := Registry -> Registry.

Definition skip : Statement := fun registry => registry.

Definition fillHist (name : string) (values : list R) : Statement :=
  fun registry => fill registry name values.

Definition andThen (first next : Statement) : Statement :=
  fun registry => next (first registry).

Definition when (c : bool) (body : Statement) : Statement :=
  if c then body else skip.

Notation "first ;; next" := (andThen first next)
  (at level 61, right associativity).

(** [for (const auto& item : items) body] *)
Definition forEach {A : Type} (body : A -> Statement) (items : list A)
  : Statement :=
  fun registry => fold_left (fun r item => body item r) items registry.

(** A statement that only adds fills after those made so far. *)
Definition appending (s : Statement) : Prop :=
  forall registry, s registry = registry ++ s [].

(** ** [processEfficiency] *)

(** A generated particle, and a reconstructed track of the simulation
    with the particle it is matched to, if any. *)
Record McParticle := mkMcParticle {
  pdgCode : Z;
  isPhysicalPrimary : bool;
  mc_pt : R;
  mc_eta : R
}.

Record McTrack := mkMcTrack {
  mc_row : Track;
  mcParticle : option McParticle
}.

Definition has_mcParticle (track : McTrack) : bool :=
  match mcParticle track with Some _ => true | None => false end.

Section Efficiency.

(** The particle codes [kProtonBar] (TPDGCode.h) and [Pdg::kDeuteron],
    [Pdg::kHelium3] (o2::constants::physics), and the ITS response. *)
Variables kProtonBar kDeuteron kHelium3 : Z.
Variable nSigmaITS : PID -> Track -> R.
Variable cfg : Config.
Variable ecfg : EventConfig.

(** One iteration of the loop over the generated particles (lines
    892-920).  The labels of a [switch] are distinct, so the first label
    that matches is the one that matches. *)
Definition effGenerated (particle : McParticle) : Statement :=
  if negb (isPhysicalPrimary particle) then skip
  else
    when (pdgCode particle =? kProtonBar)%Z
      (fillHist "antiproton_eta_pt_pythia" [mc_pt particle; mc_eta particle]) ;;
    if Dbl.ltb (mc_eta particle) (minEta cfg)
       || Dbl.gtb (mc_eta particle) (maxEta cfg)
    then skip
    else if (pdgCode particle =? kProtonBar)%Z
      then fillHist "antiproton_incl_gen" [mc_pt particle]
    else if (pdgCode particle =? kDeuteron)%Z
      then fillHist "deuteron_incl_gen" [mc_pt particle]
    else if (pdgCode particle =? - kDeuteron)%Z
      then fillHist "antideuteron_incl_gen" [mc_pt particle]
    else if (pdgCode particle =? kHelium3)%Z
      then fillHist "helium3_incl_gen" [mc_pt particle]
    else if (pdgCode particle =? - kHelium3)%Z
      then fillHist "antihelium3_incl_gen" [mc_pt particle]
    else skip.

(** One iteration of the loop over the reconstructed tracks (lines
    926-1011). *)
Definition effTrack (mcTrack : McTrack) : Statement :=
  let track := mc_row mcTrack in
  (* Track Selection *)
  if negb (passedTrackSelection cfg track) then skip
  else if Dbl.gtb (Rabs (dcaXY track)) (maxDcaxy cfg) then skip
  else if Dbl.gtb (Rabs (dcaZ track)) (maxDcaz cfg) then skip
  else
    (* Get MC Particle *)
    match mcParticle mcTrack with
    | None => skip
    | Some particle =>
      (* Variables *)
      let nsigmaTPCPr := tpcNSigmaPr track in
      let nsigmaTOFPr := tofNSigmaPr track in
      let nsigmaTPCDe := tpcNSigmaDe track in
      let nsigmaTOFDe := tofNSigmaDe track in
      let nsigmaTPCHe := tpcNSigmaHe track in
      (* particle identification using the ITS cluster size *)
      let passedItsPidProt := false in
      let passedItsPidDeut := false in
      let passedItsPidHel := false in
      let passedItsPidProt :=
        if Dbl.gtb (nSigmaITS Proton track) (nSigmaItsMin cfg)
           && Dbl.ltb (nSigmaITS Proton track) (nSigmaItsMax cfg)
        then true else passedItsPidProt in
      let passedItsPidDeut :=
        if Dbl.gtb (nSigmaITS Deuteron track) (nSigmaItsMin cfg)
           && Dbl.ltb (nSigmaITS Deuteron track) (nSigmaItsMax cfg)
        then true else passedItsPidDeut in
      let passedItsPidHel :=
        if Dbl.gtb (nSigmaITS Helium3 track) (nSigmaItsMin cfg)
           && Dbl.ltb (nSigmaITS Helium3 track) (nSigmaItsMax cfg)
        then true else passedItsPidHel in
      let passedItsPidProt :=
        if negb (applyItsPid cfg) then true else passedItsPidProt in
      let passedItsPidDeut :=
        if negb (applyItsPid cfg) then true else passedItsPidDeut in
      let passedItsPidHel :=
        if negb (applyItsPid cfg) then true else passedItsPidHel in
      let passedItsPidProt :=
        if Dbl.gtb (pt track) (ptMaxItsPidProt cfg) then true
        else passedItsPidProt in
      let passedItsPidDeut :=
        if Dbl.gtb (pt track) (ptMaxItsPidDeut cfg) then true
        else passedItsPidDeut in
      let passedItsPidHel :=
        if Dbl.gtb (2 * pt track) (ptMaxItsPidHel cfg) then true
        else passedItsPidHel in
      when (pdgCode particle =? kProtonBar)%Z
        (fillHist "antiproton_incl_all" [pt track]) ;;
      if negb (isPhysicalPrimary particle) then skip
      else
        when (pdgCode particle =? kProtonBar)%Z
          (fillHist "antiproton_incl_prim" [pt track]) ;;
        (* antiprotons *)
        when ((pdgCode particle =? kProtonBar)%Z && passedItsPidProt)
          (when (Dbl.gtb nsigmaTPCPr (minNsigmaTpc cfg)
                 && Dbl.ltb nsigmaTPCPr (maxNsigmaTpc cfg))
             (fillHist "antiproton_incl_rec_tpc" [pt track] ;;
              when (hasTOF track && Dbl.gtb nsigmaTOFPr (minNsigmaTof ecfg)
                    && Dbl.ltb nsigmaTOFPr (maxNsigmaTof ecfg))
                (fillHist "antiproton_incl_rec_tof" [pt track]))) ;;
        (* antideuterons *)
        when ((pdgCode particle =? - kDeuteron)%Z && passedItsPidDeut)
          (when (Dbl.gtb nsigmaTPCDe (minNsigmaTpc cfg)
                 && Dbl.ltb nsigmaTPCDe (maxNsigmaTpc cfg))
             (fillHist "antideuteron_incl_rec_tpc" [pt track] ;;
              when (hasTOF track && Dbl.gtb nsigmaTOFDe (minNsigmaTof ecfg)
                    && Dbl.ltb nsigmaTOFDe (maxNsigmaTof ecfg))
                (fillHist "antideuteron_incl_rec_tof" [pt track]))) ;;
        (* deuterons *)
        when ((pdgCode particle =? kDeuteron)%Z && passedItsPidDeut)
          (when (Dbl.gtb nsigmaTPCDe (minNsigmaTpc cfg)
                 && Dbl.ltb nsigmaTPCDe (maxNsigmaTpc cfg))
             (fillHist "deuteron_incl_rec_tpc" [pt track] ;;
              when (hasTOF track && Dbl.gtb nsigmaTOFDe (minNsigmaTof ecfg)
                    && Dbl.ltb nsigmaTOFDe (maxNsigmaTof ecfg))
                (fillHist "deuteron_incl_rec_tof" [pt track]))) ;;
        (* antihelium3 *)
        when ((pdgCode particle =? - kHelium3)%Z && passedItsPidHel)
          (when (Dbl.gtb nsigmaTPCHe (minNsigmaTpc cfg)
                 && Dbl.ltb nsigmaTPCHe (maxNsigmaTpc cfg))
             (fillHist "antihelium3_incl_rec_tpc" [2 * pt track])) ;;
        (* helium3 *)
        when ((pdgCode particle =? kHelium3)%Z && passedItsPidHel)
          (when (Dbl.gtb nsigmaTPCHe (minNsigmaTpc cfg)
                 && Dbl.ltb nsigmaTPCHe (maxNsigmaTpc cfg))
             (fillHist "helium3_incl_rec_tpc" [2 * pt track]))
    end.

(** One iteration of the loop over the collisions, and the loop. *)
Definition effCollision (mcTracks : list McTrack)
  (mcParticles : list McParticle) (collision : Collision) : Statement :=
  (* event counter before event selection *)
  fillHist "number_of_events_mc" [0.5] ;;
  (* event selection *)
  if negb (sel8 collision) || Dbl.gtb (Rabs (posZ collision)) (zVtx ecfg)
  then skip
  else
    (* event counter after event selection *)
    fillHist "number_of_events_mc" [1.5] ;;
    (* generated *)
    forEach effGenerated mcParticles ;;
    (* Reconstructed Tracks *)
    forEach effTrack mcTracks.

Definition processEfficiency (collisions : list Collision)
  (mcTracks : list McTrack) (mcParticles : list McParticle) : Statement :=
  forEach (effCollision mcTracks mcParticles) collisions.

End Efficiency.

(** * Properties *)

(** ** Boolean comparisons reflect the order of the reals *)

Lemma Dbl_ltb_spec x y : reflect (x < y) (Dbl.ltb x y).
Proof. unfold Dbl.ltb. destruct (Rlt_dec x y); constructor; assumption. Qed.

Lemma Dbl_leb_spec x y : reflect (x <= y) (Dbl.leb x y).
Proof. unfold Dbl.leb. destruct (Rle_dec x y); constructor; assumption. Qed.

Lemma Dbl_eqb_spec x y : reflect (x = y) (Dbl.eqb x y).
Proof. unfold Dbl.eqb. destruct (Req_dec_T x y); constructor; assumption. Qed.

Lemma Dbl_ltb_true x y : x < y -> Dbl.ltb x y = true.
Proof. intro H. destruct (Dbl_ltb_spec x y); [reflexivity | contradiction]. Qed.

Lemma Dbl_ltb_false x y : y <= x -> Dbl.ltb x y = false.
Proof. intro H. destruct (Dbl_ltb_spec x y); [lra | reflexivity]. Qed.

Lemma Dbl_leb_true x y : x <= y -> Dbl.leb x y = true.
Proof. intro H. destruct (Dbl_leb_spec x y); [reflexivity | contradiction]. Qed.

Lemma Dbl_leb_false x y : y < x -> Dbl.leb x y = false.
Proof. intro H. destruct (Dbl_leb_spec x y); [lra | reflexivity]. Qed.

Lemma Dbl_gtb_true x y : y < x -> Dbl.gtb x y = true.
Proof. apply Dbl_ltb_true. Qed.

Lemma Dbl_gtb_false x y : x <= y -> Dbl.gtb x y = false.
Proof. apply Dbl_ltb_false. Qed.

Lemma Dbl_eqb_true x y : x = y -> Dbl.eqb x y = true.
Proof. intro H. destruct (Dbl_eqb_spec x y); [reflexivity | contradiction]. Qed.

Lemma Dbl_eqb_false x y : x <> y -> Dbl.eqb x y = false.
Proof. intro H. destruct (Dbl_eqb_spec x y); [contradiction | reflexivity]. Qed.

Lemma Dbl_neqb_true x y : x <> y -> Dbl.neqb x y = true.
Proof. intro H. unfold Dbl.neqb. now rewrite Dbl_eqb_false. Qed.

Lemma Dbl_neqb_false x y : x = y -> Dbl.neqb x y = false.
Proof. intro H. unfold Dbl.neqb. now rewrite Dbl_eqb_true. Qed.

(** ** The normalization of angles *)

Lemma PI_gt_3 : 3 < PI.
Proof. pose proof PI2_3_2. lra. Qed.

Lemma TwoPI_pos : 0 < TwoPI.
Proof. unfold TwoPI. pose proof PI_RGT_0. lra. Qed.

Lemma Phi_0_2pi_range x : 0 <= Phi_0_2pi x < TwoPI.
Proof.
  unfold Phi_0_2pi.
  pose proof TwoPI_pos as HT.
  destruct (Zfloor_bound (x / TwoPI)) as [Hlo Hhi].
  assert (Hx : x = x / TwoPI * TwoPI) by (field; lra).
  split.
  - apply (Rmult_le_compat_r TwoPI) in Hlo; lra.
  - apply (Rmult_lt_compat_r TwoPI) in Hhi; lra.
Qed.

(** The loop of [Phi_0_2pi] leaves a value already in range as it is. *)
Lemma Phi_0_2pi_id x : 0 <= x < TwoPI -> Phi_0_2pi x = x.
Proof.
  intros [Hlo Hhi]. unfold Phi_0_2pi.
  pose proof TwoPI_pos as HT.
  rewrite (Zfloor_eq 0).
  - simpl. ring.
  - simpl. split.
    + apply Rmult_le_pos; [lra | left; now apply Rinv_0_lt_compat].
    + apply (Rmult_lt_reg_r TwoPI); [lra |].
      replace (x / TwoPI * TwoPI) with x by (field; lra). lra.
Qed.

(** [while (x >= kTWOPI) x -= kTWOPI]: one turn does not change the
    result. *)
Lemma Phi_0_2pi_ge x : Phi_0_2pi (x - TwoPI) = Phi_0_2pi x.
Proof.
  unfold Phi_0_2pi. pose proof TwoPI_pos as HT.
  replace ((x - TwoPI) / TwoPI) with (x / TwoPI + IZR (-1)) by (simpl; field; lra).
  rewrite Zfloor_addz, plus_IZR. simpl. ring.
Qed.

(** [while (x < 0.) x += kTWOPI]: one turn does not change the result. *)
Lemma Phi_0_2pi_lt x : Phi_0_2pi (x + TwoPI) = Phi_0_2pi x.
Proof.
  unfold Phi_0_2pi. pose proof TwoPI_pos as HT.
  replace ((x + TwoPI) / TwoPI) with (x / TwoPI + IZR 1) by (simpl; field; lra).
  rewrite Zfloor_addz, plus_IZR. simpl. ring.
Qed.

Lemma Phi_0_2pi_zero : Phi_0_2pi 0 = 0.
Proof. apply Phi_0_2pi_id. pose proof TwoPI_pos. lra. Qed.

Lemma Phi_0_2pi_TwoPI : Phi_0_2pi TwoPI = 0.
Proof.
  replace TwoPI with (0 + TwoPI) at 1 by ring.
  rewrite Phi_0_2pi_lt. apply Phi_0_2pi_zero.
Qed.

(** ** [getDeltaPhi] *)

Lemma getDeltaPhi_cases a1 a2 :
  let diff := Rabs (Phi_0_2pi a1 - Phi_0_2pi a2) in
  (diff <= PI /\ getDeltaPhi a1 a2 = diff)
  \/ (PI < diff /\ getDeltaPhi a1 a2 = TwoPI - diff).
Proof.
  intro diff. unfold getDeltaPhi. fold diff.
  destruct (Rle_or_lt diff PI) as [H | H].
  - left. split; [exact H |].
    rewrite Dbl_leb_true, Dbl_gtb_false by exact H. reflexivity.
  - right. split; [exact H |].
    rewrite Dbl_gtb_true by exact H. reflexivity.
Qed.

Lemma diff_range a1 a2 :
  0 <= Rabs (Phi_0_2pi a1 - Phi_0_2pi a2) < TwoPI.
Proof.
  pose proof (Phi_0_2pi_range a1). pose proof (Phi_0_2pi_range a2).
  split; [apply Rabs_pos |].
  apply Rabs_def1; lra.
Qed.

Lemma getDeltaPhi_sym a b : getDeltaPhi a b = getDeltaPhi b a.
Proof.
  unfold getDeltaPhi.
  rewrite (Rabs_minus_sym (Phi_0_2pi a) (Phi_0_2pi b)). reflexivity.
Qed.

Lemma getDeltaPhi_range a b : 0 <= getDeltaPhi a b <= PI.
Proof.
  pose proof (diff_range a b) as Hd.
  destruct (getDeltaPhi_cases a b) as [[H ->] | [H ->]];
    unfold TwoPI in *; lra.
Qed.

Lemma getDeltaPhi_same a : getDeltaPhi a a = 0.
Proof.
  destruct (getDeltaPhi_cases a a) as [[H ->] | [H _]].
  - rewrite Rminus_diag. apply Rabs_R0.
  - rewrite Rminus_diag, Rabs_R0 in H. pose proof PI_RGT_0 as Hpi. lra.
Qed.

(** C4: for all real angles [a] and [b], [getDeltaPhi] is symmetric in
    its two arguments and its result lies in the closed range
    [[0, pi]]. *)
Theorem C4_getDeltaPhi_symmetric_bounded :
  forall a b : R,
    getDeltaPhi a b = getDeltaPhi b a /\ 0 <= getDeltaPhi a b <= PI.
Proof.
  intros a b. split; [apply getDeltaPhi_sym | apply getDeltaPhi_range].
Qed.

Lemma getDeltaPhi_refines_spec a b : getDeltaPhi a b = AngularMetric_spec a b.
Proof.
  unfold AngularMetric_spec.
  destruct (getDeltaPhi_cases a b) as [[H ->] | [H ->]];
    destruct (Rlt_dec PI (Rabs (Phi_0_2pi a - Phi_0_2pi b)));
    unfold TwoPI; lra.
Qed.

Lemma getDeltaPhi_wrap_around : getDeltaPhi (1 / 10) (2 * PI - 1 / 10) = 2 / 10.
Proof.
  pose proof PI_gt_3 as Hpi.
  assert (H1 : Phi_0_2pi (1 / 10) = 1 / 10)
    by (apply Phi_0_2pi_id; unfold TwoPI; lra).
  assert (H2 : Phi_0_2pi (2 * PI - 1 / 10) = 2 * PI - 1 / 10)
    by (apply Phi_0_2pi_id; unfold TwoPI; lra).
  assert (Hd : Rabs (Phi_0_2pi (1 / 10) - Phi_0_2pi (2 * PI - 1 / 10))
               = 2 * PI - 2 / 10).
  { rewrite H1, H2, Rabs_left; lra. }
  destruct (getDeltaPhi_cases (1 / 10) (2 * PI - 1 / 10)) as [[H E] | [H E]];
    rewrite Hd in *; unfold TwoPI in *; lra.
Qed.

Lemma getDeltaPhi_zero_TwoPI :
  getDeltaPhi 0 (2 * PI) = 0 /\ getDeltaPhi (2 * PI) 0 = 0.
Proof.
  assert (Hd : Rabs (Phi_0_2pi 0 - Phi_0_2pi (2 * PI)) = 0).
  { fold TwoPI. rewrite Phi_0_2pi_zero, Phi_0_2pi_TwoPI, Rminus_diag.
    apply Rabs_R0. }
  assert (E : getDeltaPhi 0 (2 * PI) = 0).
  { pose proof PI_RGT_0 as Hpi.
    destruct (getDeltaPhi_cases 0 (2 * PI)) as [[H ->] | [H _]];
      rewrite Hd in *; lra. }
  split; [exact E | rewrite getDeltaPhi_sym; exact E].
Qed.

(** C5: [getDeltaPhi] computes the stated cyclic reduction (both angles
    normalized into [[0, 2pi)], absolute difference, [2pi - difference]
    when the difference exceeds [pi], else the difference);
    [getDeltaPhi(0.1, 2pi - 0.1)] is [0.2]; at the boundary values [0]
    and [2pi] the result is [0], and no result exceeds [pi]. *)
Theorem C5_getDeltaPhi_cyclic_reduction :
  (forall a b : R, getDeltaPhi a b = AngularMetric_spec a b)
  /\ (forall a : R, 0 <= Phi_0_2pi a < 2 * PI)
  /\ getDeltaPhi (1 / 10) (2 * PI - 1 / 10) = 2 / 10
  /\ getDeltaPhi 0 (2 * PI) = 0
  /\ getDeltaPhi (2 * PI) 0 = 0
  /\ (forall a b : R, getDeltaPhi a b <= PI).
Proof.
  split; [exact getDeltaPhi_refines_spec |].
  split; [exact Phi_0_2pi_range |].
  split; [exact getDeltaPhi_wrap_around |].
  split; [apply getDeltaPhi_zero_TwoPI |].
  split; [apply getDeltaPhi_zero_TwoPI |].
  intros a b. apply getDeltaPhi_range.
Qed.

(** ** [getPerpendicularAxis], branch by branch *)

Ltac gpa_unfold :=
  unfold getPerpendicularAxis, SetXYZ, zeroVector,
    quad_delta, quad_a, quad_b, quad_c in *;
  cbv zeta.

Lemma gpa_both_zero p u sign :
  fX p = 0 -> fY p = 0 ->
  getPerpendicularAxis p u sign = (zeroVector, []).
Proof.
  intros Hx Hy. gpa_unfold.
  rewrite (Dbl_eqb_true _ _ Hx), (Dbl_eqb_true _ _ Hy). reflexivity.
Qed.

Lemma gpa_px_zero p u sign :
  fX p = 0 -> fY p <> 0 ->
  getPerpendicularAxis p u sign =
    (mkTVector3
       (sign * sqrt (fY p * fY p
                     - (fZ p * fZ p) * (fZ p * fZ p) / (fY p * fY p)))
       (- (fZ p * fZ p) / fY p) (fZ p), []).
Proof.
  intros Hx Hy. gpa_unfold.
  rewrite (Dbl_eqb_true _ _ Hx), (Dbl_eqb_false _ _ Hy),
    (Dbl_neqb_true _ _ Hy).
  reflexivity.
Qed.

Lemma gpa_py_zero p u sign :
  fY p = 0 -> fX p <> 0 ->
  getPerpendicularAxis p u sign =
    (mkTVector3
       (- (fZ p * fZ p) / fX p)
       (sign * sqrt (fX p * fX p
                     - (fZ p * fZ p) * (fZ p * fZ p) / (fX p * fX p)))
       (fZ p), []).
Proof.
  intros Hy Hx. gpa_unfold.
  rewrite (Dbl_eqb_false _ _ Hx), (Dbl_eqb_true _ _ Hy),
    (Dbl_neqb_true _ _ Hx).
  reflexivity.
Qed.

Lemma quad_a_pos p : fX p <> 0 -> 0 < quad_a p.
Proof. intro Hx. unfold quad_a. nra. Qed.

Lemma gpa_general_invalid p u sign :
  fX p <> 0 -> fY p <> 0 -> quad_delta p < 0 ->
  getPerpendicularAxis p u sign =
    (zeroVector, [LOGP warn invalidInputFormat [quad_delta p; quad_a p]]).
Proof.
  intros Hx Hy Hd. gpa_unfold.
  rewrite (Dbl_eqb_false _ _ Hx), (Dbl_eqb_false _ _ Hy),
    (Dbl_ltb_true _ _ Hd).
  reflexivity.
Qed.

Lemma gpa_general p u sign :
  fX p <> 0 -> fY p <> 0 -> 0 <= quad_delta p ->
  getPerpendicularAxis p u sign =
    (let ux := (- quad_b p + sign * sqrt (quad_delta p)) / (2 * quad_a p) in
     mkTVector3 ux ((- (fZ p * fZ p) - fX p * ux) / fY p) (fZ p), []).
Proof.
  intros Hx Hy Hd. pose proof (quad_a_pos p Hx) as Ha.
  assert (Ha' : quad_a p <> 0) by lra.
  gpa_unfold.
  rewrite (Dbl_eqb_false _ _ Hx), (Dbl_eqb_false _ _ Hy),
    (Dbl_ltb_false _ _ Hd), (Dbl_eqb_false _ _ Ha').
  reflexivity.
Qed.

(** The output never depends on the value the out-parameter had. *)
Lemma gpa_overwrites p u u' sign :
  getPerpendicularAxis p u sign = getPerpendicularAxis p u' sign.
Proof. reflexivity. Qed.

(** In the general case both solutions meet the constraint. *)
Lemma gpa_general_constraint p u sign :
  fX p <> 0 -> fY p <> 0 -> 0 <= quad_delta p ->
  let v := fst (getPerpendicularAxis p u sign) in
  fX v * fX p + fY v * fY p = - (fZ p * fZ p) /\ fZ v = fZ p.
Proof.
  intros Hx Hy Hd. pose proof (quad_a_pos p Hx) as Ha.
  rewrite gpa_general by assumption. cbv zeta. simpl.
  split; [field; split; [lra | exact Hy] | reflexivity].
Qed.

(** Each solution is a root of the quadratic, which makes its transverse
    part as long as that of [p]: with [uz = pz] and the constraint above,
    [u] is a vector of the length of [p] at a right angle to [p]. *)
Lemma gpa_general_norm p u sign :
  fX p <> 0 -> fY p <> 0 -> 0 <= quad_delta p -> sign * sign = 1 ->
  let v := fst (getPerpendicularAxis p u sign) in
  quad_a p * (fX v * fX v) + quad_b p * fX v + quad_c p = 0
  /\ fX v * fX v + fY v * fY v = fX p * fX p + fY p * fY p.
Proof.
  intros Hx Hy Hd Hs v.
  pose proof (quad_a_pos p Hx) as Ha.
  pose proof (sqrt_sqrt _ Hd) as Hr.
  destruct (gpa_general_constraint p u sign Hx Hy Hd) as [Hc _].
  fold v in Hc.
  assert (Hux : fX v
                = (- quad_b p + sign * sqrt (quad_delta p)) / (2 * quad_a p)).
  { unfold v. rewrite gpa_general by assumption. reflexivity. }
  assert (Hroot : quad_a p * (fX v * fX v) + quad_b p * fX v + quad_c p = 0).
  { rewrite Hux.
    replace (quad_c p)
      with ((quad_b p * quad_b p - quad_delta p) / (4 * quad_a p))
      by (unfold quad_delta; field; lra).
    set (r := sqrt (quad_delta p)) in *.
    replace (quad_delta p) with (sign * sign * (r * r)) by (rewrite Hs, Hr; ring).
    field. lra. }
  split; [exact Hroot |].
  assert (Hy' : fY v * fY p = - (fZ p * fZ p) - fX v * fX p) by lra.
  assert (E : fY p * fY p * (fX v * fX v + fY v * fY v)
              = fY p * fY p * (fX p * fX p + fY p * fY p)).
  { replace (fY p * fY p * (fX v * fX v + fY v * fY v))
      with (fY p * fY p * (fX v * fX v) + (fY v * fY p) * (fY v * fY p))
      by ring.
    rewrite Hy'. unfold quad_a, quad_b, quad_c in Hroot. nra. }
  apply (Rmult_eq_reg_l (fY p * fY p)); [exact E | nra].
Qed.

(** C1: for every [p] with [px <> 0] and [py <> 0] for which the general
    case is valid (discriminant [>= 0] and [a = px^2 + py^2 <> 0]), the
    outputs [u] for [sign = +1] and [sign = -1] both satisfy
    [ux * px + uy * py = - pz^2] and both have [uz = pz]. *)
Theorem C1_general_case_solutions :
  forall (p u : TVector3),
    fX p <> 0 -> fY p <> 0 -> 0 <= quad_delta p -> quad_a p <> 0 ->
    let up := fst (getPerpendicularAxis p u 1) in
    let um := fst (getPerpendicularAxis p u (-1)) in
    (fX up * fX p + fY up * fY p = - (fZ p * fZ p) /\ fZ up = fZ p)
    /\ (fX um * fX p + fY um * fY p = - (fZ p * fZ p) /\ fZ um = fZ p).
Proof.
  intros p u Hx Hy Hd _. split; apply gpa_general_constraint; assumption.
Qed.

(** The general case at the jet axis [(1, 2, 2)]: [a = 5], [b = 8],
    [c = -4], [delta = 144]. *)
Lemma C1_witness :
  let p := mkTVector3 1 2 2 in
  let up := fst (getPerpendicularAxis p zeroVector 1) in
  let um := fst (getPerpendicularAxis p zeroVector (-1)) in
  (fX up * fX p + fY up * fY p = - (fZ p * fZ p) /\ fZ up = fZ p)
  /\ (fX um * fX p + fY um * fY p = - (fZ p * fZ p) /\ fZ um = fZ p).
Proof.
  apply (C1_general_case_solutions (mkTVector3 1 2 2) zeroVector);
    unfold quad_delta, quad_a, quad_b, quad_c; simpl; lra.
Defined.

(** [getPerpendicularAxis] emits a diagnostic in one branch only, and it
    is a warning. *)
Lemma gpa_never_fatal p u sign :
  existsb is_fatal (snd (getPerpendicularAxis p u sign)) = false.
Proof.
  gpa_unfold.
  repeat match goal with
         | |- context [if ?c then _ else _] => destruct c
         end; reflexivity.
Qed.

(** At [p = (0, 1, 0)] the first protection solves directly:
    [u = (sign, 0, 0)]. *)
Lemma gpa_at_0_1_0 u sign :
  getPerpendicularAxis (mkTVector3 0 1 0) u sign = (mkTVector3 sign 0 0, []).
Proof.
  rewrite gpa_px_zero by (simpl; lra). simpl.
  replace (1 * 1 - 0 * 0 * (0 * 0) / (1 * 1)) with 1 by field.
  rewrite sqrt_1. f_equal. f_equal; field.
Qed.

(** C2, as stated, fails: [p = (0, 1, 0)] has one transverse component
    equal to zero, and the solver returns [(1, 0, 0)] for sign [+1], not
    the zero vector. *)
Lemma C2_counterexample :
  ~ (forall (p u : TVector3) (sign : R),
       (fX p = 0 \/ fY p = 0)
       \/ (fX p <> 0 /\ fY p <> 0 /\ quad_delta p < 0) ->
       fst (getPerpendicularAxis p u sign) = zeroVector).
Proof.
  intro H.
  specialize (H (mkTVector3 0 1 0) zeroVector 1).
  rewrite gpa_at_0_1_0 in H. simpl in H.
  assert (Hx : fX (mkTVector3 1 0 0) = fX zeroVector)
    by (rewrite H; [reflexivity | left; left; reflexivity]).
  simpl in Hx. lra.
Qed.

(** C2, amended: the solver always returns, and never with a fatal
    diagnostic.  It sets the output to the zero vector when both
    transverse components are zero (no diagnostic) and when the
    discriminant of the general case is negative (one warning carrying
    [delta] and [a]).  When exactly one transverse component is zero it
    does not zero the output: [uz = pz], the component along the nonzero
    axis is [- pz^2 / p] and the other is [sign * sqrt (p^2 - pz^4 / p^2)]
    where that radicand is not negative.  For [p = (0, 0, 5)] the
    output is the zero vector for both signs. *)
Theorem C2_invalid_inputs_recovered :
  forall (p u : TVector3) (sign : R),
    existsb is_fatal (snd (getPerpendicularAxis p u sign)) = false
    /\ (fX p = 0 -> fY p = 0 ->
        getPerpendicularAxis p u sign = (zeroVector, []))
    /\ (fX p <> 0 -> fY p <> 0 -> quad_delta p < 0 ->
        getPerpendicularAxis p u sign =
          (zeroVector,
           [LOGP warn invalidInputFormat [quad_delta p; quad_a p]]))
    /\ (fX p = 0 -> fY p <> 0 ->
        let v := fst (getPerpendicularAxis p u sign) in
        snd (getPerpendicularAxis p u sign) = []
        /\ fY v = - (fZ p * fZ p) / fY p /\ fZ v = fZ p
        /\ (0 <= fY p * fY p - (fZ p * fZ p) * (fZ p * fZ p) / (fY p * fY p) ->
            fX v = sign * sqrt (fY p * fY p
                     - (fZ p * fZ p) * (fZ p * fZ p) / (fY p * fY p))))
    /\ (fY p = 0 -> fX p <> 0 ->
        let v := fst (getPerpendicularAxis p u sign) in
        snd (getPerpendicularAxis p u sign) = []
        /\ fX v = - (fZ p * fZ p) / fX p /\ fZ v = fZ p
        /\ (0 <= fX p * fX p - (fZ p * fZ p) * (fZ p * fZ p) / (fX p * fX p) ->
            fY v = sign * sqrt (fX p * fX p
                     - (fZ p * fZ p) * (fZ p * fZ p) / (fX p * fX p))))
    /\ getPerpendicularAxis (mkTVector3 0 0 5) u 1 = (zeroVector, [])
    /\ getPerpendicularAxis (mkTVector3 0 0 5) u (-1) = (zeroVector, []).
Proof.
  intros p u sign.
  split; [apply gpa_never_fatal |].
  split; [apply gpa_both_zero |].
  split; [apply gpa_general_invalid |].
  split.
  { intros Hx Hy. rewrite gpa_px_zero by assumption. simpl. tauto. }
  split.
  { intros Hy Hx. rewrite gpa_py_zero by assumption. simpl. tauto. }
  split; apply gpa_both_zero; reflexivity.
Qed.

(** The amended statement at [p = (3, 1, 4)], where the discriminant is
    [-624]: zero vector and one warning. *)
Lemma C2_witness :
  getPerpendicularAxis (mkTVector3 3 1 4) zeroVector 1 =
    (zeroVector,
     [LOGP warn invalidInputFormat
        [quad_delta (mkTVector3 3 1 4); quad_a (mkTVector3 3 1 4)]])
  /\ quad_delta (mkTVector3 3 1 4) = -624.
Proof.
  split.
  - apply (C2_invalid_inputs_recovered (mkTVector3 3 1 4) zeroVector 1);
      unfold quad_delta, quad_a, quad_b, quad_c; simpl; lra.
  - unfold quad_delta, quad_a, quad_b, quad_c; simpl; lra.
Defined.

(** ** The two underlying-event axes of one jet *)

Lemma gpa_branches p :
  (fX p = 0 /\ fY p = 0)
  \/ (fX p = 0 /\ fY p <> 0)
  \/ (fY p = 0 /\ fX p <> 0)
  \/ (fX p <> 0 /\ fY p <> 0 /\ quad_delta p < 0)
  \/ (fX p <> 0 /\ fY p <> 0 /\ 0 <= quad_delta p).
Proof.
  destruct (Req_dec (fX p) 0) as [Hx | Hx];
    destruct (Req_dec (fY p) 0) as [Hy | Hy];
    destruct (Rlt_or_le (quad_delta p) 0) as [Hd | Hd]; tauto.
Qed.

Lemma quad_delta_1_2_2 : quad_delta (mkTVector3 1 2 2) = 12 * 12.
Proof. unfold quad_delta, quad_a, quad_b, quad_c. simpl. ring. Qed.

Lemma gpa_at_1_2_2 u sign :
  getPerpendicularAxis (mkTVector3 1 2 2) u sign =
    (mkTVector3 ((- 8 + sign * 12) / 10)
                ((- 4 - (- 8 + sign * 12) / 10) / 2) 2, []).
Proof.
  rewrite gpa_general by (rewrite ?quad_delta_1_2_2; simpl; lra).
  rewrite quad_delta_1_2_2, sqrt_square by lra.
  unfold quad_a, quad_b. cbv zeta. simpl.
  f_equal. f_equal; field.
Qed.

(** C3, as stated, fails: for the jet axis [p = (1, 2, 2)] the two
    solutions are [(2/5, -11/5, 2)] and [(-2, -1, 2)], whose transverse
    parts are not a negative multiple of one another. *)
Lemma C3_counterexample :
  ~ (forall p : TVector3,
       exists k : R,
         k < 0
         /\ fX (ueAxis1 p) = k * fX (ueAxis2 p)
         /\ fY (ueAxis1 p) = k * fY (ueAxis2 p)).
Proof.
  intro H. destruct (H (mkTVector3 1 2 2)) as [k [Hk [_ Hy]]].
  unfold ueAxis1, ueAxis2 in Hy. rewrite !gpa_at_1_2_2 in Hy.
  simpl in Hy. lra.
Qed.

(** With [pz = 0] the two transverse parts are opposite. *)
Lemma ueAxes_opposite_pz_zero p :
  fZ p = 0 ->
  fX (ueAxis1 p) = - fX (ueAxis2 p) /\ fY (ueAxis1 p) = - fY (ueAxis2 p).
Proof.
  intro Hz. unfold ueAxis1, ueAxis2.
  destruct (gpa_branches p)
    as [[Hx Hy] | [[Hx Hy] | [[Hy Hx] | [[Hx [Hy Hd]] | [Hx [Hy Hd]]]]]].
  - rewrite !gpa_both_zero by assumption. simpl. lra.
  - rewrite !gpa_px_zero by assumption. simpl. rewrite Hz.
    split; [ring | field; exact Hy].
  - rewrite !gpa_py_zero by assumption. simpl. rewrite Hz.
    split; [field; exact Hx | ring].
  - rewrite !gpa_general_invalid by assumption. simpl. lra.
  - pose proof (quad_a_pos p Hx) as Ha.
    rewrite !gpa_general by assumption. cbv zeta. simpl.
    unfold quad_b. rewrite Hz. split; field; lra.
Qed.

(** Where the solver does not fall back to the zero vector and
    [pz <> 0], no negative factor relates the two transverse parts. *)
Lemma ueAxes_antiparallel_pz_zero p k :
  k < 0 ->
  fX (ueAxis1 p) = k * fX (ueAxis2 p) ->
  fY (ueAxis1 p) = k * fY (ueAxis2 p) ->
  fZ p = 0
  \/ (fX p = 0 /\ fY p = 0)
  \/ (fX p <> 0 /\ fY p <> 0 /\ quad_delta p < 0).
Proof.
  intros Hk Ex Ey. unfold ueAxis1, ueAxis2 in *.
  destruct (gpa_branches p)
    as [[Hx Hy] | [[Hx Hy] | [[Hy Hx] | [[Hx [Hy Hd]] | [Hx [Hy Hd]]]]]];
    [tauto | | | tauto |]; left.
  - rewrite !gpa_px_zero in Ey by assumption. simpl in Ey.
    assert (E : - (fZ p * fZ p) / fY p = 0) by nra.
    assert (E' : fZ p * fZ p = 0).
    { replace (fZ p * fZ p)
        with (- (- (fZ p * fZ p) / fY p) * fY p) by (field; exact Hy).
      rewrite E. ring. }
    nra.
  - rewrite !gpa_py_zero in Ex by assumption. simpl in Ex.
    assert (E : - (fZ p * fZ p) / fX p = 0) by nra.
    assert (E' : fZ p * fZ p = 0).
    { replace (fZ p * fZ p)
        with (- (- (fZ p * fZ p) / fX p) * fX p) by (field; exact Hx).
      rewrite E. ring. }
    nra.
  - destruct (gpa_general_constraint p zeroVector 1 Hx Hy Hd) as [C1 _].
    destruct (gpa_general_constraint p zeroVector (-1) Hx Hy Hd) as [C2 _].
    cbv zeta in C1, C2. rewrite Ex, Ey in C1.
    assert (E' : (1 - k) * (fZ p * fZ p) = 0) by nra.
    assert (E'' : fZ p * fZ p = 0) by nra.
    nra.
Qed.

(** C3, amended: the transverse parts [(ux, uy)] of the two axes got
    with [sign = +1] and [sign = -1] are anti-parallel exactly when
    [pz = 0] or the solver falls back to the zero vector ([px = py = 0],
    or a negative discriminant in the general case); with [pz = 0] they
    are opposite vectors. *)
Theorem C3_axes_antiparallel_iff :
  forall p : TVector3,
    ((exists k : R,
        k < 0
        /\ fX (ueAxis1 p) = k * fX (ueAxis2 p)
        /\ fY (ueAxis1 p) = k * fY (ueAxis2 p))
     <-> (fZ p = 0
          \/ (fX p = 0 /\ fY p = 0)
          \/ (fX p <> 0 /\ fY p <> 0 /\ quad_delta p < 0)))
    /\ (fZ p = 0 ->
        fX (ueAxis1 p) = - fX (ueAxis2 p)
        /\ fY (ueAxis1 p) = - fY (ueAxis2 p)).
Proof.
  intro p. split; [| apply ueAxes_opposite_pz_zero].
  split.
  - intros [k [Hk [Ex Ey]]]. exact (ueAxes_antiparallel_pz_zero p k Hk Ex Ey).
  - intros [Hz | [[Hx Hy] | [Hx [Hy Hd]]]]; exists (-1);
      (split; [lra |]).
    + destruct (ueAxes_opposite_pz_zero p Hz) as [Ex Ey]. lra.
    + unfold ueAxis1, ueAxis2. rewrite !gpa_both_zero by assumption.
      simpl. lra.
    + unfold ueAxis1, ueAxis2. rewrite !gpa_general_invalid by assumption.
      simpl. lra.
Qed.

(** The amended statement at [p = (3, 4, 0)]: [pz = 0], so the two
    transverse parts are opposite. *)
Lemma C3_witness :
  let p := mkTVector3 3 4 0 in
  fX (ueAxis1 p) = - fX (ueAxis2 p) /\ fY (ueAxis1 p) = - fY (ueAxis2 p).
Proof.
  apply (C3_axes_antiparallel_iff (mkTVector3 3 4 0)). reflexivity.
Defined.

(** ** [getCorrectedPt] *)

Section CorrectedPt.

Context {Rng : Type}.

Implicit Types (h : TH2 Rng) (gRandom : Rng) (ptRec : R).

Lemma FindBin_underflow (ax : TAxis) x : x < fXmin ax -> FindBin ax x = 0%Z.
Proof. intro H. unfold FindBin. now rewrite Dbl_ltb_true. Qed.

Lemma FindBin_overflow (ax : TAxis) x :
  fXmin ax <= x -> fXmax ax <= x -> FindBin ax x = (fNbins ax + 1)%Z.
Proof.
  intros Hlo Hhi. unfold FindBin.
  now rewrite (Dbl_ltb_false _ _ Hlo), (Dbl_ltb_false _ _ Hhi).
Qed.

Lemma FindBin_in_range (ax : TAxis) x :
  fXmin ax <= x < fXmax ax -> FindBin ax x = binInRange ax x.
Proof.
  intros [Hlo Hhi]. unfold FindBin.
  now rewrite (Dbl_ltb_false _ _ Hlo), (Dbl_ltb_true _ _ Hhi).
Qed.

(** Outside [[fXmin, fXmax)] the bin index fails the range check of
    [getCorrectedPt]. *)
Lemma FindBin_outside (ax : TAxis) x :
  x < fXmin ax \/ fXmax ax <= x ->
  ((FindBin ax x <? 1)%Z || (FindBin ax x >? fNbins ax)%Z) = true.
Proof.
  intros [H | H].
  - rewrite FindBin_underflow by exact H. reflexivity.
  - destruct (Rlt_or_le x (fXmin ax)) as [Hlo | Hlo].
    + rewrite FindBin_underflow by exact Hlo. reflexivity.
    + rewrite FindBin_overflow by assumption.
      apply orb_true_iff. right. apply Z.gtb_lt. lia.
Qed.

Lemma getCorrectedPt_null ptRec gRandom :
  getCorrectedPt ptRec None gRandom =
    (ptRec, gRandom, [LOGP error nullMatrixFormat []]).
Proof. reflexivity. Qed.

Lemma getCorrectedPt_bin_out_of_range ptRec h gRandom :
  let binX := FindBin (GetXaxis h) ptRec in
  ((binX <? 1)%Z || (binX >? GetNbinsX h)%Z) = true ->
  getCorrectedPt ptRec (Some h) gRandom =
    (ptRec, gRandom, [LOGP error binOutOfRangeFormat [IZR binX]]).
Proof.
  intros binX H. unfold getCorrectedPt. fold binX. now rewrite H.
Qed.

Lemma getCorrectedPt_empty ptRec h gRandom :
  let binX := FindBin (GetXaxis h) ptRec in
  ((binX <? 1)%Z || (binX >? GetNbinsX h)%Z) = false ->
  GetEntries (ProjectionY h binX binX) = 0 ->
  getCorrectedPt ptRec (Some h) gRandom = (ptRec, gRandom, []).
Proof.
  intros binX H E. unfold getCorrectedPt. fold binX.
  rewrite H. cbv zeta. now rewrite (Dbl_eqb_true _ _ E).
Qed.

(** Otherwise one offset is drawn and added. *)
Lemma getCorrectedPt_sampled ptRec h gRandom :
  let binX := FindBin (GetXaxis h) ptRec in
  ((binX <? 1)%Z || (binX >? GetNbinsX h)%Z) = false ->
  GetEntries (ProjectionY h binX binX) <> 0 ->
  getCorrectedPt ptRec (Some h) gRandom =
    (ptRec + fst (GetRandom (ProjectionY h binX binX) gRandom),
     snd (GetRandom (ProjectionY h binX binX) gRandom), []).
Proof.
  intros binX H E. unfold getCorrectedPt. fold binX.
  rewrite H. cbv zeta. rewrite (Dbl_eqb_false _ _ E).
  now destruct (GetRandom (ProjectionY h binX binX) gRandom).
Qed.

Lemma getCorrectedPt_never_fatal ptRec (m : option (TH2 Rng)) gRandom :
  existsb is_fatal (snd (getCorrectedPt ptRec m gRandom)) = false.
Proof.
  destruct m as [h |]; [| reflexivity].
  unfold getCorrectedPt.
  destruct (_ || _); [reflexivity |]. cbv zeta.
  destruct (Dbl.eqb _ 0); [reflexivity |].
  now destruct (GetRandom _ gRandom).
Qed.

End CorrectedPt.

(** C6: for every input pt, [getCorrectedPt] with a null response matrix
    returns the input unchanged; the path logs one error entry, none
    fatal, and leaves the random generator as it was. *)
Theorem C6_null_response_matrix_identity :
  forall (Rng : Type) (ptRec : R) (gRandom : Rng),
    let r := getCorrectedPt ptRec (@None (TH2 Rng)) gRandom in
    fst (fst r) = ptRec
    /\ snd (fst r) = gRandom
    /\ snd r = [LOGP error nullMatrixFormat []]
    /\ existsb is_fatal (snd r) = false.
Proof. intros Rng ptRec gRandom. repeat split. Qed.

(** C7, as stated, fails: an input outside the range of the axis is
    treated as an error.  At [ptRec = 150], above the axis of the sample
    matrix, the input comes back unchanged but the log holds an entry of
    severity [error]. *)
Lemma C7_counterexample :
  ~ (forall (Rng : Type) (ptRec : R) (h : TH2 Rng) (gRandom : Rng),
       let binX := FindBin (GetXaxis h) ptRec in
       let r := getCorrectedPt ptRec (Some h) gRandom in
       (ptRec < fXmin (GetXaxis h) \/ fXmax (GetXaxis h) <= ptRec)
       \/ GetEntries (ProjectionY h binX binX) = 0 ->
       fst (fst r) = ptRec /\ existsb is_error (snd r) = false).
Proof.
  intro H.
  specialize (H nat 150 sampleMatrix 0%nat). cbv zeta in H.
  destruct H as [_ H]; [left; right; simpl; lra |].
  rewrite getCorrectedPt_bin_out_of_range in H
    by (apply FindBin_outside; right; simpl; lra).
  discriminate H.
Qed.

(** C7, amended: for every input pt and every response matrix that is
    not null, [getCorrectedPt] returns the input unchanged when the
    input lies outside the range [[fXmin, fXmax)] of the
    reconstructed-pt axis, and when the projection of the located bin
    has no entries; in both cases the call returns without a fatal
    diagnostic and without drawing from the random generator.  The input
    outside the range is reported as an error, with one entry of
    severity [error] that carries the bin index; only the empty
    projection is passed through in silence. *)
Theorem C7_out_of_range_or_empty_identity :
  forall (Rng : Type) (ptRec : R) (h : TH2 Rng) (gRandom : Rng),
    let binX := FindBin (GetXaxis h) ptRec in
    let r := getCorrectedPt ptRec (Some h) gRandom in
    (ptRec < fXmin (GetXaxis h) \/ fXmax (GetXaxis h) <= ptRec ->
     r = (ptRec, gRandom, [LOGP error binOutOfRangeFormat [IZR binX]]))
    /\ ((binX < 1 \/ GetNbinsX h < binX)%Z ->
        r = (ptRec, gRandom, [LOGP error binOutOfRangeFormat [IZR binX]]))
    /\ (GetEntries (ProjectionY h binX binX) = 0 ->
        fst (fst r) = ptRec /\ snd (fst r) = gRandom)
    /\ ((1 <= binX <= GetNbinsX h)%Z ->
        GetEntries (ProjectionY h binX binX) = 0 ->
        r = (ptRec, gRandom, []))
    /\ existsb is_fatal (snd r) = false
    /\ (ptRec < fXmin (GetXaxis h) \/ fXmax (GetXaxis h) <= ptRec ->
        existsb is_error (snd r) = true).
Proof.
  intros Rng ptRec h gRandom binX r.
  assert (Hempty :
    ((binX <? 1)%Z || (binX >? GetNbinsX h)%Z) = false ->
    GetEntries (ProjectionY h binX binX) = 0 ->
    r = (ptRec, gRandom, [])).
  { intros Hb E. apply getCorrectedPt_empty; assumption. }
  split.
  { intro Hout. apply getCorrectedPt_bin_out_of_range.
    apply FindBin_outside. exact Hout. }
  split.
  { intro Hout. apply getCorrectedPt_bin_out_of_range.
    apply orb_true_iff. rewrite Z.gtb_ltb, !Z.ltb_lt. exact Hout. }
  split.
  { intro E.
    destruct ((binX <? 1)%Z || (binX >? GetNbinsX h)%Z) eqn:Hb.
    - unfold r. rewrite getCorrectedPt_bin_out_of_range by exact Hb.
      split; reflexivity.
    - rewrite (Hempty eq_refl E). split; reflexivity. }
  split.
  { intros [Hlo Hhi] E. apply Hempty; [| exact E].
    apply orb_false_iff. split.
    - apply Z.ltb_ge. exact Hlo.
    - rewrite Z.gtb_ltb. apply Z.ltb_ge. exact Hhi. }
  split; [apply getCorrectedPt_never_fatal |].
  intro Hout. unfold r.
  rewrite getCorrectedPt_bin_out_of_range
    by (apply FindBin_outside; exact Hout).
  reflexivity.
Qed.

Lemma sampleMatrix_bin_20 : FindBin (GetXaxis sampleMatrix) 20 = 3%Z.
Proof.
  rewrite FindBin_in_range by (simpl; lra). simpl.
  rewrite (Zfloor_eq 2); [reflexivity | simpl; lra].
Qed.

Lemma sampleMatrix_bin_70 : FindBin (GetXaxis sampleMatrix) 70 = 8%Z.
Proof.
  rewrite FindBin_in_range by (simpl; lra). simpl.
  rewrite (Zfloor_eq 7); [reflexivity | simpl; lra].
Qed.

(** In a bin with entries the sampled offset is added and the generator
    moves on. *)
Example getCorrectedPt_sample_70 :
  getCorrectedPt 70 (Some sampleMatrix) 0%nat = (70 + 1 / 2, 1%nat, []).
Proof.
  rewrite getCorrectedPt_sampled; rewrite sampleMatrix_bin_70; simpl;
    [reflexivity | reflexivity | lra].
Qed.

(** [ptRec = 150] lies above the axis of the sample matrix; [ptRec = 20]
    falls in bin [3], whose projection is empty. *)
Lemma C7_witness :
  getCorrectedPt 150 (Some sampleMatrix) 0%nat =
    (150, 0%nat,
     [LOGP error binOutOfRangeFormat
        [IZR (FindBin (GetXaxis sampleMatrix) 150)]])
  /\ getCorrectedPt 20 (Some sampleMatrix) 0%nat = (20, 0%nat, []).
Proof.
  split.
  - apply (proj1 (C7_out_of_range_or_empty_identity
                    nat 150 sampleMatrix 0%nat)).
    right. simpl. lra.
  - apply (proj1 (proj2 (proj2 (proj2 (C7_out_of_range_or_empty_identity
                                         nat 20 sampleMatrix 0%nat)))));
      rewrite sampleMatrix_bin_20; [unfold GetNbinsX; simpl; lia | reflexivity].
Defined.

(** ** Background subtraction *)

(** C9: the background-subtracted transverse momentum is
    [pt_sub = pt_raw - area * density] for every jet and every density;
    with [pt_raw = 20], [area = 0.5] and [density = 10] it is [15]; with
    no response matrix the threshold of [processData] compares exactly
    this value with [minJetPt]. *)
Theorem C9_background_subtraction :
  (forall (jet : PseudoJet) (rhoPerp rhoMPerp : R),
     doRhoAreaSub_pt jet rhoPerp rhoMPerp = jet_pt jet - jet_area jet * rhoPerp)
  /\ (forall px py pz eta rhoMPerp : R,
        doRhoAreaSub_pt (mkPseudoJet px py pz 20 eta (1 / 2)) 10 rhoMPerp = 15)
  /\ (forall (Rng : Type) (cfg : Config) (jet : PseudoJet)
             (rhoPerp rhoMPerp : R) (gRandom : Rng),
        fst (fst (jetBelowThreshold cfg jet rhoPerp rhoMPerp None gRandom)) =
          Dbl.ltb (jet_pt jet - jet_area jet * rhoPerp) (minJetPt cfg)).
Proof.
  split; [reflexivity |].
  split; [| reflexivity].
  intros. unfold doRhoAreaSub_pt. simpl. field.
Qed.

(** ** Cone membership *)

Lemma insideCone_iff trkEta trkPhi axisEta axisPhi coneRadius :
  insideCone trkEta trkPhi axisEta axisPhi coneRadius = true
  <-> deltaR trkEta trkPhi axisEta axisPhi <= coneRadius.
Proof.
  unfold insideCone, Dbl.gtb.
  destruct (Dbl_ltb_spec coneRadius (deltaR trkEta trkPhi axisEta axisPhi))
    as [H | H]; simpl; split; intro H';
    [discriminate | lra | lra | reflexivity].
Qed.

Lemma deltaR_on_axis axisEta axisPhi : deltaR axisEta axisPhi axisEta axisPhi = 0.
Proof.
  unfold deltaR. cbv zeta. rewrite getDeltaPhi_same, Rminus_diag.
  replace (0 * 0 + 0 * 0) with 0 by ring. apply sqrt_0.
Qed.

Lemma outsideUeCones_insideCone (Eta Phi : TVector3 -> R) coneRadius
  (axis1 axis2 : TVector3) (track : Track) :
  outsideUeCones Eta Phi coneRadius axis1 axis2 track =
    negb (insideCone (eta track) (phi track) (Eta axis1) (Phi axis1) coneRadius)
    && negb (insideCone (eta track) (phi track) (Eta axis2) (Phi axis2) coneRadius).
Proof.
  unfold outsideUeCones, insideCone, deltaR. cbv zeta.
  now rewrite !negb_involutive.
Qed.

(** C8: a direction [(eta, phi)] is inside the cone of radius
    [coneRadius] around an axis exactly when
    [sqrt (deltaEta^2 + deltaPhi^2) <= coneRadius], with [deltaPhi] from
    [getDeltaPhi]; a direction equal to the axis direction is inside for
    every radius [>= 0], a direction at distance equal to the radius is
    inside; the loop skips a track exactly when it is inside neither of
    the two cones. *)
Theorem C8_cone_membership :
  forall (trkEta trkPhi axisEta axisPhi coneRadius : R),
    (insideCone trkEta trkPhi axisEta axisPhi coneRadius = true
     <-> sqrt ((trkEta - axisEta) * (trkEta - axisEta)
               + getDeltaPhi trkPhi axisPhi * getDeltaPhi trkPhi axisPhi)
         <= coneRadius)
    /\ (0 <= coneRadius ->
        insideCone axisEta axisPhi axisEta axisPhi coneRadius = true)
    /\ (sqrt ((trkEta - axisEta) * (trkEta - axisEta)
              + getDeltaPhi trkPhi axisPhi * getDeltaPhi trkPhi axisPhi)
        = coneRadius ->
        insideCone trkEta trkPhi axisEta axisPhi coneRadius = true)
    /\ (forall (Eta Phi : TVector3 -> R) (axis1 axis2 : TVector3)
               (track : Track),
          outsideUeCones Eta Phi coneRadius axis1 axis2 track = false
          <-> insideCone (eta track) (phi track)
                (Eta axis1) (Phi axis1) coneRadius = true
              \/ insideCone (eta track) (phi track)
                   (Eta axis2) (Phi axis2) coneRadius = true).
Proof.
  intros trkEta trkPhi axisEta axisPhi coneRadius.
  split; [apply insideCone_iff |].
  split.
  { intro H. apply insideCone_iff. rewrite deltaR_on_axis. exact H. }
  split.
  { intro H. apply insideCone_iff. unfold deltaR. cbv zeta. lra. }
  intros Eta Phi axis1 axis2 track.
  rewrite outsideUeCones_insideCone.
  destruct (insideCone _ _ (Eta axis1) _ _), (insideCone _ _ (Eta axis2) _ _);
    simpl; intuition discriminate.
Qed.

(** A track on the axis direction [(1/2, 1)] lies in the cone of radius
    [2/5]. *)
Lemma C8_witness : insideCone (1 / 2) 1 (1 / 2) 1 (2 / 5) = true.
Proof.
  apply (proj1 (proj2 (C8_cone_membership (1 / 2) 1 (1 / 2) 1 (2 / 5)))).
  lra.
Defined.

(** ** The underlying-event loop *)

Section UnderlyingEventFacts.

Variables (Eta Phi : TVector3 -> R) (nSigmaITS : PID -> Track -> R).
Variable cfg : Config.

Local Abbreviation ueTrack' := (ueTrack Eta Phi nSigmaITS cfg).
Local Abbreviation ueLoop' := (ueLoop Eta Phi nSigmaITS cfg).
Local Abbreviation outside := (outsideUeCones Eta Phi).

(* Case analysis on the conditions of the goal. *)
Ltac split_conditions :=
  repeat match goal with
         | |- context [if ?c then _ else _] => destruct c
         end.

(* The same, innermost condition first: a flag computed by a conditional
   keeps its value. *)
Ltac split_inner_conditions :=
  repeat match goal with
         | |- context [if ?c then _ else _] =>
           lazymatch c with
           | context [if _ then _ else _] => fail
           | _ => destruct c
           end
         end.

(** The iteration only appends to the registry. *)
Lemma ueTrack_appends coneRadius axis1 axis2 track registry :
  ueTrack' coneRadius axis1 axis2 track registry =
    registry ++ ueTrack' coneRadius axis1 axis2 track [].
Proof.
  unfold ueTrack, fill. cbv zeta.
  split_conditions; simpl; rewrite <- ?app_assoc, ?app_nil_r; reflexivity.
Qed.

Lemma entries_app name (r1 r2 : Registry) :
  entries name (r1 ++ r2) = (entries name r1 + entries name r2)%nat.
Proof. unfold entries. now rewrite map_app, count_occ_app. Qed.

(** One iteration fills no histogram twice. *)
Lemma ueTrack_hist_NoDup coneRadius axis1 axis2 track :
  NoDup (map fill_hist (ueTrack' coneRadius axis1 axis2 track [])).
Proof.
  unfold ueTrack, fill. cbv zeta.
  split_conditions; simpl;
    repeat (constructor; [simpl; intuition discriminate |]);
    constructor.
Qed.

Lemma ueTrack_at_most_once coneRadius axis1 axis2 track registry name :
  (entries name (ueTrack' coneRadius axis1 axis2 track registry)
   <= entries name registry + 1)%nat.
Proof.
  rewrite ueTrack_appends, entries_app.
  pose proof (ueTrack_hist_NoDup coneRadius axis1 axis2 track) as Hnd.
  rewrite (NoDup_count_occ string_dec) in Hnd.
  specialize (Hnd name). unfold entries at 2. lia.
Qed.

Lemma ueLoop_at_most_once coneRadius axis1 axis2 tracks :
  forall registry name,
    (entries name (ueLoop' coneRadius axis1 axis2 tracks registry)
     <= entries name registry + List.length tracks)%nat.
Proof.
  induction tracks as [| track rest IH]; intros registry name; simpl.
  - lia.
  - specialize (IH (ueTrack' coneRadius axis1 axis2 track registry) name).
    pose proof (ueTrack_at_most_once coneRadius axis1 axis2 track registry name).
    lia.
Qed.

(** A track outside both cones, or failing the track selection, leaves
    the registry as it is. *)
Lemma ueTrack_skipped coneRadius axis1 axis2 track registry :
  passedTrackSelection cfg track = false
  \/ outside coneRadius axis1 axis2 track = true ->
  ueTrack' coneRadius axis1 axis2 track registry = registry.
Proof.
  unfold ueTrack. intros [H | H]; rewrite H; simpl; [reflexivity |].
  now destruct (passedTrackSelection cfg track).
Qed.

(** Past the cone test the iteration no longer looks at the axes. *)
Lemma ueTrack_cone_blind coneRadius axis1 axis2 coneRadius' axis1' axis2'
  track registry :
  outside coneRadius axis1 axis2 track = false ->
  outside coneRadius' axis1' axis2' track = false ->
  ueTrack' coneRadius axis1 axis2 track registry =
    ueTrack' coneRadius' axis1' axis2' track registry.
Proof. intros H H'. unfold ueTrack. now rewrite H, H'. Qed.

(** A negative track that passes the selections and the proton ITS PID
    adds one entry to [antiproton_ue_tpc]. *)
Lemma ueTrack_antiproton_once coneRadius axis1 axis2 track registry :
  passedTrackSelection cfg track = true ->
  outside coneRadius axis1 axis2 track = false ->
  (sign track < 0)%Z ->
  Rabs (dcaXY track) <= maxDcaxy cfg ->
  Rabs (dcaZ track) <= maxDcaz cfg ->
  applyItsPid cfg = false \/ ptMaxItsPidProt cfg < pt track ->
  entries "antiproton_ue_tpc"
    (ueTrack' coneRadius axis1 axis2 track registry) =
    S (entries "antiproton_ue_tpc" registry).
Proof.
  intros Hsel Hcone Hsign Hxy Hz Hpid.
  rewrite ueTrack_appends, entries_app.
  apply Z.ltb_lt in Hsign.
  assert (Hpos : (sign track >? 0)%Z = false).
  { rewrite Z.gtb_ltb. apply Z.ltb_ge. apply Z.ltb_lt in Hsign. lia. }
  unfold ueTrack, fill. cbv zeta.
  rewrite Hsel, Hcone, Hsign, Hpos,
    (Dbl_gtb_false _ _ Hxy), (Dbl_gtb_false _ _ Hz).
  simpl.
  destruct Hpid as [Hpid | Hpid];
    [rewrite Hpid | rewrite (Dbl_gtb_true _ _ Hpid)]; simpl;
    split_inner_conditions; simpl; unfold entries; simpl; lia.
Qed.

Lemma ueLoopOfJet_at_most_once jet tracks registry name :
  (entries name (ueLoopOfJet Eta Phi nSigmaITS cfg jet tracks registry)
   <= entries name registry + List.length tracks)%nat.
Proof. unfold ueLoopOfJet. apply ueLoop_at_most_once. Qed.

End UnderlyingEventFacts.

(** Comparisons of numerals are settled by [lra]. *)
Ltac dbl_eval :=
  repeat match goal with
         | |- context [Dbl.ltb ?a ?b] =>
           first [ rewrite (Dbl_ltb_true a b) by lra
                 | rewrite (Dbl_ltb_false a b) by lra ]
         | |- context [Dbl.gtb ?a ?b] =>
           first [ rewrite (Dbl_gtb_true a b) by lra
                 | rewrite (Dbl_gtb_false a b) by lra ]
         end.

Lemma sampleTrack_selected : passedTrackSelection defaultConfig sampleTrack = true.
Proof. unfold passedTrackSelection. simpl. dbl_eval. reflexivity. Qed.

(** C10: in the underlying-event loop the two cones act as their union.
    A track outside both cones fills nothing; for any other selected
    track the fills are the same whichever cone, or both, holds it, so
    no histogram tells the cones apart; one iteration adds at most one
    entry to any histogram, hence the loop of one jet adds at most one
    entry per track; and a negative track inside both cones that passes
    the selections adds exactly one entry to [antiproton_ue_tpc]. *)
Theorem C10_ue_cones_union :
  forall (Eta Phi : TVector3 -> R) (nSigmaITS : PID -> Track -> R)
         (cfg : Config) (coneRadius : R) (axis1 axis2 : TVector3)
         (track : Track) (registry : Registry),
    (outsideUeCones Eta Phi coneRadius axis1 axis2 track = true ->
     ueTrack Eta Phi nSigmaITS cfg coneRadius axis1 axis2 track registry
     = registry)
    /\ (forall (coneRadius' : R) (axis1' axis2' : TVector3),
          outsideUeCones Eta Phi coneRadius axis1 axis2 track = false ->
          outsideUeCones Eta Phi coneRadius' axis1' axis2' track = false ->
          ueTrack Eta Phi nSigmaITS cfg coneRadius axis1 axis2 track registry
          = ueTrack Eta Phi nSigmaITS cfg coneRadius' axis1' axis2' track
              registry)
    /\ (forall name : string,
          (entries name
             (ueTrack Eta Phi nSigmaITS cfg coneRadius axis1 axis2 track
                registry)
           <= entries name registry + 1)%nat)
    /\ (forall (name : string) (jet : PseudoJet) (tracks : list Track),
          (entries name
             (ueLoopOfJet Eta Phi nSigmaITS cfg jet tracks registry)
           <= entries name registry + List.length tracks)%nat)
    /\ (passedTrackSelection cfg track = true ->
        insideCone (eta track) (phi track) (Eta axis1) (Phi axis1) coneRadius
        = true ->
        insideCone (eta track) (phi track) (Eta axis2) (Phi axis2) coneRadius
        = true ->
        (sign track < 0)%Z ->
        Rabs (dcaXY track) <= maxDcaxy cfg ->
        Rabs (dcaZ track) <= maxDcaz cfg ->
        applyItsPid cfg = false \/ ptMaxItsPidProt cfg < pt track ->
        entries "antiproton_ue_tpc"
          (ueTrack Eta Phi nSigmaITS cfg coneRadius axis1 axis2 track registry)
        = S (entries "antiproton_ue_tpc" registry)).
Proof.
  intros Eta Phi nSigmaITS cfg coneRadius axis1 axis2 track registry.
  split.
  { intro H. apply ueTrack_skipped. right. exact H. }
  split.
  { intros coneRadius' axis1' axis2'. apply ueTrack_cone_blind. }
  split.
  { intro name. apply ueTrack_at_most_once. }
  split.
  { intros name jet tracks. apply ueLoopOfJet_at_most_once. }
  intros Hsel Hin1 Hin2. apply ueTrack_antiproton_once; [exact Hsel |].
  rewrite outsideUeCones_insideCone, Hin1. reflexivity.
Qed.

(** The jet axis [(0, 0, 5)] gives the zero vector for both axes, so the
    two cones coincide; [sampleTrack], on their common direction, is in
    both and yet enters [antiproton_ue_tpc] once. *)
Lemma C10_witness :
  entries "antiproton_ue_tpc"
    (ueTrack (fun _ => 0) (fun _ => 0) (fun _ _ => 0) defaultConfig (3 / 10)
       (ueAxis1 (mkTVector3 0 0 5)) (ueAxis2 (mkTVector3 0 0 5))
       sampleTrack [])
  = 1%nat.
Proof.
  apply (C10_ue_cones_union (fun _ => 0) (fun _ => 0) (fun _ _ => 0)
           defaultConfig (3 / 10) (ueAxis1 (mkTVector3 0 0 5))
           (ueAxis2 (mkTVector3 0 0 5)) sampleTrack []).
  - exact sampleTrack_selected.
  - apply insideCone_iff. simpl. rewrite deltaR_on_axis. lra.
  - apply insideCone_iff. simpl. rewrite deltaR_on_axis. lra.
  - simpl. lia.
  - simpl. rewrite Rabs_pos_eq; lra.
  - simpl. rewrite Rabs_pos_eq; lra.
  - right. simpl. lra.
Defined.

(** * Further properties of the geometry *)

(** ** When the general case of [getPerpendicularAxis] is valid *)

Lemma quad_delta_factor p :
  quad_delta p =
    4 * (fY p * fY p)
    * ((quad_a p - fZ p * fZ p) * (quad_a p + fZ p * fZ p)).
Proof. unfold quad_delta, quad_a, quad_b, quad_c. ring. Qed.

Lemma quad_delta_neg_iff p :
  fX p <> 0 -> fY p <> 0 ->
  (quad_delta p < 0 <-> quad_a p < fZ p * fZ p).
Proof.
  intros Hx Hy. rewrite quad_delta_factor.
  pose proof (quad_a_pos p Hx) as Ha.
  assert (Hy2 : 0 < fY p * fY p) by nra.
  assert (Hs : 0 < quad_a p + fZ p * fZ p) by nra.
  assert (Hm : 0 < 4 * (fY p * fY p) * (quad_a p + fZ p * fZ p)) by nra.
  split; intro H.
  - destruct (Rlt_or_le (quad_a p) (fZ p * fZ p)) as [L | L]; [exact L |].
    assert (0 <= (quad_a p - fZ p * fZ p)
                 * (4 * (fY p * fY p) * (quad_a p + fZ p * fZ p)))
      by (apply Rmult_le_pos; lra).
    lra.
  - assert (0 < (fZ p * fZ p - quad_a p)
                * (4 * (fY p * fY p) * (quad_a p + fZ p * fZ p)))
      by (apply Rmult_lt_0_compat; lra).
    lra.
Qed.

(** The radicand of a protection branch, [q^2 - pz^4 / q^2], is not
    negative when [pz^2 <= q^2]. *)
Lemma protection_radicand_nonneg q z :
  q <> 0 -> z * z <= q * q -> 0 <= q * q - (z * z) * (z * z) / (q * q).
Proof.
  intros Hq Hz.
  assert (Hq2 : 0 < q * q) by nra.
  assert (H : (z * z) * (z * z) / (q * q) <= q * q).
  { apply (Rmult_le_reg_r (q * q)); [exact Hq2 |].
    replace ((z * z) * (z * z) / (q * q) * (q * q)) with ((z * z) * (z * z))
      by (field; lra).
    assert (0 <= z * z) by nra. nra. }
  lra.
Qed.

(** X1: for a jet axis with both transverse components nonzero the solver
    falls back to the zero vector, with its warning, exactly when the
    discriminant [delta = b^2 - 4 a c] of its quadratic is negative, and
    emits no diagnostic exactly when [delta >= 0].  Over the real
    numbers [delta] is
    [4 py^2 (px^2 + py^2 - pz^2) (px^2 + py^2 + pz^2)], so that it is
    negative exactly when [px^2 + py^2 < pz^2].  The rounding of the
    double computation, which can change the sign of [delta] for an axis
    on or next to the boundary [pz^2 = px^2 + py^2], is outside this
    statement. *)
Theorem X1_general_case_valid_iff :
  forall (p u : TVector3) (sign : R),
    fX p <> 0 -> fY p <> 0 ->
    (quad_delta p < 0 <->
     getPerpendicularAxis p u sign =
       (zeroVector, [LOGP warn invalidInputFormat [quad_delta p; quad_a p]]))
    /\ (0 <= quad_delta p <-> snd (getPerpendicularAxis p u sign) = [])
    /\ quad_delta p
       = 4 * (fY p * fY p)
         * ((fX p * fX p + fY p * fY p - fZ p * fZ p)
            * (fX p * fX p + fY p * fY p + fZ p * fZ p))
    /\ (quad_delta p < 0 <-> fX p * fX p + fY p * fY p < fZ p * fZ p).
Proof.
  intros p u sign Hx Hy.
  pose proof (quad_delta_neg_iff p Hx Hy) as Hiff. unfold quad_a in Hiff.
  assert (Hfactor : quad_delta p
                    = 4 * (fY p * fY p)
                      * ((fX p * fX p + fY p * fY p - fZ p * fZ p)
                         * (fX p * fX p + fY p * fY p + fZ p * fZ p)))
    by (rewrite quad_delta_factor; reflexivity).
  destruct (Rlt_or_le (quad_delta p) 0) as [Hd | Hd].
  - rewrite (gpa_general_invalid p u sign Hx Hy Hd). simpl.
    repeat split; try (intro; assumption); try (intro; reflexivity);
      try exact Hfactor; try (apply Hiff); try (intro; lra).
    discriminate.
  - rewrite (gpa_general p u sign Hx Hy Hd). cbv zeta. simpl.
    repeat split; try (intro; assumption); try (intro; reflexivity);
      try exact Hfactor; try (apply Hiff); try (intro; lra).
    discriminate.
Qed.

(** At [p = (3, 1, 4)], where [px^2 + py^2 = 10 < 16 = pz^2]. *)
Lemma X1_witness :
  getPerpendicularAxis (mkTVector3 3 1 4) zeroVector (-1) =
    (zeroVector,
     [LOGP warn invalidInputFormat
        [quad_delta (mkTVector3 3 1 4); quad_a (mkTVector3 3 1 4)]]).
Proof.
  pose proof (X1_general_case_valid_iff (mkTVector3 3 1 4) zeroVector (-1)
                ltac:(simpl; lra) ltac:(simpl; lra)) as [H1 [_ [_ H4]]].
  apply H1, H4. simpl. lra.
Defined.

(** X2: for a jet axis with a nonzero transverse part and
    [pz^2 <= px^2 + py^2], and [sign] either [+1] or [-1], the output [u]
    comes without diagnostic, is at a right angle to [p] and as long as
    [p]. *)
Theorem X2_axis_orthogonal_same_length :
  forall (p u : TVector3) (sign : R),
    fX p <> 0 \/ fY p <> 0 ->
    fZ p * fZ p <= fX p * fX p + fY p * fY p ->
    sign = 1 \/ sign = -1 ->
    let v := fst (getPerpendicularAxis p u sign) in
    snd (getPerpendicularAxis p u sign) = []
    /\ fX v * fX p + fY v * fY p + fZ v * fZ p = 0
    /\ fX v * fX v + fY v * fY v + fZ v * fZ v
       = fX p * fX p + fY p * fY p + fZ p * fZ p.
Proof.
  intros p u sign Hxy Hz Hsign.
  assert (Hs : sign * sign = 1) by (destruct Hsign; subst; ring).
  destruct (gpa_branches p)
    as [[Hx Hy] | [[Hx Hy] | [[Hy Hx] | [[Hx [Hy Hd]] | [Hx [Hy Hd]]]]]].
  - tauto.
  - rewrite Hx in Hz.
    assert (Hz' : fZ p * fZ p <= fY p * fY p) by lra.
    pose proof (protection_radicand_nonneg _ _ Hy Hz') as Hr.
    rewrite gpa_px_zero by assumption. simpl. rewrite Hx.
    set (r := sqrt _) in *.
    assert (Hrr : r * r = fY p * fY p
                          - (fZ p * fZ p) * (fZ p * fZ p) / (fY p * fY p))
      by (apply sqrt_sqrt; exact Hr).
    split; [reflexivity |]. split; [field; exact Hy |].
    replace (sign * r * (sign * r)) with (sign * sign * (r * r)) by ring.
    rewrite Hs, Hrr. field. exact Hy.
  - rewrite Hy in Hz.
    assert (Hz' : fZ p * fZ p <= fX p * fX p) by lra.
    pose proof (protection_radicand_nonneg _ _ Hx Hz') as Hr.
    rewrite gpa_py_zero by assumption. simpl. rewrite Hy.
    set (r := sqrt _) in *.
    assert (Hrr : r * r = fX p * fX p
                          - (fZ p * fZ p) * (fZ p * fZ p) / (fX p * fX p))
      by (apply sqrt_sqrt; exact Hr).
    split; [reflexivity |]. split; [field; exact Hx |].
    replace (sign * r * (sign * r)) with (sign * sign * (r * r)) by ring.
    rewrite Hs, Hrr. field. exact Hx.
  - apply (quad_delta_neg_iff p Hx Hy) in Hd. unfold quad_a in Hd. lra.
  - destruct (gpa_general_constraint p u sign Hx Hy Hd) as [Hc Hz3].
    destruct (gpa_general_norm p u sign Hx Hy Hd Hs) as [_ Hn].
    cbv zeta in *.
    split; [rewrite gpa_general by assumption; reflexivity |].
    rewrite Hz3. split; lra.
Qed.

Lemma X2_witness :
  let p := mkTVector3 1 2 2 in
  let v := fst (getPerpendicularAxis p zeroVector 1) in
  snd (getPerpendicularAxis p zeroVector 1) = []
  /\ fX v * fX p + fY v * fY p + fZ v * fZ p = 0
  /\ fX v * fX v + fY v * fY v + fZ v * fZ v
     = fX p * fX p + fY p * fY p + fZ p * fZ p.
Proof.
  apply (X2_axis_orthogonal_same_length (mkTVector3 1 2 2) zeroVector 1).
  - left. simpl. lra.
  - simpl. lra.
  - left. reflexivity.
Defined.

(** ** [getDeltaPhi] as a distance between directions *)

Lemma Phi_0_2pi_turns x (k : Z) : Phi_0_2pi (x + IZR k * TwoPI) = Phi_0_2pi x.
Proof.
  unfold Phi_0_2pi. pose proof TwoPI_pos as HT.
  replace ((x + IZR k * TwoPI) / TwoPI) with (x / TwoPI + IZR k)
    by (field; lra).
  rewrite Zfloor_addz, plus_IZR. ring.
Qed.

(** X3: [getDeltaPhi] does not change when either angle is moved by a
    whole number of turns. *)
Theorem X3_getDeltaPhi_periodic :
  forall (a b : R) (j k : Z),
    getDeltaPhi (a + IZR j * (2 * PI)) (b + IZR k * (2 * PI)) = getDeltaPhi a b.
Proof.
  intros a b j k. unfold getDeltaPhi. fold TwoPI.
  now rewrite !Phi_0_2pi_turns.
Qed.

Lemma getDeltaPhi_zero_iff a b :
  getDeltaPhi a b = 0 <-> Phi_0_2pi a = Phi_0_2pi b.
Proof.
  pose proof (diff_range a b) as Hd. pose proof PI_RGT_0 as Hpi.
  split.
  - intro H0.
    destruct (getDeltaPhi_cases a b) as [[H E] | [H E]]; rewrite H0 in E.
    + symmetry in E. revert E. unfold Rabs.
      destruct (Rcase_abs _); lra.
    + unfold TwoPI in *. lra.
  - intro E. unfold getDeltaPhi. rewrite E, Rminus_diag, Rabs_R0.
    rewrite Dbl_leb_true, Dbl_gtb_false by lra. reflexivity.
Qed.

Lemma getDeltaPhi_triangle a b c :
  getDeltaPhi a c <= getDeltaPhi a b + getDeltaPhi b c.
Proof.
  pose proof (Phi_0_2pi_range a) as Ha.
  pose proof (Phi_0_2pi_range b) as Hb.
  pose proof (Phi_0_2pi_range c) as Hc.
  destruct (getDeltaPhi_cases a c) as [[H1 ->] | [H1 ->]];
    destruct (getDeltaPhi_cases a b) as [[H2 ->] | [H2 ->]];
    destruct (getDeltaPhi_cases b c) as [[H3 ->] | [H3 ->]];
    revert H1 H2 H3; unfold Rabs, TwoPI in *;
    repeat destruct (Rcase_abs _); lra.
Qed.

(** X4: [getDeltaPhi] is a distance on directions: it is [0] exactly for
    two angles with the same normalized value, and it satisfies the
    triangle inequality. *)
Theorem X4_getDeltaPhi_metric :
  forall a b c : R,
    (getDeltaPhi a b = 0 <-> Phi_0_2pi a = Phi_0_2pi b)
    /\ getDeltaPhi a c <= getDeltaPhi a b + getDeltaPhi b c.
Proof.
  intros a b c. split; [apply getDeltaPhi_zero_iff | apply getDeltaPhi_triangle].
Qed.

(** ** Cones *)

Lemma deltaR_nonneg e p ae ap : 0 <= deltaR e p ae ap.
Proof. unfold deltaR. apply sqrt_pos. Qed.

Lemma deltaR_sym e p ae ap : deltaR e p ae ap = deltaR ae ap e p.
Proof.
  unfold deltaR. cbv zeta. rewrite (getDeltaPhi_sym p ap).
  f_equal. ring.
Qed.

(** X5: the distance [deltaR] is symmetric and never negative; a cone of
    negative radius holds no direction, and a direction inside a cone is
    inside every wider cone around the same axis. *)
Theorem X5_cone_monotone :
  forall (trkEta trkPhi axisEta axisPhi r r' : R),
    deltaR trkEta trkPhi axisEta axisPhi = deltaR axisEta axisPhi trkEta trkPhi
    /\ 0 <= deltaR trkEta trkPhi axisEta axisPhi
    /\ (r < 0 -> insideCone trkEta trkPhi axisEta axisPhi r = false)
    /\ (r <= r' ->
        insideCone trkEta trkPhi axisEta axisPhi r = true ->
        insideCone trkEta trkPhi axisEta axisPhi r' = true).
Proof.
  intros e p ae ap r r'.
  pose proof (deltaR_nonneg e p ae ap) as H0.
  split; [apply deltaR_sym |]. split; [exact H0 |]. split.
  - intro Hr. unfold insideCone. rewrite Dbl_gtb_true by lra. reflexivity.
  - intros Hrr Hin. apply insideCone_iff in Hin. apply insideCone_iff. lra.
Qed.

Lemma X5_witness : insideCone (1 / 2) 1 (1 / 2) 1 (-1) = false.
Proof.
  apply (proj1 (proj2 (proj2 (X5_cone_monotone (1 / 2) 1 (1 / 2) 1 (-1) 0)))).
  lra.
Defined.

(** X6: a jet of area [pi * r^2] with [r >= 0] gets the cone radius
    [r]. *)
Theorem X6_cone_radius_of_disc :
  forall (jet : PseudoJet) (r : R),
    0 <= r -> jet_area jet = PI * (r * r) -> coneRadiusOf jet = r.
Proof.
  intros jet r Hr Ha. unfold coneRadiusOf. rewrite Ha.
  replace (PI * (r * r) / PI) with (r * r)
    by (field; apply PI_neq0).
  apply sqrt_square. exact Hr.
Qed.

Lemma X6_witness :
  coneRadiusOf (mkPseudoJet 1 2 2 3 0 (PI * (3 / 10 * (3 / 10)))) = 3 / 10.
Proof.
  apply (X6_cone_radius_of_disc _ (3 / 10)); [lra | reflexivity].
Defined.

(** * Track selections *)

(** ** ITS hits *)

Lemma land_pow2 (a n : Z) :
  (0 <= n)%Z ->
  Z.land a (2 ^ n) = if Z.testbit a n then (2 ^ n)%Z else 0%Z.
Proof.
  intro Hn. apply Z.bits_inj'. intros m Hm.
  rewrite Z.land_spec, Z.pow2_bits_eqb by exact Hn.
  destruct (Z.eqb_spec n m) as [-> | Hne].
  - destruct (Z.testbit a m) eqn:E; simpl.
    + now rewrite Z.pow2_bits_true.
    + now rewrite Z.bits_0.
  - rewrite andb_false_r.
    destruct (Z.testbit a n).
    + rewrite Z.pow2_bits_false; [reflexivity | exact Hne].
    + now rewrite Z.bits_0.
Qed.

(** Below bit [31] the shift stays inside [int]: [1 << ibit] is
    [2 ^ ibit]. *)
Lemma shiftLeftInt_pow2 (ibit : Z) :
  (0 <= ibit <= 30)%Z -> shiftLeftInt 1 ibit = (2 ^ ibit)%Z.
Proof.
  intros [Hlo Hhi]. unfold shiftLeftInt, wrapInt.
  rewrite (Z.mod_small ibit 32) by lia. rewrite Z.shiftl_1_l.
  assert (Hpos : (0 < 2 ^ ibit)%Z) by (apply Z.pow_pos_nonneg; lia).
  assert (Hle : (2 ^ ibit <= 2 ^ 30)%Z) by (apply Z.pow_le_mono_r; lia).
  change (2 ^ 30)%Z with 1073741824%Z in Hle.
  change (2 ^ 31)%Z with 2147483648%Z.
  change (2 ^ 32)%Z with 4294967296%Z.
  rewrite Z.mod_small; lia.
Qed.

(** [1 << 31] is the least [int]. *)
Lemma shiftLeftInt_31 : shiftLeftInt 1 31 = (- 2 ^ 31)%Z.
Proof. reflexivity. Qed.

Lemma hasITSHit_testbit track layer :
  (1 <= layer <= 31)%Z ->
  hasITSHit track layer = Z.testbit (itsClusterMap track) (layer - 1).
Proof.
  intro Hl. unfold hasITSHit. cbv zeta.
  rewrite shiftLeftInt_pow2, land_pow2 by lia.
  destruct (Z.testbit (itsClusterMap track) (layer - 1)).
  - assert (0 < 2 ^ (layer - 1))%Z by (apply Z.pow_pos_nonneg; lia).
    destruct (Z.eqb_spec (2 ^ (layer - 1)) 0); [lia | reflexivity].
  - reflexivity.
Qed.

(** A value of eight bits has no bit in common with the least [int]. *)
Lemma land_uint8_min_int (a : Z) :
  (0 <= a < 256)%Z -> Z.land a (- 2 ^ 31) = 0%Z.
Proof.
  intros [Hlo Hhi].
  change (- 2 ^ 31)%Z with (Z.lnot (Z.ones 31)).
  change (Z.land a (Z.lnot (Z.ones 31))) with (Z.ldiff a (Z.ones 31)).
  rewrite Z.ldiff_ones_r by lia.
  rewrite Z.shiftr_div_pow2 by lia.
  rewrite Z.div_small; [reflexivity |].
  split; [exact Hlo |].
  apply Z.lt_le_trans with (2 ^ 8)%Z; [exact Hhi |].
  apply Z.pow_le_mono_r; lia.
Qed.

(** X7: for a layer from [1] to [31], [hasITSHit(track, layer)] reads bit
    [layer - 1] of the cluster map; with a cluster map of eight bits, as
    [uint8_t] gives, no layer from [9] to [32] has a hit.  These are the
    layers for which C++ defines the shift [1 << (layer - 1)] on the
    32-bit [int]; nothing is stated for others. *)
Theorem X7_hasITSHit_reads_bit :
  forall (track : FullTrack) (layer : Z),
    (1 <= layer <= 32)%Z ->
    (layer <= 31 ->
     hasITSHit track layer = Z.testbit (itsClusterMap track) (layer - 1))%Z
    /\ ((0 <= itsClusterMap track < 256)%Z -> (8 < layer)%Z ->
        hasITSHit track layer = false).
Proof.
  intros track layer [Hl Hu]. split.
  { intro H31. apply hasITSHit_testbit. lia. }
  intros [Hlo Hhi] H8.
  destruct (Z.eq_dec layer 32) as [-> | Hne].
  - unfold hasITSHit. cbv zeta. change (32 - 1)%Z with 31%Z.
    rewrite shiftLeftInt_31, land_uint8_min_int by lia. reflexivity.
  - rewrite hasITSHit_testbit by lia.
    apply Z.testbit_false; [lia |].
    rewrite Z.div_small; [reflexivity |].
    split; [exact Hlo |].
    apply Z.lt_le_trans with (2 ^ 8)%Z; [exact Hhi |].
    apply Z.pow_le_mono_r; lia.
Qed.

(** Cluster map [5 = 0b101]: layer [3] has a hit, layer [32] has none. *)
Lemma X7_witness :
  hasITSHit (mkFullTrack sampleTrack 5 0 0 0 (fun _ => 0)) 3 = true
  /\ hasITSHit (mkFullTrack sampleTrack 5 0 0 0 (fun _ => 0)) 32 = false.
Proof.
  split.
  - rewrite (proj1 (X7_hasITSHit_reads_bit
                      (mkFullTrack sampleTrack 5 0 0 0 (fun _ => 0)) 3
                      ltac:(lia)) ltac:(lia)).
    reflexivity.
  - apply (proj2 (X7_hasITSHit_reads_bit
                    (mkFullTrack sampleTrack 5 0 0 0 (fun _ => 0)) 32
                    ltac:(lia))); simpl; lia.
Defined.

Lemma inner_layers_land7 (a : Z) :
  negb (Z.testbit a 0) && negb (Z.testbit a 1) && negb (Z.testbit a 2) = true
  <-> Z.land a 7 = 0%Z.
Proof.
  change 7%Z with (Z.ones 3). rewrite Z.land_ones by lia.
  pose proof (Z.testbit_spec' a 0 ltac:(lia)) as B0.
  pose proof (Z.testbit_spec' a 1 ltac:(lia)) as B1.
  pose proof (Z.testbit_spec' a 2 ltac:(lia)) as B2.
  change (2 ^ 0)%Z with 1%Z in B0. change (2 ^ 1)%Z with 2%Z in B1.
  change (2 ^ 2)%Z with 4%Z in B2. change (2 ^ 3)%Z with 8%Z.
  destruct (Z.testbit a 0), (Z.testbit a 1), (Z.testbit a 2);
    cbn [Z.b2z negb andb] in *; split; intro H;
    try discriminate; try reflexivity;
    first [ revert B0 B1 B2; Z.div_mod_to_equations; lia
          | exfalso; revert B0 B1 B2 H; Z.div_mod_to_equations; lia ].
Qed.

(** ** Crossed over findable rows *)

(** The test [crossed / findable < bound] on a row.  Without findable
    rows the quotient is an infinity or no number, and the test holds
    only for a negative count of crossed rows. *)
Lemma Quotient_ltb_divCounts (n d : Z) (bound : R) :
  Quotient_ltb (divCounts n d) bound
  = if (d =? 0)%Z then (n <? 0)%Z else Dbl.ltb (IZR n / IZR d) bound.
Proof.
  unfold divCounts.
  destruct (d =? 0)%Z; [| reflexivity].
  destruct (Z.ltb_spec 0 n), (Z.ltb_spec n 0); try reflexivity; lia.
Qed.

Lemma Quotient_ltb_false_iff (n d : Z) (bound : R) :
  Quotient_ltb (divCounts n d) bound = false
  <-> (d = 0%Z /\ (0 <= n)%Z) \/ (d <> 0%Z /\ bound <= IZR n / IZR d).
Proof.
  rewrite Quotient_ltb_divCounts.
  destruct (Z.eqb_spec d 0) as [Hd | Hd].
  - rewrite Z.ltb_ge. intuition.
  - destruct (Dbl_ltb_spec (IZR n / IZR d) bound); split; intro H;
      try reflexivity; try discriminate.
    + exfalso. destruct H as [[H0 _] | [_ H1]]; [contradiction | lra].
    + right. split; [exact Hd | lra].
Qed.

(** A quotient that is not below a bound is not below a lower one. *)
Lemma Quotient_ltb_false_mono (q : Quotient) (bound bound' : R) :
  bound' <= bound ->
  Quotient_ltb q bound = false -> Quotient_ltb q bound' = false.
Proof.
  intros Hb. destruct q; simpl; try (intro; assumption).
  destruct (Dbl_ltb_spec x bound); [discriminate |]. intros _.
  apply Dbl_ltb_false. lra.
Qed.

(** ** [passedTrackSelectionForJetReconstruction] *)

Ltac dbl_cases :=
  repeat match goal with
         | |- context [Dbl.ltb ?a ?b] => destruct (Dbl_ltb_spec a b)
         | |- context [Dbl.gtb ?a ?b] =>
           unfold Dbl.gtb; destruct (Dbl_ltb_spec b a)
         | |- context [Dbl.leb ?a ?b] => destruct (Dbl_leb_spec a b)
         | |- context [Dbl.geb ?a ?b] =>
           unfold Dbl.geb; destruct (Dbl_leb_spec b a)
         end.

(** X8: a track passes the selection for jet reconstruction exactly when
    it has ITS and TPC, a hit in one of the three innermost ITS layers,
    at least [70] crossed TPC rows and either no findable row (the
    quotient of crossed over findable rows is then infinite and passes
    the cut) or a quotient of at least [0.8], chi2 per cluster of at
    most [4] (TPC) and [36] (ITS), [|eta| <= 0.8], [pt >= 0.1],
    [|dcaZ| <= 2] and [|dcaXY| <= 0.0105 + 0.035 / pt^1.1]. *)
Theorem X8_jet_track_selection_iff :
  forall track : FullTrack,
    passedTrackSelectionForJetReconstruction track = true
    <-> hasITS (row track) = true
        /\ Z.land (itsClusterMap track) 7 <> 0%Z
        /\ hasTPC (row track) = true
        /\ (70 <= tpcNClsCrossedRows (row track))%Z
        /\ (tpcNClsFindable (row track) = 0%Z
            \/ (tpcNClsFindable (row track) <> 0%Z
                /\ 0.8 <= IZR (tpcNClsCrossedRows (row track))
                          / IZR (tpcNClsFindable (row track))))
        /\ tpcChi2NCl (row track) <= 4
        /\ itsChi2NCl (row track) <= 36
        /\ - 0.8 <= eta (row track) <= 0.8
        /\ 0.1 <= pt (row track)
        /\ Rabs (dcaXY (row track))
           <= 0.0105 + 0.035 / Rpower (pt (row track)) 1.1
        /\ Rabs (dcaZ (row track)) <= 2.
Proof.
  intro track. unfold passedTrackSelectionForJetReconstruction. cbv zeta.
  rewrite !hasITSHit_testbit by lia.
  change (1 - 1)%Z with 0%Z. change (2 - 1)%Z with 1%Z.
  change (3 - 1)%Z with 2%Z.
  pose proof (inner_layers_land7 (itsClusterMap track)) as Hin.
  set (noInnerHit := negb (Z.testbit (itsClusterMap track) 0)
                     && negb (Z.testbit (itsClusterMap track) 1)
                     && negb (Z.testbit (itsClusterMap track) 2)) in *.
  destruct (hasITS (row track)); cbn [negb]; [| intuition discriminate].
  destruct noInnerHit.
  { split; [discriminate |]. intros [_ [Hn _]]. exfalso. apply Hn, Hin.
    reflexivity. }
  assert (Hland : Z.land (itsClusterMap track) 7 <> 0%Z).
  { intro E. apply Hin in E. discriminate. }
  destruct (hasTPC (row track)); cbn [negb]; [| intuition discriminate].
  destruct (Z.ltb_spec (tpcNClsCrossedRows (row track)) 70);
    [split; [discriminate | intros; exfalso; lia] |].
  pose proof (Quotient_ltb_false_iff (tpcNClsCrossedRows (row track))
                (tpcNClsFindable (row track)) 0.8) as Hq.
  destruct (Quotient_ltb _ 0.8).
  { split; [discriminate |].
    intros (_ & _ & _ & _ & Hr & _). exfalso.
    assert (E : true = false) by (apply Hq; destruct Hr as [Hr | Hr];
                                  [left; split; [exact Hr | lia]
                                  | right; exact Hr]).
    discriminate. }
  assert (Hr : tpcNClsFindable (row track) = 0%Z
               \/ (tpcNClsFindable (row track) <> 0%Z
                   /\ 0.8 <= IZR (tpcNClsCrossedRows (row track))
                             / IZR (tpcNClsFindable (row track)))).
  { destruct (proj1 Hq eq_refl) as [[H0 _] | H1];
      [left; exact H0 | right; exact H1]. }
  clear Hq.
  dbl_cases; cbn [orb]; split; intro Hyp; try discriminate; try reflexivity;
    try (exfalso; clear Hr; lra);
    repeat split; try assumption; try lra.
Qed.

(** ** [passedTrackSelection] *)

Lemma passedTrackSelection_iff cfg track :
  passedTrackSelection cfg track = true
  <-> (requirePvContributor cfg = true -> isPVContributor track = true)
      /\ hasITS track = true
      /\ (minItsNclusters cfg <= itsNCls track)%Z
      /\ hasTPC track = true
      /\ (minTpcNcrossedRows cfg <= tpcNClsCrossedRows track)%Z
      /\ Quotient_ltb
           (divCounts (tpcNClsCrossedRows track) (tpcNClsFindable track))
           (minTpcNcrossedRowsOverFindable cfg) = false
      /\ tpcChi2NCl track <= maxChiSquareTpc cfg
      /\ itsChi2NCl track <= maxChiSquareIts cfg
      /\ minEta cfg <= eta track <= maxEta cfg
      /\ minPt cfg <= pt track.
Proof.
  unfold passedTrackSelection.
  destruct (requirePvContributor cfg), (isPVContributor track);
    cbn [negb andb]; try (split; [discriminate | intros [H _]];
                          specialize (H eq_refl); discriminate);
    (destruct (hasITS track); cbn [negb]; [| intuition discriminate];
     destruct (Z.ltb_spec (itsNCls track) (minItsNclusters cfg));
       [split; [discriminate | intros; exfalso; lia] |];
     destruct (hasTPC track); cbn [negb]; [| intuition discriminate];
     destruct (Z.ltb_spec (tpcNClsCrossedRows track) (minTpcNcrossedRows cfg));
       [split; [discriminate | intros; exfalso; lia] |];
     destruct (Quotient_ltb _ (minTpcNcrossedRowsOverFindable cfg));
       [split; [discriminate | intros (_ & _ & _ & _ & _ & Hr & _);
                               discriminate] |];
     dbl_cases; cbn [orb]; split; intro Hyp;
       try discriminate; try reflexivity; try (exfalso; lra);
       repeat split; try assumption; try lra; try discriminate).
Qed.

(** X9: loosening thresholds never rejects a track that passed: if every
    lower threshold of [cfg'] is at most that of [cfg], every upper
    threshold at least that of [cfg], and [cfg'] asks for a
    primary-vertex contributor only if [cfg] does, a track selected under
    [cfg] is selected under [cfg']. *)
Theorem X9_track_selection_monotone :
  forall (cfg cfg' : Config) (track : Track),
    (requirePvContributor cfg' = true -> requirePvContributor cfg = true) ->
    (minItsNclusters cfg' <= minItsNclusters cfg)%Z ->
    (minTpcNcrossedRows cfg' <= minTpcNcrossedRows cfg)%Z ->
    minTpcNcrossedRowsOverFindable cfg' <= minTpcNcrossedRowsOverFindable cfg ->
    maxChiSquareTpc cfg <= maxChiSquareTpc cfg' ->
    maxChiSquareIts cfg <= maxChiSquareIts cfg' ->
    minEta cfg' <= minEta cfg ->
    maxEta cfg <= maxEta cfg' ->
    minPt cfg' <= minPt cfg ->
    passedTrackSelection cfg track = true ->
    passedTrackSelection cfg' track = true.
Proof.
  intros cfg cfg' track Hpv Hits Htpc Hratio Hc2t Hc2i HminEta HmaxEta Hpt H.
  apply passedTrackSelection_iff in H.
  destruct H as [H1 [H2 [H3 [H4 [H5 [H6 [H7 [H8 [[H9 H9'] H10]]]]]]]]].
  apply passedTrackSelection_iff.
  repeat split; try assumption; try lia; try lra.
  - intro Hreq. exact (H1 (Hpv Hreq)).
  - apply (Quotient_ltb_false_mono _ _ _ Hratio H6).
Qed.

Lemma X9_witness :
  passedTrackSelection
    {| minJetPt := 10; requirePvContributor := false; applyItsPid := true;
       minItsNclusters := 3; minTpcNcrossedRows := 70;
       minTpcNcrossedRowsOverFindable := 7 / 10;
       maxChiSquareTpc := 5; maxChiSquareIts := 40; minPt := 1 / 10;
       minEta := - (9 / 10); maxEta := 9 / 10;
       maxDcaxy := 5 / 100; maxDcaz := 5 / 100;
       minNsigmaTpc := - 3; maxNsigmaTpc := 3;
       ptMaxItsPidProt := 1; ptMaxItsPidDeut := 1; ptMaxItsPidHel := 1;
       nSigmaItsMin := - 2; nSigmaItsMax := 2 |} sampleTrack = true.
Proof.
  apply (X9_track_selection_monotone defaultConfig); simpl;
    try lia; try lra; try (intro; assumption).
  exact sampleTrack_selected.
Defined.

(** ** [isHighPurityAntiproton] *)

(** X10: a track counts as a high-purity antiproton exactly when its TPC
    [n sigma] is within [2] and, from [pt = 0.5] on, it also has a TOF
    signal with [n sigma] within [2]. *)
Theorem X10_high_purity_antiproton_iff :
  forall track : Track,
    isHighPurityAntiproton track = true
    <-> Rabs (tpcNSigmaPr track) < 2
        /\ (pt track < 0.5
            \/ (hasTOF track = true /\ Rabs (tofNSigmaPr track) < 2)).
Proof.
  intro track. unfold isHighPurityAntiproton. cbv zeta.
  destruct (hasTOF track); dbl_cases; cbn [andb];
    split; intro H;
    first [ reflexivity
          | discriminate
          | exfalso; intuition (try discriminate; lra)
          | intuition lra ].
Qed.

(** ** [shouldRejectEvent] *)

Lemma shouldRejectEvent_draw {Gen : Type} rp (dis : Gen -> Z * Gen) gen :
  shouldRejectEvent rp dis gen =
    ((fst (dis gen) <=? rp)%Z, snd (dis gen)).
Proof.
  unfold shouldRejectEvent. destruct (dis gen) as [n gen']. simpl.
  rewrite Z.gtb_ltb. destruct (Z.ltb_spec rp n), (Z.leb_spec n rp);
    try reflexivity; lia.
Qed.

Lemma count_le_upto (rp : Z) (n : nat) :
  List.length (filter (fun k => (k <=? rp)%Z) (map Z.of_nat (seq 0 n)))
  = Z.to_nat (Z.min (Z.of_nat n) (Z.max 0 (rp + 1))).
Proof.
  induction n as [| n IH].
  - simpl. destruct (Z.max 0 (rp + 1)); reflexivity.
  - rewrite seq_S, map_app, filter_app, length_app, IH. simpl.
    destruct (Z.leb_spec (Z.of_nat n) rp); simpl; lia.
Qed.

(** X11: of the hundred values the draw can give, the event is rejected
    for those up to [rejectionPercentage], that is for
    [rejectionPercentage + 1] of them when the percentage lies between
    [0] and [99], for none when it is negative and for all from [99] on;
    the generator moves on by one draw in either case. *)
Theorem X11_rejected_draws :
  forall (Gen : Type) (rejectionPercentage : Z) (next : Gen -> Gen) (gen : Gen),
    List.length
      (filter (fun n => fst (shouldRejectEvent rejectionPercentage
                               (fun g => (n, next g)) gen))
              drawValues)
    = Z.to_nat (Z.min 100 (Z.max 0 (rejectionPercentage + 1)))
    /\ (forall n : Z,
          snd (shouldRejectEvent rejectionPercentage
                 (fun g => (n, next g)) gen) = next gen).
Proof.
  intros Gen rp next gen. split.
  - unfold drawValues.
    rewrite (filter_ext _ (fun k => (k <=? rp)%Z)).
    + apply (count_le_upto rp 100).
    + intro n. now rewrite shouldRejectEvent_draw.
  - intro n. now rewrite shouldRejectEvent_draw.
Qed.

(** * The particles handed to the jet finder *)

Section CollectParticles.

Variable MassPionCharged : R.

Local Abbreviation particleOf :=
  (fun it : nat * FullTrack =>
     mkFjParticle (px (snd it)) (py (snd it)) (pz (snd it))
       (energy (snd it) MassPionCharged) (Z.of_nat (fst it))).

Local Abbreviation selected :=
  (fun it : nat * FullTrack =>
     passedTrackSelectionForJetReconstruction (snd it)).

(** The loop in closed form: the selected tracks, each with its position
    in the table. *)
Lemma collectParticles_closed tracks :
  forall (n : nat) (acc : list FjParticle),
    collectParticles MassPionCharged tracks (Z.of_nat n - 1) acc =
      ((Z.of_nat (n + List.length tracks) - 1)%Z,
       acc ++ map particleOf
                (filter selected (combine (seq n (List.length tracks)) tracks))).
Proof.
  induction tracks as [| track rest IH]; intros n acc.
  - simpl. rewrite app_nil_r, Nat.add_0_r. reflexivity.
  - cbn [collectParticles List.length seq combine filter].
    replace (Z.of_nat n - 1 + 1)%Z with (Z.of_nat (S n) - 1)%Z by lia.
    cbn [snd].
    destruct (passedTrackSelectionForJetReconstruction track); cbn [negb].
    + rewrite IH. cbn [map fst snd]. rewrite <- app_assoc.
      replace (Z.of_nat (S n) - 1)%Z with (Z.of_nat n) by lia.
      replace (S n + List.length rest)%nat
        with (n + S (List.length rest))%nat by lia.
      reflexivity.
    + rewrite IH.
      replace (S n + List.length rest)%nat
        with (n + S (List.length rest))%nat by lia.
      reflexivity.
Qed.

Lemma in_combine_seq {A : Type} (l : list A) (n i : nat) (x : A) :
  In (i, x) (combine (seq n (List.length l)) l) ->
  (n <= i)%nat /\ nth_error l (i - n) = Some x.
Proof.
  revert n. induction l as [| y l IH]; intros n H; simpl in H.
  - contradiction.
  - destruct H as [H | H].
    + injection H as <- <-. rewrite Nat.sub_diag. split; [lia | reflexivity].
    + apply IH in H. destruct H as [Hle Hnth]. split; [lia |].
      replace (i - n)%nat with (S (i - S n)) by lia. exact Hnth.
Qed.

Lemma nth_error_combine_seq {A : Type} (l : list A) (n i : nat) (x : A) :
  nth_error l i = Some x ->
  In ((n + i)%nat, x) (combine (seq n (List.length l)) l).
Proof.
  revert n i. induction l as [| y l IH]; intros n i H.
  - destruct i; discriminate.
  - destruct i as [| i]; simpl in *.
    + injection H as ->. left. now rewrite Nat.add_0_r.
    + right. replace (n + S i)%nat with (S n + i)%nat by lia.
      apply IH. exact H.
Qed.

Lemma seq_indices_increasing {A : Type} (f : nat * A -> bool) (l : list A) n :
  StronglySorted Z.lt
    (map (fun it : nat * A => Z.of_nat (fst it))
       (filter f (combine (seq n (List.length l)) l))).
Proof.
  revert n. induction l as [| y l IH]; intro n; simpl.
  - constructor.
  - destruct (f (n, y)); simpl; [| apply IH].
    constructor; [apply IH |].
    apply Forall_forall. intros z Hz.
    apply in_map_iff in Hz. destruct Hz as [[i x] [<- Hin]].
    apply filter_In in Hin. destruct Hin as [Hin _].
    apply in_combine_seq in Hin. simpl. lia.
Qed.

End CollectParticles.

(** X12: the loop that builds the input of the jet finder, entered with
    [id = -1] and no particle, yields one particle per track that passes
    [passedTrackSelectionForJetReconstruction] and none else: the user
    index of a particle is the position of its track, so
    [tracks.iteratorAt(user_index)] gives back a selected track with the
    momentum of the particle; every selected track has its particle; the
    user indices increase strictly along the list. *)
Theorem X12_particles_index_their_tracks :
  forall (MassPionCharged : R) (tracks : list FullTrack),
    let fjParticles :=
      snd (collectParticles MassPionCharged tracks (-1) []) in
    (forall particle : FjParticle,
       In particle fjParticles ->
       exists track : FullTrack,
         iteratorAt tracks (user_index particle) = Some track
         /\ passedTrackSelectionForJetReconstruction track = true
         /\ fj_px particle = px track /\ fj_py particle = py track
         /\ fj_pz particle = pz track
         /\ fj_E particle = energy track MassPionCharged)
    /\ (forall (i : nat) (track : FullTrack),
          nth_error tracks i = Some track ->
          passedTrackSelectionForJetReconstruction track = true ->
          In (mkFjParticle (px track) (py track) (pz track)
                (energy track MassPionCharged) (Z.of_nat i)) fjParticles)
    /\ StronglySorted Z.lt (map user_index fjParticles)
    /\ (List.length fjParticles <= List.length tracks)%nat.
Proof.
  intros m tracks fjParticles.
  assert (E : fjParticles =
              map (fun it : nat * FullTrack =>
                     mkFjParticle (px (snd it)) (py (snd it)) (pz (snd it))
                       (energy (snd it) m) (Z.of_nat (fst it)))
                (filter (fun it : nat * FullTrack =>
                           passedTrackSelectionForJetReconstruction (snd it))
                   (combine (seq 0 (List.length tracks)) tracks))).
  { unfold fjParticles.
    change (-1)%Z with (Z.of_nat 0 - 1)%Z.
    rewrite (collectParticles_closed m tracks 0 []). reflexivity. }
  rewrite E. split; [| split; [| split]].
  - intros particle Hin. apply in_map_iff in Hin.
    destruct Hin as [[i track] [<- Hin]].
    apply filter_In in Hin. destruct Hin as [Hin Hsel].
    apply in_combine_seq in Hin. destruct Hin as [_ Hnth].
    exists track. simpl. repeat split; try assumption.
    unfold iteratorAt.
    destruct (Z.ltb_spec (Z.of_nat i) 0); [lia |].
    rewrite Nat2Z.id. now rewrite Nat.sub_0_r in Hnth.
  - intros i track Hnth Hsel. apply in_map_iff.
    exists (i, track). split; [reflexivity |].
    apply filter_In. split; [| exact Hsel].
    apply (nth_error_combine_seq tracks 0 i track Hnth).
  - rewrite map_map. simpl. apply seq_indices_increasing.
  - rewrite length_map.
    eapply Nat.le_trans; [apply filter_length_le |].
    rewrite length_combine, length_seq. lia.
Qed.

(** * The two loops over one jet *)

Section JetAndUnderlyingEvent.

Variables (Eta Phi : TVector3 -> R) (nSigmaITS : PID -> Track -> R).
Variable cfg : Config.

Ltac split_conditions :=
  repeat match goal with
         | |- context [if ?c then _ else _] => destruct c
         end.

Lemma jetTrack_appends track registry :
  jetTrack nSigmaITS cfg track registry =
    registry ++ jetTrack nSigmaITS cfg track [].
Proof.
  unfold jetTrack, fill. cbv zeta.
  split_conditions; simpl; rewrite <- ?app_assoc, ?app_nil_r; reflexivity.
Qed.

(** The iteration of the underlying-event loop is that of the
    constituents loop, once the cone test is passed, with every histogram
    replaced by its counterpart. *)
Lemma ueTrack_mirrors_jetTrack coneRadius axis1 axis2 track :
  outsideUeCones Eta Phi coneRadius axis1 axis2 track = false ->
  ueTrack Eta Phi nSigmaITS cfg coneRadius axis1 axis2 track [] =
    map asUeFill (jetTrack nSigmaITS cfg track []).
Proof.
  intro Hcone. unfold ueTrack, jetTrack, fill. rewrite Hcone. cbv zeta.
  split_conditions; reflexivity.
Qed.

Lemma jetTrack_hists track :
  incl (map fill_hist (jetTrack nSigmaITS cfg track [])) jetHists.
Proof.
  unfold jetTrack, fill. cbv zeta.
  split_conditions; simpl; intros name Hin; simpl in Hin; unfold jetHists;
    simpl; tauto.
Qed.

Lemma ueTrack_hists coneRadius axis1 axis2 track :
  incl (map fill_hist
          (ueTrack Eta Phi nSigmaITS cfg coneRadius axis1 axis2 track []))
       ueHists.
Proof.
  unfold ueTrack, fill. cbv zeta.
  split_conditions; simpl; intros name Hin; simpl in Hin; unfold ueHists;
    simpl; tauto.
Qed.

End JetAndUnderlyingEvent.

Section LoopsOfOneJet.

Variables (Eta Phi : TVector3 -> R) (nSigmaITS : PID -> Track -> R).
Variable cfg : Config.

Lemma jetLoop_appends tracks jetConstituents :
  forall registry,
    jetLoop nSigmaITS cfg tracks jetConstituents registry =
      registry ++ jetLoop nSigmaITS cfg tracks jetConstituents [].
Proof.
  induction jetConstituents as [| particle rest IH]; intro registry; simpl.
  - now rewrite app_nil_r.
  - destruct (iteratorAt tracks (user_index particle)) as [track |].
    + rewrite IH, (IH (jetTrack nSigmaITS cfg (row track) [])).
      rewrite (jetTrack_appends nSigmaITS cfg (row track) registry).
      now rewrite app_assoc.
    + apply IH.
Qed.

Lemma ueLoop_appends coneRadius axis1 axis2 tracks :
  forall registry,
    ueLoop Eta Phi nSigmaITS cfg coneRadius axis1 axis2 tracks registry =
      registry
      ++ ueLoop Eta Phi nSigmaITS cfg coneRadius axis1 axis2 tracks [].
Proof.
  induction tracks as [| track rest IH]; intro registry; simpl.
  - now rewrite app_nil_r.
  - rewrite IH,
      (IH (ueTrack Eta Phi nSigmaITS cfg coneRadius axis1 axis2 track [])).
    rewrite (ueTrack_appends Eta Phi nSigmaITS cfg coneRadius axis1 axis2
               track registry).
    now rewrite app_assoc.
Qed.

Lemma jetLoop_hists tracks jetConstituents :
  incl (map fill_hist (jetLoop nSigmaITS cfg tracks jetConstituents []))
       jetHists.
Proof.
  induction jetConstituents as [| particle rest IH]; simpl.
  - intros name [].
  - destruct (iteratorAt tracks (user_index particle)) as [track |];
      [| exact IH].
    rewrite jetLoop_appends, map_app.
    apply incl_app; [apply jetTrack_hists | exact IH].
Qed.

Lemma ueLoop_hists coneRadius axis1 axis2 tracks :
  incl (map fill_hist
          (ueLoop Eta Phi nSigmaITS cfg coneRadius axis1 axis2 tracks []))
       ueHists.
Proof.
  induction tracks as [| track rest IH]; simpl.
  - intros name [].
  - rewrite ueLoop_appends, map_app.
    apply incl_app; [apply ueTrack_hists | exact IH].
Qed.

Lemma entries_outside name (added : Registry) (hists : list string) :
  incl (map fill_hist added) hists -> ~ In name hists ->
  entries name added = 0%nat.
Proof.
  intros Hincl Hnot. unfold entries.
  apply count_occ_not_In. intro Hin. apply Hnot, Hincl, Hin.
Qed.

End LoopsOfOneJet.

(** X13: for a track that is not outside both cones, the iteration of
    the underlying-event loop makes the fills the iteration of the
    constituents loop makes for the same track, with the same values and
    in the same order, each in the underlying-event counterpart of the
    jet histogram. *)
Theorem X13_underlying_event_mirrors_jet :
  forall (Eta Phi : TVector3 -> R) (nSigmaITS : PID -> Track -> R)
         (cfg : Config) (coneRadius : R) (axis1 axis2 : TVector3)
         (track : Track) (registry : Registry),
    outsideUeCones Eta Phi coneRadius axis1 axis2 track = false ->
    ueTrack Eta Phi nSigmaITS cfg coneRadius axis1 axis2 track registry =
      registry ++ map asUeFill (jetTrack nSigmaITS cfg track []).
Proof.
  intros Eta Phi nSigmaITS cfg coneRadius axis1 axis2 track registry Hcone.
  rewrite ueTrack_appends. f_equal.
  apply ueTrack_mirrors_jetTrack. exact Hcone.
Qed.

Lemma sampleTrack_in_cone :
  outsideUeCones (fun _ => 0) (fun _ => 0) (3 / 10) zeroVector zeroVector
    sampleTrack = false.
Proof.
  rewrite outsideUeCones_insideCone.
  assert (H : insideCone (eta sampleTrack) (phi sampleTrack) 0 0 (3 / 10)
              = true).
  { apply insideCone_iff. simpl. rewrite deltaR_on_axis. lra. }
  rewrite H. reflexivity.
Qed.

Lemma X13_witness :
  ueTrack (fun _ => 0) (fun _ => 0) (fun _ _ => 0) defaultConfig (3 / 10)
    zeroVector zeroVector sampleTrack [] =
    [] ++ map asUeFill (jetTrack (fun _ _ => 0) defaultConfig sampleTrack []).
Proof.
  apply (X13_underlying_event_mirrors_jet (fun _ => 0) (fun _ => 0)
           (fun _ _ => 0) defaultConfig (3 / 10) zeroVector zeroVector
           sampleTrack []).
  exact sampleTrack_in_cone.
Defined.

(** X14: the loop over the constituents of a jet fills jet histograms
    only and the underlying-event loop fills underlying-event histograms
    only: neither changes the number of entries of a histogram of the
    other, nor of the event counter. *)
Theorem X14_loops_fill_their_own_histograms :
  forall (Eta Phi : TVector3 -> R) (nSigmaITS : PID -> Track -> R)
         (cfg : Config) (coneRadius : R) (axis1 axis2 : TVector3)
         (fullTracks : list FullTrack) (jetConstituents : list FjParticle)
         (tracks : list Track) (registry : Registry) (name : string),
    (~ In name jetHists ->
     entries name (jetLoop nSigmaITS cfg fullTracks jetConstituents registry)
     = entries name registry)
    /\ (~ In name ueHists ->
        entries name
          (ueLoop Eta Phi nSigmaITS cfg coneRadius axis1 axis2 tracks registry)
        = entries name registry).
Proof.
  intros Eta Phi nSigmaITS cfg coneRadius axis1 axis2 fullTracks
    jetConstituents tracks registry name.
  split; intro Hnot.
  - rewrite jetLoop_appends, entries_app.
    rewrite (entries_outside name _ jetHists (jetLoop_hists _ _ _ _) Hnot).
    lia.
  - rewrite ueLoop_appends, entries_app.
    rewrite (entries_outside name _ ueHists
               (ueLoop_hists _ _ _ _ _ _ _ _) Hnot).
    lia.
Qed.

Lemma X14_witness :
  entries "antiproton_ue_tpc"
    (jetLoop (fun _ _ => 0) defaultConfig
       [mkFullTrack sampleTrack 7 0 0 0 (fun _ => 0)]
       [mkFjParticle 0 0 0 0 0] [])
  = entries "antiproton_ue_tpc" [].
Proof.
  apply (proj1 (X14_loops_fill_their_own_histograms
                  (fun _ => 0) (fun _ => 0) (fun _ _ => 0) defaultConfig 0
                  zeroVector zeroVector
                  [mkFullTrack sampleTrack 7 0 0 0 (fun _ => 0)]
                  [mkFjParticle 0 0 0 0 0] [] [] "antiproton_ue_tpc")).
  unfold jetHists. simpl. intuition discriminate.
Defined.

(** * [processData] *)

Lemma fillsOf_app name (r1 r2 : Registry) :
  fillsOf name (r1 ++ r2) = fillsOf name r1 ++ fillsOf name r2.
Proof. unfold fillsOf. now rewrite filter_app, map_app. Qed.

Lemma fillsOf_outside name (added : Registry) (hists : list string) :
  incl (map fill_hist added) hists -> ~ In name hists ->
  fillsOf name added = [].
Proof.
  intros Hincl Hnot. unfold fillsOf.
  induction added as [| f added IH]; [reflexivity |]. simpl.
  destruct (string_dec (fill_hist f) name) as [E | E].
  - exfalso. apply Hnot, Hincl. left. exact E.
  - apply IH. intros x Hx. apply Hincl. right. exact Hx.
Qed.

Lemma collectParticles_nonempty MassPionCharged tracks :
  (List.length (snd (collectParticles MassPionCharged tracks (-1) []))
   <? 1)%nat = false ->
  exists track : FullTrack,
    In track tracks /\ passedTrackSelectionForJetReconstruction track = true.
Proof.
  change (-1)%Z with (Z.of_nat 0 - 1)%Z.
  rewrite collectParticles_closed. cbn [snd app].
  intro Hlen. apply Nat.ltb_ge in Hlen. rewrite length_map in Hlen.
  destruct (filter _ _) as [| [i track] rest] eqn:E; [simpl in Hlen; lia |].
  assert (Hin : In (i, track)
                   (filter (fun it : nat * FullTrack =>
                              passedTrackSelectionForJetReconstruction (snd it))
                      (combine (seq 0 (List.length tracks)) tracks)))
    by (rewrite E; left; reflexivity).
  apply filter_In in Hin. destruct Hin as [Hin Hsel].
  exists track. split; [| exact Hsel].
  apply in_combine_r in Hin. exact Hin.
Qed.

Section ProcessDataFacts.

Variables Gen Rng : Type.
Variable dis : Gen -> Z * Gen.
Variables Eta Phi : TVector3 -> R.
Variable nSigmaITS : PID -> Track -> R.
Variable MassPionCharged : R.
Variable clusterJets : R -> list FjParticle -> list Jet.
Variable estimateRhoPerpCone : list FjParticle -> list Jet -> R * R.
Variable doRhoAreaSub : PseudoJet -> R -> R -> PseudoJet.
Variable cfg : Config.
Variable ecfg : EventConfig.
Variable responseMatrix : option (TH2 Rng).

Local Abbreviation processJet' :=
  (processJet Gen Rng Eta Phi nSigmaITS doRhoAreaSub cfg ecfg responseMatrix).

(** A jet adds fills of the jet and underlying-event histograms only,
    and leaves the generator of the event rejection alone. *)
Lemma processJet_registry tracks rhoPerp rhoMPerp jet st :
  exists added : Registry,
    registryData (fst (processJet' tracks rhoPerp rhoMPerp jet st))
    = registryData (fst st) ++ added
    /\ incl (map fill_hist added) (jetHists ++ ueHists)
    /\ gen (fst (processJet' tracks rhoPerp rhoMPerp jet st)) = gen (fst st).
Proof.
  destruct st as [s flag]. unfold processJet.
  destruct (Dbl.gtb _ _).
  { exists []. rewrite app_nil_r. repeat split. intros x []. }
  cbv zeta.
  destruct (getCorrectedPt _ responseMatrix (gRandom s)) as [[ptc g'] log1].
  destruct (Dbl.ltb ptc (minJetPt cfg)).
  { exists []. simpl. rewrite app_nil_r. repeat split. intros x []. }
  destruct (getPerpendicularAxis _ _ 1) as [axis1 log2].
  destruct (getPerpendicularAxis _ _ (-1)) as [axis2 log3].
  cbn [fst registryData gen].
  rewrite ueLoop_appends, jetLoop_appends, <- app_assoc.
  eexists. split; [reflexivity |]. split; [| reflexivity].
  rewrite map_app. apply incl_app.
  - apply incl_appl, jetLoop_hists.
  - apply incl_appr, ueLoop_hists.
Qed.

Lemma processJets_registry tracks rhoPerp rhoMPerp jets :
  forall st,
  exists added : Registry,
    registryData
      (fst (fold_left (fun st jet => processJet' tracks rhoPerp rhoMPerp jet st)
              jets st))
    = registryData (fst st) ++ added
    /\ incl (map fill_hist added) (jetHists ++ ueHists)
    /\ gen (fst (fold_left
                   (fun st jet => processJet' tracks rhoPerp rhoMPerp jet st)
                   jets st)) = gen (fst st).
Proof.
  induction jets as [| jet rest IH]; intro st; simpl.
  - exists []. rewrite app_nil_r. repeat split. intros x [].
  - destruct (IH (processJet' tracks rhoPerp rhoMPerp jet st))
      as [added2 [E2 [I2 G2]]].
    destruct (processJet_registry tracks rhoPerp rhoMPerp jet st)
      as [added1 [E1 [I1 G1]]].
    exists (added1 ++ added2). rewrite E2, E1, <- app_assoc.
    split; [reflexivity |]. split; [| congruence].
    rewrite map_app. apply incl_app; assumption.
Qed.

End ProcessDataFacts.

Lemma counter_not_a_jet_hist :
  ~ In "number_of_events_data"%string (jetHists ++ ueHists).
Proof. unfold jetHists, ueHists. simpl. intuition discriminate. Qed.

Ltac booked :=
  let x := fresh in
  intros x; unfold bookedData; simpl; intuition (subst; auto).

Lemma jet_ue_hists_booked : incl (jetHists ++ ueHists) bookedData.
Proof.
  intros x. unfold jetHists, ueHists, bookedData. simpl. intuition.
Qed.

(** The shape of what one call adds to the registry. *)
Lemma processData_shape :
  forall (Gen Rng : Type) (dis : Gen -> Z * Gen) (Eta Phi : TVector3 -> R)
         (nSigmaITS : PID -> Track -> R) (MassPionCharged : R)
         (clusterJets : R -> list FjParticle -> list Jet)
         (estimateRhoPerpCone : list FjParticle -> list Jet -> R * R)
         (doRhoAreaSub : PseudoJet -> R -> R -> PseudoJet)
         (cfg : Config) (ecfg : EventConfig)
         (responseMatrix : option (TH2 Rng))
         (collision : Collision) (tracks : list FullTrack)
         (s : DataState Gen Rng),
  exists (added : Registry) (k : nat),
    registryData
      (processData Gen Rng dis Eta Phi nSigmaITS MassPionCharged clusterJets
         estimateRhoPerpCone doRhoAreaSub cfg ecfg responseMatrix
         collision tracks s)
    = registryData s ++ added
    /\ incl (map fill_hist added) bookedData
    /\ fillsOf "number_of_events_data" added
       = firstn k [[0.5]; [1.5]; [2.5]; [3.5]]
    /\ (k <= 4)%nat
    /\ (rejectEvents ecfg = false -> (1 <= k)%nat)
    /\ ((2 <= k)%nat ->
        sel8 collision = true /\ Rabs (posZ collision) <= zVtx ecfg)
    /\ ((3 <= k)%nat ->
        exists track : FullTrack,
          In track tracks
          /\ passedTrackSelectionForJetReconstruction track = true).
Proof.
  intros Gen Rng dis Eta Phi nSigmaITS MassPionCharged clusterJets
    estimateRhoPerpCone doRhoAreaSub cfg ecfg responseMatrix collision tracks s.
  unfold processData, fill.
  set (counter := "number_of_events_data"%string).
  match goal with
  | |- context [if rejectEvents ecfg then ?A else ?B] =>
    set (rejection := if rejectEvents ecfg then A else B)
  end.
  assert (Hrej : exists (pre : Registry) (s0 : DataState Gen Rng) (b : bool),
            rejection = (b, s0)
            /\ registryData s0 = registryData s ++ pre
            /\ incl (map fill_hist pre) bookedData
            /\ fillsOf counter pre = []
            /\ (rejectEvents ecfg = false -> b = false)).
  { unfold rejection. destruct (rejectEvents ecfg).
    - cbv zeta.
      destruct (shouldRejectEvent _ dis (gen s)) as [[|] gen'].
      + eexists _, _, _. split; [reflexivity |]. cbn [registryData].
        split; [reflexivity |]. split; [booked |].
        split; [reflexivity | discriminate].
      + eexists _, _, _. split; [reflexivity |]. cbn [registryData].
        rewrite <- app_assoc.
        split; [reflexivity |]. split; [booked |].
        split; [reflexivity | discriminate].
    - exists [], s, false. rewrite app_nil_r. repeat split. intros x []. }
  clearbody rejection.
  destruct Hrej as [pre [s0 [b [-> [Hreg [Hbk [Hpre Hb]]]]]]].
  destruct b.
  { exists pre, 0%nat. rewrite Hpre. cbn [firstn].
    repeat split; try lia; try reflexivity; try exact Hreg; try exact Hbk.
    intro H. specialize (Hb H). discriminate. }
  rewrite Hreg.
  destruct (negb (sel8 collision)
            || Dbl.gtb (Rabs (posZ collision)) (zVtx ecfg)) eqn:Hsel.
  { exists (pre ++ [mkFill counter [0.5]]), 1%nat. cbn [registryData].
    rewrite <- app_assoc, fillsOf_app, Hpre.
    repeat split; try lia; try reflexivity.
    rewrite map_app. apply incl_app; [exact Hbk | booked]. }
  apply orb_false_iff in Hsel. destruct Hsel as [Hsel8 Hz].
  apply negb_false_iff in Hsel8.
  assert (Hz' : Rabs (posZ collision) <= zVtx ecfg).
  { unfold Dbl.gtb in Hz.
    destruct (Dbl_ltb_spec (zVtx ecfg) (Rabs (posZ collision)));
      [discriminate | lra]. }
  pose proof (collectParticles_nonempty MassPionCharged tracks) as Hne.
  destruct (collectParticles MassPionCharged tracks (-1) [])
    as [id fjParticles].
  cbn [snd] in Hne.
  destruct (List.length fjParticles <? 1)%nat eqn:Hlen.
  { exists (pre ++ [mkFill counter [0.5]; mkFill counter [1.5]]), 2%nat.
    cbn [registryData].
    rewrite <- !app_assoc, fillsOf_app, Hpre.
    repeat split; try lia; try reflexivity; try assumption;
      try (intro; assumption).
    rewrite map_app. apply incl_app; [exact Hbk | booked]. }
  specialize (Hne eq_refl).
  destruct (estimateRhoPerpCone fjParticles
              (clusterJets (rJet ecfg) fjParticles)) as [rhoPerp rhoMPerp].
  match goal with
  | |- context [fold_left ?f ?jets ?st] =>
    destruct (processJets_registry Gen Rng Eta Phi nSigmaITS doRhoAreaSub
                cfg ecfg responseMatrix tracks rhoPerp rhoMPerp jets st)
      as [added [Eadd [Iadd _]]];
    destruct (fold_left f jets st) as [s' flag]
  end.
  cbn [fst registryData] in Eadd.
  pose proof (fillsOf_outside counter added _ Iadd counter_not_a_jet_hist)
    as Hadd.
  destruct flag.
  - exists (pre ++ [mkFill counter [0.5]; mkFill counter [1.5];
                    mkFill counter [2.5]] ++ added ++ [mkFill counter [3.5]]),
      4%nat.
    cbn [registryData]. rewrite Eadd.
    rewrite <- !app_assoc. cbn [app].
    split; [reflexivity |].
    rewrite fillsOf_app, Hpre.
    change (mkFill counter [0.5] :: mkFill counter [1.5]
            :: mkFill counter [2.5] :: added ++ [mkFill counter [3.5]])
      with ([mkFill counter [0.5]; mkFill counter [1.5];
             mkFill counter [2.5]] ++ added ++ [mkFill counter [3.5]]).
    rewrite !fillsOf_app, Hadd.
    repeat split; try lia; try reflexivity; try assumption;
      try (intro; assumption).
    rewrite !map_app.
    repeat (apply incl_app);
      first [ exact Hbk
            | solve [booked]
            | eapply incl_tran; [exact Iadd | exact jet_ue_hists_booked] ].
  - exists (pre ++ [mkFill counter [0.5]; mkFill counter [1.5];
                    mkFill counter [2.5]] ++ added), 3%nat.
    rewrite Eadd. rewrite <- !app_assoc. cbn [app].
    split; [reflexivity |].
    rewrite fillsOf_app, Hpre.
    change (mkFill counter [0.5] :: mkFill counter [1.5]
            :: mkFill counter [2.5] :: added)
      with ([mkFill counter [0.5]; mkFill counter [1.5];
             mkFill counter [2.5]] ++ added).
    rewrite !fillsOf_app, Hadd.
    repeat split; try lia; try reflexivity; try assumption;
      try (intro; assumption).
    rewrite !map_app.
    repeat (apply incl_app);
      first [ exact Hbk
            | solve [booked]
            | eapply incl_tran; [exact Iadd | exact jet_ue_hists_booked] ].
Qed.
(** X15: one call of [processData] only appends to the registry, and
    what it adds to the event counter [number_of_events_data] is an
    initial part of [0.5, 1.5, 2.5, 3.5], in this order: [0.5] is there
    unless the event was rejected at random, [1.5] only for an event with
    [sel8] and [|posZ| <= zVtx], [2.5] only if some track passes the
    selection for jet reconstruction. *)
Theorem X15_processData_cut_flow :
  forall (Gen Rng : Type) (dis : Gen -> Z * Gen) (Eta Phi : TVector3 -> R)
         (nSigmaITS : PID -> Track -> R) (MassPionCharged : R)
         (clusterJets : R -> list FjParticle -> list Jet)
         (estimateRhoPerpCone : list FjParticle -> list Jet -> R * R)
         (doRhoAreaSub : PseudoJet -> R -> R -> PseudoJet)
         (cfg : Config) (ecfg : EventConfig)
         (responseMatrix : option (TH2 Rng))
         (collision : Collision) (tracks : list FullTrack)
         (s : DataState Gen Rng),
  exists (added : Registry) (k : nat),
    registryData
      (processData Gen Rng dis Eta Phi nSigmaITS MassPionCharged clusterJets
         estimateRhoPerpCone doRhoAreaSub cfg ecfg responseMatrix
         collision tracks s)
    = registryData s ++ added
    /\ fillsOf "number_of_events_data" added
       = firstn k [[0.5]; [1.5]; [2.5]; [3.5]]
    /\ (k <= 4)%nat
    /\ (rejectEvents ecfg = false -> (1 <= k)%nat)
    /\ ((2 <= k)%nat ->
        sel8 collision = true /\ Rabs (posZ collision) <= zVtx ecfg)
    /\ ((3 <= k)%nat ->
        exists track : FullTrack,
          In track tracks
          /\ passedTrackSelectionForJetReconstruction track = true).
Proof.
  intros Gen Rng dis Eta Phi nSigmaITS MassPionCharged clusterJets
    estimateRhoPerpCone doRhoAreaSub cfg ecfg responseMatrix collision tracks s.
  destruct (processData_shape Gen Rng dis Eta Phi nSigmaITS MassPionCharged
              clusterJets estimateRhoPerpCone doRhoAreaSub cfg ecfg
              responseMatrix collision tracks s)
    as [added [k [H1 [_ H2]]]].
  exists added, k. split; assumption.
Qed.

(** X21: every histogram [processData] fills is one that [init] adds to
    [registryData] when [doprocessData] is set. *)
Theorem X21_processData_fills_booked_histograms :
  forall (Gen Rng : Type) (dis : Gen -> Z * Gen) (Eta Phi : TVector3 -> R)
         (nSigmaITS : PID -> Track -> R) (MassPionCharged : R)
         (clusterJets : R -> list FjParticle -> list Jet)
         (estimateRhoPerpCone : list FjParticle -> list Jet -> R * R)
         (doRhoAreaSub : PseudoJet -> R -> R -> PseudoJet)
         (cfg : Config) (ecfg : EventConfig)
         (responseMatrix : option (TH2 Rng))
         (collision : Collision) (tracks : list FullTrack)
         (s : DataState Gen Rng),
  exists added : Registry,
    registryData
      (processData Gen Rng dis Eta Phi nSigmaITS MassPionCharged clusterJets
         estimateRhoPerpCone doRhoAreaSub cfg ecfg responseMatrix
         collision tracks s)
    = registryData s ++ added
    /\ forall f : Fill, In f added -> In (fill_hist f) bookedData.
Proof.
  intros Gen Rng dis Eta Phi nSigmaITS MassPionCharged clusterJets
    estimateRhoPerpCone doRhoAreaSub cfg ecfg responseMatrix collision tracks s.
  destruct (processData_shape Gen Rng dis Eta Phi nSigmaITS MassPionCharged
              clusterJets estimateRhoPerpCone doRhoAreaSub cfg ecfg
              responseMatrix collision tracks s)
    as [added [k [H1 [H2 _]]]].
  exists added. split; [exact H1 |].
  intros f Hf. apply H2. apply in_map. exact Hf.
Qed.

(** * Calibration histograms *)

Lemma FindObject_name {Rng : Type} (l : TList Rng) name obj :
  FindObject l name = Some obj -> In obj l /\ GetName obj = name.
Proof.
  unfold FindObject. intro H. apply find_some in H. destruct H as [Hin Hn].
  split; [exact Hin | now apply String.eqb_eq].
Qed.

Lemma getReweightingHistograms_keeps_response {Rng : Type}
  (ccdbGet : string -> option (TList Rng)) filepath jetName ueName m :
  responseMatrix (fst (getReweightingHistograms ccdbGet filepath jetName
                         ueName m)) = responseMatrix m.
Proof.
  unfold getReweightingHistograms.
  destruct (ccdbGet filepath) as [l |]; [| reflexivity]. cbv zeta.
  cbn [twoDweightsAntipJet twoDweightsAntipUe responseMatrix].
  destruct (FindObject l _); [| reflexivity].
  destruct (FindObject l _); reflexivity.
Qed.

Lemma getPtUnfoldingHistogram_keeps_weights {Rng : Type}
  (ccdbGet : string -> option (TList Rng)) filepath histoName m :
  let r := getPtUnfoldingHistogram ccdbGet filepath histoName m in
  twoDweightsAntipJet (fst r) = twoDweightsAntipJet m
  /\ twoDweightsAntipUe (fst r) = twoDweightsAntipUe m.
Proof.
  unfold getPtUnfoldingHistogram.
  destruct (ccdbGet filepath) as [l |]; [| split; reflexivity]. cbv zeta.
  destruct (FindObject l histoName) as [obj |]; [| split; reflexivity].
  destruct (negb (InheritsFromTH2F obj)); split; reflexivity.
Qed.

Lemma getPtUnfoldingHistogram_no_list {Rng : Type}
  (ccdbGet : string -> option (TList Rng)) filepath histoName m :
  ccdbGet filepath = None ->
  fst (getPtUnfoldingHistogram ccdbGet filepath histoName m) = m.
Proof. intro E. unfold getPtUnfoldingHistogram. now rewrite E. Qed.

(** X16: [getPtUnfoldingHistogram] leaves the two reweighting pointers
    alone and logs one message.  Either it logs an error and leaves
    [responseMatrix] as it was (no list under the path, no object of that
    name in the list, or the first object of that name is no [TH2F]), or
    it logs at level [info] and [responseMatrix] points to an object of
    the list that has the name asked for and is a [TH2F].  It never sets
    the pointer to null. *)
Theorem X16_response_matrix_fetch :
  forall (Rng : Type) (ccdbGet : string -> option (TList Rng))
         (filepath histoName : string) (m : Members Rng),
    let r := getPtUnfoldingHistogram ccdbGet filepath histoName m in
    twoDweightsAntipJet (fst r) = twoDweightsAntipJet m
    /\ twoDweightsAntipUe (fst r) = twoDweightsAntipUe m
    /\ ((responseMatrix (fst r) = responseMatrix m
         /\ exists format arg,
              snd r = [LOGPs (severity error) format arg])
        \/ (exists (l : TList Rng) (obj : TObject Rng) (h : TH2 Rng),
              ccdbGet filepath = Some l
              /\ In obj l /\ GetName obj = histoName
              /\ asTH2F obj = Some h
              /\ responseMatrix (fst r) = Some obj
              /\ responseMatrixOf (fst r) = Some h
              /\ snd r = [LOGPs info "Opened histogram {}" histoName])).
Proof.
  intros Rng ccdbGet filepath histoName m r. unfold r, getPtUnfoldingHistogram.
  destruct (ccdbGet filepath) as [l |] eqn:El.
  - cbv zeta. destruct (FindObject l histoName) as [obj |] eqn:Ef.
    + unfold InheritsFromTH2F.
      destruct (asTH2F obj) as [h |] eqn:Eh; cbn [negb fst snd].
      * repeat split. right.
        apply FindObject_name in Ef. destruct Ef as [Hin Hn].
        exists l, obj, h. unfold responseMatrixOf. cbn.
        repeat split; try assumption; reflexivity.
      * repeat split. left. split; [reflexivity | eauto].
    + cbn [fst snd]. repeat split. left. split; [reflexivity | eauto].
  - cbn [fst snd]. repeat split. left. split; [reflexivity | eauto].
Qed.

(** X17: [getReweightingHistograms] never touches [responseMatrix].
    Without a list under the path it changes nothing.  With a list, the
    jet pointer becomes the result of the lookup of
    [<jet name>_antiproton], null included; the underlying-event pointer
    is looked up only if the jet histogram was found, and keeps its old
    value otherwise.  Two messages at level [info] are logged exactly
    when both lookups succeed: if they do the log is these two messages,
    and the log is either these two, with both pointers set by their
    lookups, or one error. *)
Theorem X17_reweighting_fetch :
  forall (Rng : Type) (ccdbGet : string -> option (TList Rng))
         (filepath jetName ueName : string) (m : Members Rng),
    let r := getReweightingHistograms ccdbGet filepath jetName ueName m in
    let jetKey := (jetName ++ "_antiproton")%string in
    let ueKey := (ueName ++ "_antiproton")%string in
    responseMatrix (fst r) = responseMatrix m
    /\ (ccdbGet filepath = None -> fst r = m)
    /\ (forall l, ccdbGet filepath = Some l ->
          twoDweightsAntipJet (fst r) = FindObject l jetKey
          /\ (FindObject l jetKey = None ->
              twoDweightsAntipUe (fst r) = twoDweightsAntipUe m)
          /\ (FindObject l jetKey <> None ->
              twoDweightsAntipUe (fst r) = FindObject l ueKey))
    /\ ((snd r = [LOGPs info "Opened histogram {}" jetKey;
                  LOGPs info "Opened histogram {}" ueKey]
         /\ exists l jetObj ueObj,
              ccdbGet filepath = Some l
              /\ FindObject l jetKey = Some jetObj
              /\ FindObject l ueKey = Some ueObj
              /\ twoDweightsAntipJet (fst r) = Some jetObj
              /\ twoDweightsAntipUe (fst r) = Some ueObj)
        \/ (exists format arg, snd r = [LOGPs (severity error) format arg]))
    /\ (forall l jetObj ueObj,
          ccdbGet filepath = Some l ->
          FindObject l jetKey = Some jetObj ->
          FindObject l ueKey = Some ueObj ->
          snd r = [LOGPs info "Opened histogram {}" jetKey;
                   LOGPs info "Opened histogram {}" ueKey])
    /\ (ccdbGet filepath = None ->
        snd r = [LOGPs (severity error) "Could not open the file {}"
                   filepath])
    /\ (forall l, ccdbGet filepath = Some l ->
          (FindObject l jetKey = None ->
           snd r = [LOGPs (severity error) "Could not open histogram {}"
                      jetKey])
          /\ (FindObject l jetKey <> None -> FindObject l ueKey = None ->
              snd r = [LOGPs (severity error) "Could not open histogram {}"
                         ueKey])).
Proof.
  intros Rng ccdbGet filepath jetName ueName m r jetKey ueKey.
  unfold r, getReweightingHistograms. fold jetKey ueKey.
  destruct (ccdbGet filepath) as [l |] eqn:El.
  - cbv zeta. cbn [twoDweightsAntipJet twoDweightsAntipUe responseMatrix].
    destruct (FindObject l jetKey) as [jetObj |] eqn:Ej.
    + destruct (FindObject l ueKey) as [ueObj |] eqn:Eu; cbn [fst snd].
      * split; [reflexivity |]. split; [discriminate |]. split.
        { intros l' E. injection E as <-. rewrite Ej, Eu.
          repeat split; try reflexivity. discriminate. }
        split.
        { left. split; [reflexivity |]. exists l, jetObj, ueObj.
          repeat split; assumption. }
        split; [intros; reflexivity |]. split; [discriminate |].
        intros l' E. injection E as <-. rewrite Ej, Eu.
        split; [discriminate | intros _ H; discriminate H].
      * split; [reflexivity |]. split; [discriminate |]. split.
        { intros l' E. injection E as <-. rewrite Ej, Eu.
          repeat split; try reflexivity. discriminate. }
        split; [right; eauto |].
        split.
        { intros l' jo uo E Hj Hu. injection E as <-.
          rewrite Eu in Hu. discriminate. }
        split; [discriminate |].
        intros l' E. injection E as <-. rewrite Ej, Eu.
        split; [discriminate | intros _ _; reflexivity].
    + cbn [fst snd]. split; [reflexivity |]. split; [discriminate |]. split.
      { intros l' E. injection E as <-. rewrite Ej.
        repeat split; try reflexivity. intro H. contradiction. }
      split; [right; eauto |].
      split.
      { intros l' jo uo E Hj Hu. injection E as <-.
        rewrite Ej in Hj. discriminate. }
      split; [discriminate |].
      intros l' E. injection E as <-. rewrite Ej.
      split; [intros _; reflexivity | intro H; contradiction].
  - cbn [fst snd]. split; [reflexivity |]. split; [reflexivity |]. split.
    { intros l' E. discriminate. }
    split; [right; eauto |].
    split; [intros l' jo uo E; discriminate |].
    split; [intros _; reflexivity |].
    intros l' E. discriminate.
Qed.

(** X18: what [init] leaves in [responseMatrix].  With
    [applyPtUnfolding] off the pointer is null, so every later
    [getCorrectedPt] returns its input unchanged.  With it on and nothing
    stored under [pathToFilePtUnfolding], [init] does not set the
    pointer: it still holds what it held before [init]. *)
Theorem X18_init_response_matrix :
  forall (Rng : Type) (ccdbGet : string -> option (TList Rng))
         (c : CalibConfig) (m : Members Rng),
    let m' := fst (init_calibration ccdbGet c m) in
    (applyPtUnfolding c = false ->
     responseMatrix m' = None
     /\ forall (ptRec : R) (gRandom : Rng),
          getCorrectedPt ptRec (responseMatrixOf m') gRandom
          = (ptRec, gRandom, [LOGP error nullMatrixFormat []]))
    /\ (applyPtUnfolding c = true ->
        ccdbGet (pathToFilePtUnfolding c) = None ->
        responseMatrix m' = responseMatrix m)
    /\ (applyReweighting c = false ->
        twoDweightsAntipJet m' = None /\ twoDweightsAntipUe m' = None).
Proof.
  intros Rng ccdbGet c m m'. unfold m', init_calibration.
  destruct (applyReweighting c) eqn:Erw.
  - pose proof (getReweightingHistograms_keeps_response ccdbGet (pathToFile c)
                  (histoNameWeightAntipJet c) (histoNameWeightAntipUe c) m)
      as Hkeep.
    destruct (getReweightingHistograms _ _ _ _ m) as [m1 log1].
    cbn [fst] in Hkeep.
    destruct (applyPtUnfolding c) eqn:Eunf.
    + pose proof (getPtUnfoldingHistogram_no_list ccdbGet
                    (pathToFilePtUnfolding c) (histoNamePtUnfolding c) m1)
        as Hno.
      destruct (getPtUnfoldingHistogram _ _ _ m1) as [m2 log2].
      cbn [fst] in *.
      split; [discriminate |]. split; [| discriminate].
      intros _ E. rewrite (Hno E). exact Hkeep.
    + cbn [fst]. split; [| split; discriminate].
      intros _. split; reflexivity.
  - destruct (applyPtUnfolding c) eqn:Eunf.
    + pose proof (getPtUnfoldingHistogram_no_list ccdbGet
                    (pathToFilePtUnfolding c) (histoNamePtUnfolding c)
                    (mkMembers None None (responseMatrix m))) as Hno.
      pose proof (getPtUnfoldingHistogram_keeps_weights ccdbGet
                    (pathToFilePtUnfolding c) (histoNamePtUnfolding c)
                    (mkMembers None None (responseMatrix m))) as Hw.
      destruct (getPtUnfoldingHistogram _ _ _ _) as [m2 log2].
      cbn [fst] in *.
      split; [discriminate |]. split.
      * intros _ E. rewrite (Hno E). reflexivity.
      * intros _. exact Hw.
    + cbn [fst]. split; [| split].
      * intros _. split; reflexivity.
      * discriminate.
      * intros _. split; reflexivity.
Qed.

Lemma X18_witness :
  responseMatrix
    (fst (init_calibration (fun _ : string => @None (TList nat))
            (mkCalibConfig false "weights" "jet" "ue" true "Users/ResponseMatrix"
               "detectorResponseMatrix")
            (mkMembers None None
               (Some (mkTObject "stale" (Some sampleMatrix))))))
  = Some (mkTObject "stale" (Some sampleMatrix)).
Proof.
  apply (proj1 (proj2 (X18_init_response_matrix nat
                         (fun _ : string => @None (TList nat))
                         (mkCalibConfig false "weights" "jet" "ue" true
                            "Users/ResponseMatrix" "detectorResponseMatrix")
                         (mkMembers None None
                            (Some (mkTObject "stale" (Some sampleMatrix)))))));
    reflexivity.
Defined.

(** * The perpendicular cones in [processQC] *)

Section QualityControlFacts.

Variables Eta Phi : TVector3 -> R.
Variables (coneRadius : R) (axis1 axis2 : TVector3).

Local Abbreviation counted := (inPerpCones Eta Phi coneRadius axis1 axis2).

(** What a counted track adds to the registry. *)
Local Abbreviation qcFills :=
  (fun track : FullTrack =>
     [mkFill "deltaEta_deltaPhi_ue"
        [eta (row track) - Eta axis1;
         getDeltaPhi (phi (row track)) (Phi axis1)];
      mkFill "deltaEta_deltaPhi_ue"
        [eta (row track) - Eta axis2;
         getDeltaPhi (phi (row track)) (Phi axis2)];
      mkFill "eta_phi_ue" [eta (row track); phi (row track)]]).

Lemma qcUeTrack_step track n sumPt registry :
  qcUeTrack Eta Phi coneRadius axis1 axis2 track (n, sumPt, registry) =
    if counted track
    then (n + 1, sumPt + pt (row track), registry ++ qcFills track)
    else (n, sumPt, registry).
Proof.
  unfold qcUeTrack, inPerpCones, outsideUeCones, fill. cbv zeta.
  destruct (passedTrackSelectionForJetReconstruction track); cbn [negb andb];
    [| reflexivity].
  destruct (_ && _); cbn [negb]; [reflexivity |].
  rewrite <- !app_assoc. reflexivity.
Qed.

Lemma qcUeLoop_fold tracks :
  forall n sumPt registry,
    fold_left
      (fun st track => qcUeTrack Eta Phi coneRadius axis1 axis2 track st)
      tracks (n, sumPt, registry)
    = (n + INR (List.length (filter counted tracks)),
       sumPt + fold_right Rplus 0 (map (fun t => pt (row t))
                                     (filter counted tracks)),
       registry ++ flat_map qcFills (filter counted tracks)).
Proof.
  induction tracks as [| track rest IH]; intros n sumPt registry.
  - simpl. rewrite app_nil_r. f_equal. f_equal; ring.
  - cbn [fold_left filter]. rewrite qcUeTrack_step.
    destruct (counted track).
    + rewrite IH. cbn [List.length map fold_right flat_map].
      rewrite S_INR, <- app_assoc. f_equal. f_equal; ring.
    + apply IH.
Qed.

End QualityControlFacts.

Lemma entries_flat_map_const {A : Type} (f : A -> Registry) name (k : nat)
  (l : list A) :
  (forall x, entries name (f x) = k) ->
  entries name (flat_map f l) = (k * List.length l)%nat.
Proof.
  intro H. induction l as [| x l IH]; simpl.
  - unfold entries. simpl. lia.
  - rewrite entries_app, IH, H. lia.
Qed.

(** X19: for one jet, the loop over the perpendicular cones of
    [processQC] counts each track that passes the selection for jet
    reconstruction and is not outside both cones once; [NchUE] receives
    half that count, [NchJet] the number of constituents less half that
    count, and [sumPtUE] half the sum of their [pt].  Each counted track
    adds two entries to [deltaEta_deltaPhi_ue], one for either axis
    whichever cone holds the track, and one to [eta_phi_ue]. *)
Theorem X19_qc_perpendicular_cones :
  forall (Eta Phi : TVector3 -> R) (coneRadius : R) (axis1 axis2 : TVector3)
         (nConstituents : nat) (tracks : list FullTrack) (registry : Registry),
    let counted :=
      filter (inPerpCones Eta Phi coneRadius axis1 axis2) tracks in
    exists added : Registry,
      qcUeLoop Eta Phi coneRadius axis1 axis2 nConstituents tracks registry
      = registry ++ added
      /\ fillsOf "NchUE" added = [[0.5 * INR (List.length counted)]]
      /\ fillsOf "NchJet" added
         = [[INR nConstituents - 0.5 * INR (List.length counted)]]
      /\ fillsOf "sumPtUE" added
         = [[0.5 * fold_right Rplus 0 (map (fun t => pt (row t)) counted)]]
      /\ entries "deltaEta_deltaPhi_ue" added = (2 * List.length counted)%nat
      /\ entries "eta_phi_ue" added = List.length counted.
Proof.
  intros Eta Phi coneRadius axis1 axis2 nConstituents tracks registry counted.
  unfold qcUeLoop. cbv zeta. rewrite qcUeLoop_fold. fold counted.
  unfold fill. rewrite !Rplus_0_l, <- !app_assoc.
  eexists. split; [reflexivity |].
  set (perTrack := flat_map _ counted).
  assert (Hnames : incl (map fill_hist perTrack)
                     ["deltaEta_deltaPhi_ue"%string; "eta_phi_ue"%string]).
  { unfold perTrack. clear. induction counted as [| t l IH]; simpl.
    - intros x [].
    - intros x [<- | [<- | [<- | Hx]]]; simpl; auto.
      apply IH. exact Hx. }
  assert (Hout : forall name,
             ~ In name ["deltaEta_deltaPhi_ue"%string; "eta_phi_ue"%string] ->
             fillsOf name perTrack = []).
  { intros name Hn. exact (fillsOf_outside name perTrack _ Hnames Hn). }
  rewrite !fillsOf_app, !entries_app.
  rewrite !Hout by (simpl; intuition discriminate).
  repeat split; try reflexivity.
  - unfold perTrack.
    rewrite (entries_flat_map_const _ "deltaEta_deltaPhi_ue" 2)
      by (intro; reflexivity).
    unfold entries. simpl. lia.
  - unfold perTrack.
    rewrite (entries_flat_map_const _ "eta_phi_ue" 1) by (intro; reflexivity).
    unfold entries. simpl. lia.
Qed.

(** * Systematic variations *)

Lemma Dbl_ltb_IZR (a b : Z) : Dbl.ltb (IZR a) (IZR b) = (a <? b)%Z.
Proof.
  destruct (Dbl_ltb_spec (IZR a) (IZR b)) as [H | H];
    destruct (Z.ltb_spec a b) as [L | L]; try reflexivity.
  - apply lt_IZR in H. lia.
  - apply IZR_lt in L. lra.
Qed.

Lemma tpcNcrossedRowsSyst_integral i :
  nth i tpcNcrossedRowsSyst 0
  = IZR (nth i [100; 85; 80; 110; 95; 90; 105; 95; 100; 105]%Z 0%Z).
Proof.
  do 10 (destruct i as [| i]; [reflexivity |]).
  destruct i; reflexivity.
Qed.

Section SystematicsFacts.

Variable nSigmaITS : PID -> Track -> R.
Variable cfg : Config.

Ltac split_conditions :=
  repeat match goal with
         | |- context [if ?c then _ else _] => destruct c
         end.

(** X20: variation [i] of the systematics loop fills, for a constituent,
    what the nominal loop over the jet constituents fills for it when run
    with the thresholds of the variation (ITS clusters, TPC crossed rows
    and the two DCA cuts of index [i]): the same values in the same
    order, each followed by the index [i], for the antiproton and the
    antideuteron TPC and TOF histograms alike. *)
Theorem X20_systematic_variation_is_nominal_loop :
  forall (track : Track) (i : nat),
  let nominal := jetTrack nSigmaITS (variedConfig cfg i) track [] in
  let tagged := map (fun values => values ++ [INR i]) in
  fillsOf "antiproton_tpc_syst" (systTrack nSigmaITS cfg track i [])
  = tagged (fillsOf "antiproton_jet_tpc" nominal)
  /\ fillsOf "antiproton_tof_syst" (systTrack nSigmaITS cfg track i [])
     = tagged (fillsOf "antiproton_jet_tof" nominal)
  /\ fillsOf "antideuteron_tpc_syst" (systTrack nSigmaITS cfg track i [])
     = tagged (fillsOf "antideuteron_jet_tpc" nominal)
  /\ fillsOf "antideuteron_tof_syst" (systTrack nSigmaITS cfg track i [])
     = tagged (fillsOf "antideuteron_jet_tof" nominal).
Proof.
  intros track i.
  unfold systTrack, jetTrack, fill. cbv zeta.
  rewrite tpcNcrossedRowsSyst_integral, Dbl_ltb_IZR.
  cbn [variedConfig requirePvContributor minItsNclusters minTpcNcrossedRows
       minTpcNcrossedRowsOverFindable maxChiSquareTpc maxChiSquareIts minPt
       minEta maxEta maxDcaxy maxDcaz applyItsPid minNsigmaTpc maxNsigmaTpc
       ptMaxItsPidProt ptMaxItsPidDeut ptMaxItsPidHel nSigmaItsMin
       nSigmaItsMax].
  (* the track selection, cut by cut *)
  destruct (passedTrackSelection (variedConfig cfg i) track) eqn:Hsel;
    revert Hsel; unfold passedTrackSelection;
    cbn [variedConfig requirePvContributor minItsNclusters minTpcNcrossedRows
         minTpcNcrossedRowsOverFindable maxChiSquareTpc maxChiSquareIts minPt
         minEta maxEta];
    repeat match goal with
           | |- (if ?c then false else _) = _ -> _ =>
             destruct c; [first [discriminate | intros _; repeat split; reflexivity] |]
           end;
    intro Hsel; try discriminate.
  cbn [negb].
  (* the DCA cuts and the sign *)
  destruct (Dbl.gtb (Rabs (dcaXY track)) (nth i dcaxySyst 0));
    destruct (Dbl.gtb (Rabs (dcaZ track)) (nth i dcazSyst 0));
    destruct (sign track <? 0)%Z; cbn [andb orb];
    split_conditions; repeat split; reflexivity.
Qed.

End SystematicsFacts.

(** * Statements *)

Lemma appending_skip : appending skip.
Proof. intro r. unfold skip. now rewrite app_nil_r. Qed.

Lemma appending_fillHist name values : appending (fillHist name values).
Proof. intro r. reflexivity. Qed.

Lemma appending_andThen s1 s2 :
  appending s1 -> appending s2 -> appending (s1 ;; s2).
Proof.
  intros H1 H2 r. unfold andThen.
  rewrite H2, (H2 (s1 [])), H1. now rewrite app_assoc.
Qed.

Lemma appending_when c s : appending s -> appending (when c s).
Proof. intro H. destruct c; [exact H | apply appending_skip]. Qed.

Lemma appending_forEach {A : Type} (body : A -> Statement) items :
  (forall item, appending (body item)) -> appending (forEach body items).
Proof.
  intro H. unfold forEach.
  induction items as [| item rest IH]; intro r; simpl.
  - now rewrite app_nil_r.
  - rewrite IH, (IH (body item [])), (H item r). now rewrite app_assoc.
Qed.

Lemma andThen_nil s1 s2 : appending s2 -> (s1 ;; s2) [] = s1 [] ++ s2 [].
Proof. intro H. unfold andThen. apply H. Qed.

Lemma forEach_cons {A : Type} (body : A -> Statement) item rest :
  forEach body (item :: rest) = (body item ;; forEach body rest).
Proof. reflexivity. Qed.

Ltac appending_tac :=
  repeat lazymatch goal with
         | |- appending skip => apply appending_skip
         | |- appending (fillHist _ _) => apply appending_fillHist
         | |- appending (_ ;; _) => apply appending_andThen
         | |- appending (when _ _) => apply appending_when
         | |- appending (if ?c then _ else _) => destruct c
         | |- appending (match ?o with Some _ => _ | None => _ end) =>
           destruct o
         end.

(** * [processEfficiency] *)

Section EfficiencyFacts.

Variables kProtonBar kDeuteron kHelium3 : Z.
Variable nSigmaITS : PID -> Track -> R.
Variable cfg : Config.
Variable ecfg : EventConfig.

Local Abbreviation effGenerated' :=
  (effGenerated kProtonBar kDeuteron kHelium3 cfg).
Local Abbreviation effTrack' :=
  (effTrack kProtonBar kDeuteron kHelium3 nSigmaITS cfg ecfg).

Lemma effTrack_appending track : appending (effTrack' track).
Proof. unfold effTrack. cbv zeta. appending_tac. Qed.

Lemma effGenerated_appending particle : appending (effGenerated' particle).
Proof. unfold effGenerated. appending_tac. Qed.

(** The order between the reconstructed spectra of a registry. *)
Local Abbreviation ordered :=
  (fun r : Registry =>
     (entries "antiproton_incl_rec_tof" r <= entries "antiproton_incl_rec_tpc" r
      <= entries "antiproton_incl_prim" r)%nat
     /\ (entries "antiproton_incl_prim" r <= entries "antiproton_incl_all" r)%nat
     /\ (entries "antideuteron_incl_rec_tof" r
         <= entries "antideuteron_incl_rec_tpc" r)%nat
     /\ (entries "deuteron_incl_rec_tof" r
         <= entries "deuteron_incl_rec_tpc" r)%nat).

Lemma ordered_app (a b : Registry) : ordered a -> ordered b -> ordered (a ++ b).
Proof. cbv beta. intros Ha Hb. rewrite !entries_app. lia. Qed.

Lemma ordered_nil : ordered [].
Proof. cbv beta. unfold entries. simpl. lia. Qed.

Ltac by_cases :=
  repeat match goal with
         | |- context [when ?c _] =>
           lazymatch c with
           | true => fail
           | false => fail
           | _ => destruct c
           end
         end;
  unfold entries; simpl; lia.

Lemma effTrack_ordered track : ordered (effTrack' track []).
Proof.
  unfold effTrack. cbv zeta.
  destruct (negb _); [apply ordered_nil |].
  destruct (Dbl.gtb _ _); [apply ordered_nil |].
  destruct (Dbl.gtb _ _); [apply ordered_nil |].
  destruct (mcParticle track) as [particle |]; [| apply ordered_nil].
  set (isPbar := (pdgCode particle =? kProtonBar)%Z).
  rewrite andThen_nil by appending_tac.
  destruct (isPhysicalPrimary particle); cbn [negb].
  2:{ rewrite app_nil_r. destruct isPbar; by_cases. }
  (* the antiproton fills together, then each other species *)
  rewrite andThen_nil by appending_tac.
  rewrite (andThen_nil (when (isPbar && _) _)) by appending_tac.
  rewrite !app_assoc. rewrite <- (app_assoc (when isPbar _ [])).
  apply ordered_app.
  { destruct isPbar; cbn [andb]; by_cases. }
  rewrite andThen_nil by appending_tac. apply ordered_app; [by_cases |].
  rewrite andThen_nil by appending_tac. apply ordered_app; [by_cases |].
  rewrite andThen_nil by appending_tac. apply ordered_app; by_cases.
Qed.

Lemma effGenerated_hists particle :
  incl (map fill_hist (effGenerated' particle []))
    ["antiproton_eta_pt_pythia"%string; "antiproton_incl_gen"%string;
     "deuteron_incl_gen"%string; "antideuteron_incl_gen"%string;
     "helium3_incl_gen"%string; "antihelium3_incl_gen"%string].
Proof.
  unfold effGenerated.
  destruct (negb _); [intros x [] |].
  rewrite andThen_nil by appending_tac. rewrite map_app.
  apply incl_app.
  - destruct (pdgCode particle =? kProtonBar)%Z; intros x Hx; simpl in Hx;
      [destruct Hx as [<- | []]; simpl; auto | contradiction].
  - repeat match goal with
           | |- context [if ?c then _ else _] => destruct c
           end;
      intros x Hx; simpl in Hx;
      try contradiction; destruct Hx as [<- | []]; simpl; auto 10.
Qed.

Lemma effGenerated_ordered particle : ordered (effGenerated' particle []).
Proof.
  pose proof (effGenerated_hists particle) as Hh. cbv beta.
  rewrite !(entries_outside _ _ _ Hh) by (simpl; intuition discriminate).
  lia.
Qed.

Lemma forEach_ordered {A : Type} (body : A -> Statement) items :
  (forall item, appending (body item)) ->
  (forall item, ordered (body item [])) ->
  ordered (forEach body items []).
Proof.
  intros Happ Hord. induction items as [| item rest IH].
  - apply ordered_nil.
  - rewrite forEach_cons, andThen_nil by (apply appending_forEach, Happ).
    apply ordered_app; [apply Hord | exact IH].
Qed.

Lemma effCollision_appending mcTracks mcParticles collision :
  appending (effCollision kProtonBar kDeuteron kHelium3 nSigmaITS cfg ecfg
               mcTracks mcParticles collision).
Proof.
  unfold effCollision.
  apply appending_andThen; [apply appending_fillHist |].
  destruct (_ || _); [apply appending_skip |].
  apply appending_andThen; [apply appending_fillHist |].
  apply appending_andThen; apply appending_forEach;
    [apply effGenerated_appending | apply effTrack_appending].
Qed.

Lemma effCollision_ordered mcTracks mcParticles collision :
  ordered (effCollision kProtonBar kDeuteron kHelium3 nSigmaITS cfg ecfg
             mcTracks mcParticles collision []).
Proof.
  unfold effCollision.
  rewrite andThen_nil.
  2:{ destruct (_ || _); [apply appending_skip |].
      apply appending_andThen; [apply appending_fillHist |].
      apply appending_andThen; apply appending_forEach;
        [apply effGenerated_appending | apply effTrack_appending]. }
  apply ordered_app; [cbv beta; unfold entries; simpl; lia |].
  destruct (_ || _); [apply ordered_nil |].
  rewrite andThen_nil
    by (apply appending_andThen; apply appending_forEach;
        [apply effGenerated_appending | apply effTrack_appending]).
  apply ordered_app; [cbv beta; unfold entries; simpl; lia |].
  rewrite andThen_nil
    by (apply appending_forEach, effTrack_appending).
  apply ordered_app.
  - apply forEach_ordered;
      [apply effGenerated_appending | apply effGenerated_ordered].
  - apply forEach_ordered; [apply effTrack_appending | apply effTrack_ordered].
Qed.

End EfficiencyFacts.
(** X22: whatever the collisions, tracks and particles, the fills
    [processEfficiency] adds keep the reconstructed spectra in order: the
    antiproton spectrum with TOF has at most the entries of the one with
    TPC only, that at most those of the primary antiprotons, and that at
    most those of all antiprotons; for antideuterons and deuterons the
    TOF spectrum has at most the entries of the TPC one.  Nothing filled
    before is touched. *)
Theorem X22_efficiency_spectra_ordered :
  forall (kProtonBar kDeuteron kHelium3 : Z) (nSigmaITS : PID -> Track -> R)
         (cfg : Config) (ecfg : EventConfig) (collisions : list Collision)
         (mcTracks : list McTrack) (mcParticles : list McParticle)
         (registry : Registry),
  exists added : Registry,
    processEfficiency kProtonBar kDeuteron kHelium3 nSigmaITS cfg ecfg
      collisions mcTracks mcParticles registry
    = registry ++ added
    /\ (entries "antiproton_incl_rec_tof" added
        <= entries "antiproton_incl_rec_tpc" added)%nat
    /\ (entries "antiproton_incl_rec_tpc" added
        <= entries "antiproton_incl_prim" added)%nat
    /\ (entries "antiproton_incl_prim" added
        <= entries "antiproton_incl_all" added)%nat
    /\ (entries "antideuteron_incl_rec_tof" added
        <= entries "antideuteron_incl_rec_tpc" added)%nat
    /\ (entries "deuteron_incl_rec_tof" added
        <= entries "deuteron_incl_rec_tpc" added)%nat.
Proof.
  intros kProtonBar kDeuteron kHelium3 nSigmaITS cfg ecfg collisions mcTracks
    mcParticles registry.
  exists (processEfficiency kProtonBar kDeuteron kHelium3 nSigmaITS cfg ecfg
            collisions mcTracks mcParticles []).
  split.
  - apply (appending_forEach _ collisions). intro collision.
    apply effCollision_appending.
  - pose proof (forEach_ordered
                  (effCollision kProtonBar kDeuteron kHelium3 nSigmaITS cfg
                     ecfg mcTracks mcParticles) collisions
                  (fun c => effCollision_appending _ _ _ _ _ _ _ _ c)
                  (fun c => effCollision_ordered _ _ _ _ _ _ _ _ c)) as H.
    cbv beta in H. unfold processEfficiency. lia.
Qed.
(** X23: in the loop over the generated particles a particle that is no
    physical primary fills nothing; a primary fills at most one of the
    five generated spectra, and only inside the pseudorapidity window,
    whereas a primary with the code of the antiproton enters
    [antiproton_eta_pt_pythia] whatever its pseudorapidity. *)
Theorem X23_generated_particles :
  forall (kProtonBar kDeuteron kHelium3 : Z) (cfg : Config)
         (particle : McParticle) (registry : Registry),
    let after := effGenerated kProtonBar kDeuteron kHelium3 cfg particle
                   registry in
    (isPhysicalPrimary particle = false -> after = registry)
    /\ (entries "antiproton_incl_gen" after
        + entries "deuteron_incl_gen" after
        + entries "antideuteron_incl_gen" after
        + entries "helium3_incl_gen" after
        + entries "antihelium3_incl_gen" after
        <= entries "antiproton_incl_gen" registry
           + entries "deuteron_incl_gen" registry
           + entries "antideuteron_incl_gen" registry
           + entries "helium3_incl_gen" registry
           + entries "antihelium3_incl_gen" registry + 1)%nat
    /\ (mc_eta particle < minEta cfg \/ maxEta cfg < mc_eta particle ->
        forall name, name <> "antiproton_eta_pt_pythia"%string ->
                     entries name after = entries name registry)
    /\ (isPhysicalPrimary particle = true ->
        pdgCode particle = kProtonBar ->
        entries "antiproton_eta_pt_pythia" after
        = S (entries "antiproton_eta_pt_pythia" registry)).
Proof.
  intros kProtonBar kDeuteron kHelium3 cfg particle registry after.
  unfold after.
  rewrite (effGenerated_appending kProtonBar kDeuteron kHelium3 cfg particle
             registry).
  rewrite !entries_app.
  unfold effGenerated.
  destruct (isPhysicalPrimary particle); cbn [negb].
  2:{ unfold skip. rewrite app_nil_r.
      split; [reflexivity |]. split; [unfold entries; simpl; lia |].
      split; [| discriminate].
      intros _ name _. reflexivity. }
  rewrite andThen_nil by appending_tac.
  split; [discriminate |]. rewrite !entries_app. split; [| split].
  - unfold when, skip, fillHist, fill.
    repeat match goal with
           | |- context [if ?c then _ else _] => destruct c
           end; unfold entries; simpl; lia.
  - intros Hout name Hname. rewrite !entries_app.
    assert (Hcut : Dbl.ltb (mc_eta particle) (minEta cfg)
                   || Dbl.gtb (mc_eta particle) (maxEta cfg) = true).
    { apply orb_true_iff. destruct Hout as [H | H];
        [left; apply Dbl_ltb_true | right; apply Dbl_gtb_true]; exact H. }
    rewrite Hcut. unfold when, skip, fillHist, fill.
    destruct (pdgCode particle =? kProtonBar)%Z; unfold entries;
      cbn [map fill_hist count_occ app]; [| lia].
    destruct (string_dec "antiproton_eta_pt_pythia" name) as [E | E];
      [exfalso; apply Hname; symmetry; exact E | lia].
  - intros _ Hpdg. apply Z.eqb_eq in Hpdg. rewrite Hpdg.
    unfold when, skip, fillHist, fill.
    repeat match goal with
           | |- context [if ?c then _ else _] => destruct c
           end; unfold entries; simpl; lia.
Qed.

Lemma X23_witness :
  effGenerated (-2212) 1000010020 1000020030 defaultConfig
    (mkMcParticle (-2212) false 1 0) []
  = [].
Proof.
  apply (proj1 (X23_generated_particles (-2212) 1000010020 1000020030
                  defaultConfig (mkMcParticle (-2212) false 1 0) [])).
  reflexivity.
Defined.
